(** * roboptim-core-plugin-nag: the sparse NLP adapter (NagSolverNlpSparse)

    A shallow embedding of [src/src/nag-nlp-sparse.cc]: the evaluation
    callback [detail::usrfun], the dimension / bounds / pattern builders
    ([compute_nf], [fill_xlow_xupp], [fill_flow_fupp], [lookForX],
    [fill_iafun_javar_lena_nea], [fill_igfun_jgvar_leng_neg],
    [fill_fnames]) and [solve], followed by the properties of the
    specification that concern them.

    Conventions of the embedding
    - a C++ [double] is a binary64 primitive float ([PrimFloat.float]);
      comparisons are the IEEE ones ([!=] is the negation of [=?]);
    - sizes, offsets and indices are [nat]; the status and request flags of
      the callback, which the code compares with signed constants, are [Z];
    - Eigen vectors, [std::vector]s and the raw arrays handed to the solver
      are lists; an indexed store outside the array, which Eigen's own
      assertion catches in the build where [assert] is active, aborts;
    - [assert] is active: a failed assertion ends the run ([AssertFail]);
      a C++ exception leaving a function is [Throw];
    - the external solver is an opaque function (a section variable). *)

From Stdlib Require Import String DecimalString.
From Stdlib Require Import ZArith List Floats Lia Bool PeanoNat.
Import ListNotations.

Local Open Scope string_scope.
Local Open Scope nat_scope.
Local Open Scope list_scope.

Set Implicit Arguments.
Set Warnings "-inexact-float".

(* ------------------------------------------------------------------ *)
(** ** Outcomes: normal return, failed assertion, exception            *)
(* ------------------------------------------------------------------ *)

Inductive outcome (A : Type) : Type :=
| Ok (a : A)
| AssertFail (what : string)
| Throw (what : string).

Arguments Ok {A} a.
Arguments AssertFail {A} what.
Arguments Throw {A} what.

Definition bind {A B : Type} (m : outcome A) (k : A -> outcome B) : outcome B :=
  match m with
  | Ok a => k a
  | AssertFail w => AssertFail w
  | Throw w => Throw w
  end.

Declare Scope outcome_scope.
Delimit Scope outcome_scope with outcome.
Notation "x <- m ;; k" := (bind m (fun x => k))
  (at level 61, m at next level, right associativity) : outcome_scope.
Notation "' p <- m ;; k" := (bind m (fun x => match x with p => k end))
  (at level 61, p pattern, m at next level, right associativity) : outcome_scope.
Notation "m ;;; k" := (bind m (fun _ => k))
  (at level 61, right associativity) : outcome_scope.
Local Open Scope outcome_scope.

(** [assert (b)] *)
Definition assert (b : bool) (what : string) : outcome unit :=
  if b then Ok tt else AssertFail what.

(** [for (e : l) body], threading the loop state and stopping at the first
    iteration that does not return. *)
Fixpoint for_each {A S : Type} (l : list A) (body : A -> S -> outcome S)
  (s : S) : outcome S :=
  match l with
  | [] => Ok s
  | a :: l' => s' <- body a s ;; for_each l' body s'
  end.

(** [for (i = 0; i < n; ++i)] iterates over [seq 0 n]; a loop over a
    container by position iterates over [enumerate]. *)
Fixpoint enumerate_from {A : Type} (i : nat) (l : list A) : list (nat * A) :=
  match l with
  | [] => []
  | a :: l' => (i, a) :: enumerate_from (S i) l'
  end.

Definition enumerate {A : Type} (l : list A) : list (nat * A) :=
  enumerate_from 0 l.

(* ------------------------------------------------------------------ *)
(** ** Arrays                                                          *)
(* ------------------------------------------------------------------ *)

Definition vector_t := list float.

Fixpoint replace_at {A : Type} (i : nat) (v : A) (l : list A) : list A :=
  match l, i with
  | [], _ => []
  | _ :: l', 0 => v :: l'
  | a :: l', S i' => a :: replace_at i' v l'
  end.

(** [l[i] = v] on an Eigen vector or map: the index is asserted in range. *)
Definition set_at {A : Type} (i : nat) (v : A) (l : list A) : outcome (list A) :=
  if i <? length l then Ok (replace_at i v l)
  else AssertFail "index out of range".

(** [l[i]] read: outside the container the behaviour is undefined in C++;
    the model stops there. *)
Definition get_at {A : Type} (i : nat) (l : list A) : outcome A :=
  match nth_error l i with
  | Some v => Ok v
  | None => AssertFail "index out of range"
  end.

(** [v.segment (off, len)] read. *)
Definition segment {A : Type} (off len : nat) (l : list A) : list A :=
  firstn len (skipn off l).

(** [v.segment (off, len)] as Eigen checks it: the block lies inside [v]. *)
Definition get_segment {A : Type} (off len : nat) (l : list A)
  : outcome (list A) :=
  if off + len <=? length l then Ok (segment off len l)
  else AssertFail "segment out of range".

(** [v.segment (off, len) = vals]: Eigen asserts that the block lies inside
    [v] and that both sides have the same size. *)
Definition set_segment {A : Type} (off len : nat) (vals l : list A)
  : outcome (list A) :=
  if (off + len <=? length l) && (length vals =? len)
  then Ok (firstn off l ++ vals ++ skipn (off + len) l)
  else AssertFail "segment out of range".

(** [Eigen::VectorXd::resize (n)] followed by [setZero ()]. *)
Definition zeros (n : nat) : vector_t := repeat 0%float n.

(** [std::vector::resize (n)]: keeps a prefix, pads with value-initialised
    elements. *)
Definition resize_std {A : Type} (d : A) (n : nat) (l : list A) : list A :=
  firstn n l ++ repeat d (n - length l).

(** [Eigen::VectorXd::resize (n)]: a no-op when the size is unchanged;
    otherwise the coefficients are reallocated (their content is
    unspecified; the model takes zeros). *)
Definition resize_eigen (n : nat) (v : vector_t) : vector_t :=
  if length v =? n then v else zeros n.

(* ------------------------------------------------------------------ *)
(** ** Sparse matrices, functions, problems                            *)
(* ------------------------------------------------------------------ *)

(** The sparse matrix of the framework ([function_t::matrix_t], an Eigen
    compressed matrix; row-major, as the specification has it): one inner
    vector per row, each a list of (column, value) pairs in storage
    order, so that [outerSize ()] is the number of rows. *)
Record matrix_t : Type := {
  cols : nat;
  outer : list (list (nat * float))
}.

Definition rows (m : matrix_t) : nat := length (outer m).

(** What an [InnerIterator] shows of a stored coefficient. *)
Record entry : Type := {
  e_row : nat;
  e_col : nat;
  e_value : float
}.

(** [for (InnerIterator it (j, k); it; ++it)] *)
Definition inner_entries (k : nat) (inner : list (nat * float)) : list entry :=
  map (fun cv => {| e_row := k; e_col := fst cv; e_value := snd cv |}) inner.

Fixpoint entries_from (k : nat) (o : list (list (nat * float))) : list entry :=
  match o with
  | [] => []
  | inner :: o' => inner_entries k inner ++ entries_from (S k) o'
  end.

(** [for (k = 0; k < j.outerSize (); ++k) for (InnerIterator it (j, k); ...)]:
    the stored coefficients in traversal order. *)
Definition entries (m : matrix_t) : list entry := entries_from 0 (outer m).

Definition nonZeros (m : matrix_t) : nat := length (entries m).

(** [Function::interval_t]: a (lower, upper) pair. *)
Definition interval_t : Type := (float * float)%type.

(** The objective ([problem ().function ()]).  [f_jacobian] is [None]
    when the function is not a differentiable one
    ([asType<differentiableFunction_t> ()] is false). *)
Record function_t : Type := {
  getName : string;
  inputSize : nat;
  outputSize : nat;
  f_value : vector_t -> vector_t;
  f_jacobian : option (vector_t -> matrix_t)
}.

(** Modelled from the spec: the constraint types.  Their declarations
    ([linearFunction_t], [nonlinearFunction_t], [numericLinearFunction_t],
    in the header of the adapter) are not among the sources; the spec has
    the closed variant Linear (A, b) / Nonlinear (eval, jacobian), and
    [asType<linearFunction_t> ()] tells the two apart.
    [nonlinearFunction_t] is taken to be the type of differentiable
    functions, which a linear function is too: [castInto
    <nonlinearFunction_t> ()] succeeds on either, and the Jacobian of the
    linear one is [A]. *)
Inductive constraint_t : Type :=
| Linear (name : string) (A : matrix_t) (b : vector_t)
| Nonlinear (name : string) (outputSize : nat)
    (value : vector_t -> vector_t) (jacobian : vector_t -> matrix_t).

Definition isLinear (c : constraint_t) : bool :=
  match c with Linear _ _ _ => true | Nonlinear _ _ _ _ => false end.

Definition c_getName (c : constraint_t) : string :=
  match c with Linear nm _ _ => nm | Nonlinear nm _ _ _ => nm end.

Definition c_outputSize (c : constraint_t) : nat :=
  match c with Linear _ A _ => rows A | Nonlinear _ m _ _ => m end.

Definition c_jacobian (c : constraint_t) (x : vector_t) : matrix_t :=
  match c with Linear _ A _ => A | Nonlinear _ _ _ j => j x end.

Record problem_t : Type := {
  function : function_t;
  constraints : list constraint_t;
  boundsVector : list (list interval_t);
  argumentBounds : list interval_t;
  startingPoint : option vector_t
}.

(* ------------------------------------------------------------------ *)
(** ** Dimensions and bounds                                           *)
(* ------------------------------------------------------------------ *)

(** [NagSolverNlpSparse::compute_nf] *)
Definition compute_nf (pb : problem_t) : nat :=
  fold_left
    (fun nf_ cstr =>
       match cstr with
       | Linear _ A _ => nf_ + rows A
       | Nonlinear _ m _ _ => nf_ + m
       end)
    (constraints pb) (outputSize (function pb)).

(** [NagSolverNlpSparse::fill_xlow_xupp] *)
Definition fill_xlow_xupp (pb : problem_t) (n_ : nat) (xlow_ xupp_ : vector_t)
  : outcome (vector_t * vector_t) :=
  assert (length (argumentBounds pb) =? n_)
    "problem ().argumentBounds ().size () == n_" ;;;
  for_each (seq 0 n_)
    (fun i st =>
       let '(xlow, xupp) := st in
       bd <- get_at i (argumentBounds pb) ;;
       xlow <- set_at i (fst bd) xlow ;;
       xupp <- set_at i (snd bd) xupp ;;
       Ok (xlow, xupp))
    (resize_eigen n_ xlow_, resize_eigen n_ xupp_).

(** The state of the two bound loops: [offset], [flow_], [fupp_]. *)
Definition rows_state : Type := (nat * vector_t * vector_t)%type.

(** [flow_[offset] = lo; fupp_[offset] = up; ++offset;] *)
Definition put_row (lo up : float) (st : rows_state) : outcome rows_state :=
  let '(offset, flow, fupp) := st in
  flow <- set_at offset lo flow ;;
  fupp <- set_at offset up fupp ;;
  Ok (S offset, flow, fupp).

(** [problem ().boundsVector ()[constraintId][i]] *)
Definition constraint_bound (pb : problem_t) (constraintId i : nat)
  : outcome interval_t :=
  bs <- get_at constraintId (boundsVector pb) ;;
  get_at i bs.

(** Body of the first loop of [fill_flow_fupp] (nonlinear constraints). *)
Definition flow_fupp_nonlinear (pb : problem_t) (ic : nat * constraint_t)
  (st : rows_state) : outcome rows_state :=
  let '(constraintId, cstr) := ic in
  match cstr with
  | Linear _ _ _ => Ok st
  | Nonlinear _ m _ _ =>
      for_each (seq 0 m)
        (fun i st =>
           bd <- constraint_bound pb constraintId i ;;
           put_row (fst bd) (snd bd) st)
        st
  end.

(** Body of the second loop of [fill_flow_fupp] (linear constraints):
    the bounds are shifted by the offset [b]. *)
Definition flow_fupp_linear (pb : problem_t) (ic : nat * constraint_t)
  (st : rows_state) : outcome rows_state :=
  let '(constraintId, cstr) := ic in
  match cstr with
  | Nonlinear _ _ _ _ => Ok st
  | Linear _ A b =>
      for_each (seq 0 (rows A))
        (fun i st =>
           bd <- constraint_bound pb constraintId i ;;
           bi <- get_at i b ;;
           put_row (fst bd - bi)%float (snd bd - bi)%float st)
        st
  end.

(** [fill_flow_fupp] up to and including [assert (offset == nf_)]. *)
Definition assemble_flow_fupp (pb : problem_t) (nf_ : nat)
  : outcome (vector_t * vector_t) :=
  flow <- set_at 0 (- infinity)%float (zeros nf_) ;;
  fupp <- set_at 0 infinity (zeros nf_) ;;
  st <- for_each (enumerate (constraints pb)) (flow_fupp_nonlinear pb)
          (1, flow, fupp) ;;
  st <- for_each (enumerate (constraints pb)) (flow_fupp_linear pb) st ;;
  let '(offset, flow, fupp) := st in
  assert (offset =? nf_) "offset == nf_" ;;;
  Ok (flow, fupp).

(** The tolerance of the consistency loop. *)
Definition tolerance : float := 1e-6%float.

(** Body of the consistency loop of [fill_flow_fupp]. *)
Definition snap_row (id : nat) (st : vector_t * vector_t)
  : outcome (vector_t * vector_t) :=
  let '(flow, fupp) := st in
  lo <- get_at id flow ;;
  flow <- (if (abs lo <? tolerance)%float then set_at id 0%float flow
           else Ok flow) ;;
  up <- get_at id fupp ;;
  fupp <- (if (abs up <? tolerance)%float then set_at id 0%float fupp
           else Ok fupp) ;;
  lo <- get_at id flow ;;
  up <- get_at id fupp ;;
  flow <- (if (abs (lo - up) <? tolerance)%float then set_at id up flow
           else Ok flow) ;;
  lo <- get_at id flow ;;
  assert (lo <=? up)%float "flow_[id] <= fupp_[id]" ;;;
  Ok (flow, fupp).

(** The consistency loop of [fill_flow_fupp]. *)
Definition snap_flow_fupp (nf_ : nat) (st : vector_t * vector_t)
  : outcome (vector_t * vector_t) :=
  for_each (seq 0 nf_) snap_row st.

(** [NagSolverNlpSparse::fill_flow_fupp] *)
Definition fill_flow_fupp (pb : problem_t) (nf_ : nat)
  : outcome (vector_t * vector_t) :=
  st <- assemble_flow_fupp pb nf_ ;;
  snap_flow_fupp nf_ st.

(* ------------------------------------------------------------------ *)
(** ** Sparsity patterns                                               *)
(* ------------------------------------------------------------------ *)

(** [a != b] on doubles. *)
Definition fneq (a b : float) : bool := negb (a =? b)%float.

(** [NagSolverNlpSparse::lookForX ()]: where the objective Jacobian is
    evaluated. *)
Definition lookForX (pb : problem_t) (n_ : nat) : vector_t :=
  match startingPoint pb with
  | None => zeros n_
  | Some x => x
  end.

(** One coordinate of [lookForX (constraintId)] without a starting point. *)
Definition lookForX_coordinate (bd : interval_t) : float :=
  if fneq (fst bd) infinity && fneq (snd bd) infinity
  then ((snd bd - fst bd) / 2)%float
  else if fneq (fst bd) infinity
       then fst bd
       else snd bd.

(** [NagSolverNlpSparse::lookForX (unsigned constraintId)]: where the
    Jacobian of constraint [constraintId] is evaluated. *)
Definition lookForX_constraint (pb : problem_t) (n_ : nat) (constraintId : nat)
  : outcome vector_t :=
  match startingPoint pb with
  | None =>
      for_each (seq 0 n_)
        (fun i x =>
           bd <- constraint_bound pb constraintId i ;;
           set_at i (lookForX_coordinate bd) x)
        (zeros n_)
  | Some x => Ok x
  end.

(** The inner double loop of [fill_iafun_javar_lena_nea]: one
    [push_back] on each of [iafun_], [javar_], [a_] per stored
    coefficient of [A]. *)
Definition push_linear_entries (offset : nat) (A : matrix_t)
  (st : list nat * list nat * vector_t) : list nat * list nat * vector_t :=
  fold_left
    (fun st it =>
       let '(iafun, javar, a) := st in
       (iafun ++ [offset + e_row it + 1],
        javar ++ [e_col it + 1],
        a ++ [e_value it]))
    (entries A) st.

(** [NagSolverNlpSparse::fill_iafun_javar_lena_nea]; the result is
    [(iafun_, javar_, a_, lena_, nea_)]. *)
Definition fill_iafun_javar_lena_nea (pb : problem_t)
  : list nat * list nat * vector_t * nat * nat :=
  (* compute the initial offset *)
  let offset := 0 + outputSize (function pb) in
  let offset :=
    fold_left
      (fun offset cstr =>
         match cstr with
         | Linear _ _ _ => offset
         | Nonlinear _ m _ _ => offset + m
         end)
      (constraints pb) offset in
  let '(_, st) :=
    fold_left
      (fun ost cstr =>
         let '(offset, st) := ost in
         match cstr with
         | Nonlinear _ _ _ _ => (offset, st)
         | Linear _ A _ => (offset + rows A, push_linear_entries offset A st)
         end)
      (constraints pb) (offset, ([], [], [])) in
  let '(iafun, javar, a) := st in
  let lena := length iafun in
  if lena =? 0
  then (resize_std 0 1 iafun, resize_std 0 1 javar, resize_std 0%float 1 a, 1, 0)
  else (iafun, javar, a, lena, lena).

(** The inner double loop of [fill_igfun_jgvar_leng_neg]: one [push_back]
    on each of [igfun_], [jgvar_] per stored coefficient of [jac]. *)
Definition push_pattern_entries (offset : nat) (jac : matrix_t)
  (st : list nat * list nat) : list nat * list nat :=
  fold_left
    (fun st it =>
       let '(igfun, jgvar) := st in
       (igfun ++ [offset + e_row it + 1], jgvar ++ [e_col it + 1]))
    (entries jac) st.

(** The state of the constraint loop of [fill_igfun_jgvar_leng_neg]:
    [offset], [neg_], [igfun_], [jgvar_]. *)
Definition pattern_state : Type := (nat * nat * (list nat * list nat))%type.

(** Body of the constraint loop of [fill_igfun_jgvar_leng_neg]. *)
Definition pattern_nonlinear (pb : problem_t) (n_ : nat)
  (ic : nat * constraint_t) (st : pattern_state) : outcome pattern_state :=
  let '(constraintId, cstr) := ic in
  match cstr with
  | Linear _ _ _ => Ok st
  | Nonlinear _ _ _ jacobian =>
      let '(offset, neg, vecs) := st in
      x <- lookForX_constraint pb n_ constraintId ;;
      let jac := jacobian x in
      Ok (offset + rows jac, neg + nonZeros jac,
          push_pattern_entries offset jac vecs)
  end.

(** [NagSolverNlpSparse::fill_igfun_jgvar_leng_neg]; the result is
    [(igfun_, jgvar_, leng_, neg_)]. *)
Definition fill_igfun_jgvar_leng_neg (pb : problem_t) (n_ : nat)
  : outcome (list nat * list nat * nat * nat) :=
  match f_jacobian (function pb) with
  | None => Throw "objective function should be differentiable"
  | Some jacobian =>
      let x := lookForX pb n_ in
      let jac := jacobian x in
      let neg := 0 + nonZeros jac in
      let vecs := push_pattern_entries 0 jac ([], []) in
      let offset := 0 + rows jac in
      st <- for_each (enumerate (constraints pb)) (pattern_nonlinear pb n_)
              (offset, neg, vecs) ;;
      let '(_, neg, (igfun, jgvar)) := st in
      let leng := length igfun in
      if leng =? 0
      then Ok (resize_std 0 1 igfun, resize_std 0 1 jgvar, 1, 0)
      else Ok (igfun, jgvar, leng, neg)
  end.

(* ------------------------------------------------------------------ *)
(** ** Row names                                                       *)
(* ------------------------------------------------------------------ *)

Definition string_of_nat (i : nat) : string :=
  NilEmpty.string_of_uint (Nat.to_uint i).

(** [boost::format ("%1%, %2%, Ouput variable %3%") % kind % name % i] *)
Definition fmt (kind name : string) (i : nat) : string :=
  (kind ++ ", " ++ name ++ ", Ouput variable " ++ string_of_nat i)%string.

(** The rows of one constraint: [for (i = 0; i < g->outputSize (); ++i)
    fnames_.push_back (...)]. *)
Definition push_names (kind : string) (cstr : constraint_t)
  (fnames : list string) : list string :=
  fold_left (fun fnames i => fnames ++ [fmt kind (c_getName cstr) i])
    (seq 0 (c_outputSize cstr)) fnames.

(** [NagSolverNlpSparse::fill_fnames]: appends to the member [fnames_]. *)
Definition fill_fnames (pb : problem_t) (nf_ : nat) (fnames_ : list string)
  : outcome (list string) :=
  let fnames := fnames_ ++ [fmt "cost" (getName (function pb)) 0] in
  let fnames :=
    fold_left
      (fun fnames cstr =>
         if isLinear cstr then fnames else push_names "nonlinear" cstr fnames)
      (constraints pb) fnames in
  let fnames :=
    fold_left
      (fun fnames cstr =>
         if negb (isLinear cstr) then fnames
         else push_names "linear" cstr fnames)
      (constraints pb) fnames in
  assert (nf_ =? length fnames)
    "nf_ == static_cast<int> (fnames_.size ())" ;;;
  Ok fnames.

(* ------------------------------------------------------------------ *)
(** ** The evaluation callback                                         *)
(* ------------------------------------------------------------------ *)

(** Modelled from the spec: the solver state ([solverState_t], declared
    outside the sources), a mutable snapshot of the current point exposed
    to the monitor. *)
Record solverState_t : Type := { ss_x : vector_t }.

(** The monitor ([callback_t]): it receives the problem and the solver
    state by reference. *)
Definition callback_t : Type := problem_t -> solverState_t -> solverState_t.

(** What a call does besides storing into its arrays; [None] names the
    objective, [Some id] the constraint at position [id]. *)
Inductive event : Type :=
| EvValue (who : option nat) (x : vector_t)
| EvJacobian (who : option nat) (x : vector_t)
| EvStoreG (offset : nat) (v : float)
| EvMonitor (state : solverState_t).

(** The memory a call of [usrfun] works on: the arrays [f] and [g] of the
    caller, the solver state of the adapter, and the log of events. *)
Record memory : Type := {
  m_f : vector_t;
  m_g : vector_t;
  m_solverState : solverState_t;
  m_trace : list event
}.

Definition with_f (fv : vector_t) (ev : event) (m : memory) : memory :=
  {| m_f := fv; m_g := m_g m; m_solverState := m_solverState m;
     m_trace := m_trace m ++ [ev] |}.

Definition with_g (gv : vector_t) (ev : event) (m : memory) : memory :=
  {| m_f := m_f m; m_g := gv; m_solverState := m_solverState m;
     m_trace := m_trace m ++ [ev] |}.

Definition log (ev : event) (m : memory) : memory :=
  {| m_f := m_f m; m_g := m_g m; m_solverState := m_solverState m;
     m_trace := m_trace m ++ [ev] |}.

(** [f_.segment (off, len) = vals] where [f_] maps the first [nf]
    elements of [f]. *)
Definition map_set_segment (nf off len : nat) (vals arr : vector_t)
  : outcome vector_t :=
  if off + len <=? nf then set_segment off len vals arr
  else AssertFail "segment out of range".

(** First constraint loop of the [needf] branch. *)
Definition values_nonlinear (x_ : vector_t) (nf : nat)
  (ic : nat * constraint_t) (st : nat * memory) : outcome (nat * memory) :=
  let '(constraintId, cstr) := ic in
  match cstr with
  | Linear _ _ _ => Ok st
  | Nonlinear _ m value _ =>
      let '(offset, mem) := st in
      fv <- map_set_segment nf offset m (value x_) (m_f mem) ;;
      Ok (offset + m, with_f fv (EvValue (Some constraintId) x_) mem)
  end.

(** Second constraint loop of the [needf] branch: only the offset moves. *)
Definition values_linear (offset : nat) (cstr : constraint_t) : nat :=
  if negb (isLinear cstr) then offset else offset + c_outputSize cstr.

(** The [needf > 0] branch of [usrfun]. *)
Definition usrfun_values (pb : problem_t) (x_ : vector_t) (nf : nat)
  (mem : memory) : outcome memory :=
  fv <- map_set_segment nf 0 1 (f_value (function pb) x_) (m_f mem) ;;
  let mem := with_f fv (EvValue None x_) mem in
  st <- for_each (enumerate (constraints pb)) (values_nonlinear x_ nf)
          (1, mem) ;;
  let '(offset, mem) := st in
  let offset := fold_left values_linear (constraints pb) offset in
  assert (offset =? nf) "offset == nf" ;;;
  Ok mem.

(** [g_[offset++] = it.value ()] where [g_] maps the first [leng]
    elements of [g]. *)
Definition store_g (leng : nat) (it : entry) (st : nat * memory)
  : outcome (nat * memory) :=
  let '(offset, mem) := st in
  if offset <? leng
  then gv <- set_at offset (e_value it) (m_g mem) ;;
       Ok (S offset, with_g gv (EvStoreG offset (e_value it)) mem)
  else AssertFail "index out of range".

(** The double loop over the stored coefficients of a Jacobian [j]. *)
Definition store_jacobian (leng : nat) (j : matrix_t) (st : nat * memory)
  : outcome (nat * memory) :=
  for_each (entries j) (store_g leng) st.

(** Body of the constraint loop of the [needg] branch.  The guard is the
    one of the source: [if (!asType<linearFunction_t> ()) continue;]. *)
Definition gradients_constraint (x_ : vector_t) (leng : nat)
  (ic : nat * constraint_t) (st : nat * memory) : outcome (nat * memory) :=
  let '(constraintId, cstr) := ic in
  if negb (isLinear cstr) then Ok st
  else
    let '(offset, mem) := st in
    let j := c_jacobian cstr x_ in
    store_jacobian leng j (offset, log (EvJacobian (Some constraintId) x_) mem).

(** The [needg > 0] branch of [usrfun] up to, and without,
    [assert (offset == leng)]: the final offset and memory. *)
Definition usrfun_gradient_loops (pb : problem_t) (x_ : vector_t) (leng : nat)
  (mem : memory) : outcome (nat * memory) :=
  match f_jacobian (function pb) with
  | None => Throw "objective function should be differentiable"
  | Some jacobian =>
      let j := jacobian x_ in
      st <- store_jacobian leng j (0, log (EvJacobian None x_) mem) ;;
      for_each (enumerate (constraints pb)) (gradients_constraint x_ leng) st
  end.

(** The [needg > 0] branch of [usrfun]. *)
Definition usrfun_gradients (pb : problem_t) (x_ : vector_t) (leng : nat)
  (mem : memory) : outcome memory :=
  st <- usrfun_gradient_loops pb x_ leng mem ;;
  let '(offset, mem) := st in
  assert (offset =? leng) "offset == leng" ;;;
  Ok mem.

(** The end of [usrfun]: the monitor, when one is registered. *)
Definition usrfun_monitor (pb : problem_t) (callback : option callback_t)
  (x_ : vector_t) (mem : memory) : memory :=
  match callback with
  | None => mem
  | Some cb =>
      let state := {| ss_x := x_ |} in
      {| m_f := m_f mem; m_g := m_g mem;
         m_solverState := cb pb state;
         m_trace := m_trace mem ++ [EvMonitor state] |}
  end.

(** [detail::usrfun].  [pb] and [callback] are what the callback reaches
    through [comm->p]. *)
Definition usrfun (pb : problem_t) (callback : option callback_t)
  (status : Z) (n : nat) (x : vector_t) (needf : Z) (nf : nat)
  (needg : Z) (leng : nat) (mem : memory) : outcome memory :=
  if (status >=? 2)%Z then Ok mem
  else
    let x_ := firstn n x in
    mem <- (if (needf >? 0)%Z then usrfun_values pb x_ nf mem else Ok mem) ;;
    mem <- (if (needg >? 0)%Z then usrfun_gradients pb x_ leng mem
            else Ok mem) ;;
    Ok (usrfun_monitor pb callback x_ mem).

(* ------------------------------------------------------------------ *)
(** ** The adapter and [solve]                                         *)
(* ------------------------------------------------------------------ *)

(** [Result]: the decoded output of the solver. *)
Record Result : Type := {
  r_x : vector_t;
  r_value : vector_t;
  r_constraints : vector_t;
  r_lambda : vector_t
}.

(** Modelled from the spec: the stored result (a variant declared
    outside the sources): nothing yet, a success, or a failure
    [SolverError] with its message and its optional last state. *)
Inductive result_t : Type :=
| NoSolution
| Success (res : Result)
| SolverError (message : string) (lastState : option Result).

(** The members of [NagSolverNlpSparse]. *)
Record solver_t : Type := {
  problem : problem_t;
  nf_ : nat;
  n_ : nat;
  nxname_ : nat;
  nfname_ : nat;
  iafun_ : list nat;
  javar_ : list nat;
  a_ : vector_t;
  lena_ : nat;
  nea_ : nat;
  igfun_ : list nat;
  jgvar_ : list nat;
  leng_ : nat;
  neg_ : nat;
  xlow_ : vector_t;
  xupp_ : vector_t;
  xnames_ : list string;
  flow_ : vector_t;
  fupp_ : vector_t;
  fnames_ : list string;
  x_ : vector_t;
  xstate_ : list Z;
  xmul_ : vector_t;
  f_ : vector_t;
  fstate_ : list Z;
  fmul_ : vector_t;
  callback_ : option callback_t;
  solverState_ : solverState_t;
  result_ : result_t
}.

(** [objadd_] and [objrow_] are set by the constructor and never change. *)
Definition objadd_ : float := 0%float.
Definition objrow_ : nat := 1.

(** [NagSolverNlpSparse::NagSolverNlpSparse (pb)] *)
Definition NagSolverNlpSparse (pb : problem_t) : solver_t :=
  let n := inputSize (function pb) in
  {| problem := pb; nf_ := 0; n_ := n; nxname_ := 0; nfname_ := 0;
     iafun_ := []; javar_ := []; a_ := []; lena_ := 0; nea_ := 0;
     igfun_ := []; jgvar_ := []; leng_ := 0; neg_ := 0;
     xlow_ := []; xupp_ := []; xnames_ := [];
     flow_ := []; fupp_ := []; fnames_ := [];
     x_ := zeros n; xstate_ := []; xmul_ := zeros n;
     f_ := []; fstate_ := []; fmul_ := zeros n;
     callback_ := None; solverState_ := {| ss_x := zeros n |};
     result_ := NoSolution |}.

(** What [nag_opt_sparse_nlp_solve] receives. *)
Record nag_in : Type := {
  i_nf : nat; i_n : nat; i_nxname : nat; i_nfname : nat;
  i_objadd : float; i_objrow : nat;
  i_iafun : list nat; i_javar : list nat; i_a : vector_t;
  i_lena : nat; i_nea : nat;
  i_igfun : list nat; i_jgvar : list nat; i_leng : nat; i_neg : nat;
  i_xlow : vector_t; i_xupp : vector_t; i_xnames : list string;
  i_flow : vector_t; i_fupp : vector_t; i_fnames : list string;
  i_x : vector_t; i_xstate : list Z; i_xmul : vector_t;
  i_f : vector_t; i_fstate : list Z; i_fmul : vector_t
}.

(** What it leaves in the arrays it was given, and in [fail]. *)
Record nag_out : Type := {
  o_x : vector_t; o_xstate : list Z; o_xmul : vector_t;
  o_f : vector_t; o_fstate : list Z; o_fmul : vector_t;
  o_code : Z;
  o_message : string
}.

(** [NE_NOERROR] *)
Definition NE_NOERROR : Z := 0%Z.

(** The type of [usrfun] once the adapter is fixed. *)
Definition usrfun_t : Type :=
  Z -> nat -> vector_t -> Z -> nat -> Z -> nat -> memory -> outcome memory.

(** The variable names pushed by [solve]. *)
Definition push_xnames (pb : problem_t) (xnames : list string) : list string :=
  fold_left
    (fun xnames i => xnames ++ [("RobOptim variable " ++ string_of_nat i)%string])
    (seq 0 (inputSize (function pb))) xnames.

(** The decoding at the end of [solve]. *)
Definition decode (pb : problem_t) (nf : nat) (x f fmul : vector_t)
  : outcome Result :=
  f0 <- get_at 0 f ;;
  value <- set_at 0 f0 (zeros (outputSize (function pb))) ;;
  constraints <- get_segment 1 (nf - 1) f ;;
  lambda <- get_segment 1 (nf - 1) fmul ;;
  Ok {| r_x := x; r_value := value;
        r_constraints := constraints;
        r_lambda := lambda |}.

Section Solve.

(** The external solver: given its arguments, the callback and the solver
    state the callback publishes into, it returns what it left in its
    output arrays and in [fail], or never returns when a call of the
    callback did not. *)
Variable nag_opt_sparse_nlp_solve :
  nag_in -> usrfun_t -> solverState_t -> outcome (nag_out * solverState_t).

(** The block of [ROBOPTIM_ASSERT]s before the call of the solver. *)
Definition check_sizes (a : nag_in) : outcome unit :=
  assert (0 <? i_nf a) "nf_ > 0" ;;;
  assert (0 <? i_n a) "n_ > 0" ;;;
  assert ((i_nxname a =? 1) || (i_nxname a =? i_n a))
    "nxname_ == 1 || nxname_ == n_" ;;;
  assert ((i_nfname a =? 1) || (i_nfname a =? i_nf a))
    "nfname_ == 1 || nfname_ == nf_" ;;;
  assert (i_objadd a =? 0)%float "objadd_ == 0." ;;;
  assert ((1 <=? i_objrow a) && (i_objrow a <=? i_nf a))
    "1 <= objrow_ && objrow_ <= nf_" ;;;
  assert (length (i_iafun a) =? i_lena a) "iafun_.size () == lena_" ;;;
  assert (length (i_javar a) =? i_lena a) "javar_.size () == lena_" ;;;
  assert (length (i_a a) =? i_lena a) "a_.size () == lena_" ;;;
  assert (1 <=? i_lena a) "lena_ >= 1" ;;;
  assert (i_leng a <=? length (i_igfun a)) "igfun_.size () >= leng_" ;;;
  assert (i_leng a <=? length (i_jgvar a)) "jgvar_.size () >= leng_" ;;;
  assert (1 <=? i_leng a) "leng_ >= 1" ;;;
  assert (i_neg a <=? i_leng a) "0 <= neg_ && neg_ <= leng_" ;;;
  assert (length (i_xlow a) =? i_n a) "xlow_.size () == n_" ;;;
  assert (length (i_xupp a) =? i_n a) "xupp_.size () == n_" ;;;
  assert (length (i_flow a) =? i_nf a) "flow_.size () == nf_" ;;;
  assert (length (i_fupp a) =? i_nf a) "fupp_.size () == nf_" ;;;
  assert (length (i_x a) =? i_n a) "x_.size () == n_" ;;;
  assert (length (i_xstate a) =? i_n a) "xstate_.size () == n_" ;;;
  assert (length (i_xmul a) =? i_n a) "xmul_.size () == n_" ;;;
  assert (length (i_f a) =? i_nf a) "f_.size () == nf_" ;;;
  assert (length (i_fstate a) =? i_nf a) "fstate_.size () == nf_" ;;;
  assert (length (i_fmul a) =? i_nf a) "fmul_.size () == nf_".

(** [solve] up to the call of the solver: the arguments it passes. *)
Definition prepare (s : solver_t) : outcome nag_in :=
  let pb := problem s in
  let nf := compute_nf pb in
  let n := n_ s in
  let '(nfname, nxname) :=
    if (nf =? 1) || (n =? 1) then (1, 1) else (nf, n) in
  let '(iafun, javar, a, lena, nea) := fill_iafun_javar_lena_nea pb in
  pat <- fill_igfun_jgvar_leng_neg pb n ;;
  let '(igfun, jgvar, leng, neg) := pat in
  xb <- fill_xlow_xupp pb n (xlow_ s) (xupp_ s) ;;
  fb <- fill_flow_fupp pb nf ;;
  fnames <- fill_fnames pb nf (fnames_ s) ;;
  let x := resize_eigen n (x_ s) in
  let xstate := resize_std 0%Z n (xstate_ s) in
  let xmul := resize_eigen n (xmul_ s) in
  let x := match startingPoint pb with
           | Some sp => sp
           | None => zeros (length x)
           end in
  let f := resize_eigen nf (f_ s) in
  let fstate := resize_std 0%Z nf (fstate_ s) in
  let fmul := resize_eigen nf (fmul_ s) in
  let xnames := push_xnames pb (xnames_ s) in
  let args :=
    {| i_nf := nf; i_n := n; i_nxname := nxname; i_nfname := nfname;
       i_objadd := objadd_; i_objrow := objrow_;
       i_iafun := iafun; i_javar := javar; i_a := a;
       i_lena := lena; i_nea := nea;
       i_igfun := igfun; i_jgvar := jgvar; i_leng := leng; i_neg := neg;
       i_xlow := fst xb; i_xupp := snd xb; i_xnames := xnames;
       i_flow := fst fb; i_fupp := snd fb; i_fnames := fnames;
       i_x := x; i_xstate := xstate; i_xmul := xmul;
       i_f := f; i_fstate := fstate; i_fmul := fmul |} in
  check_sizes args ;;;
  Ok args.

(** [solve] after the solver returned: decoding and the stored result. *)
Definition finish (s : solver_t) (a : nag_in) (o : nag_out)
  (ss : solverState_t) : outcome solver_t :=
  res <- decode (problem s) (i_nf a) (o_x o) (o_f o) (o_fmul o) ;;
  let result :=
    if (o_code o =? NE_NOERROR)%Z then Success res
    else SolverError (o_message o) (Some res) in
  Ok {| problem := problem s; nf_ := i_nf a; n_ := i_n a;
        nxname_ := i_nxname a; nfname_ := i_nfname a;
        iafun_ := i_iafun a; javar_ := i_javar a; a_ := i_a a;
        lena_ := i_lena a; nea_ := i_nea a;
        igfun_ := i_igfun a; jgvar_ := i_jgvar a;
        leng_ := i_leng a; neg_ := i_neg a;
        xlow_ := i_xlow a; xupp_ := i_xupp a; xnames_ := i_xnames a;
        flow_ := i_flow a; fupp_ := i_fupp a; fnames_ := i_fnames a;
        x_ := o_x o; xstate_ := o_xstate o; xmul_ := o_xmul o;
        f_ := o_f o; fstate_ := o_fstate o; fmul_ := o_fmul o;
        callback_ := callback_ s; solverState_ := ss;
        result_ := result |}.

(** [NagSolverNlpSparse::solve] *)
Definition solve (s : solver_t) : outcome solver_t :=
  a <- prepare s ;;
  r <- nag_opt_sparse_nlp_solve a (usrfun (problem s) (callback_ s))
         (solverState_ s) ;;
  finish s a (fst r) (snd r).

End Solve.


(* ------------------------------------------------------------------ *)
(** ** Reading traces; frames of the callback branches                 *)
(* ------------------------------------------------------------------ *)

(** The solver states the monitor was invoked with, in order. *)
Fixpoint monitor_calls (t : list event) : list solverState_t :=
  match t with
  | [] => []
  | EvMonitor st :: t' => st :: monitor_calls t'
  | _ :: t' => monitor_calls t'
  end.

(** Whose Jacobians were evaluated, in order. *)
Fixpoint jacobian_calls (t : list event) : list (option nat) :=
  match t with
  | [] => []
  | EvJacobian who _ :: t' => who :: jacobian_calls t'
  | _ :: t' => jacobian_calls t'
  end.

(** The positions of the linear constraints of a list of numbered
    constraints. *)
Definition linear_positions (l : list (nat * constraint_t)) : list nat :=
  map fst (filter (fun ic => isLinear (snd ic)) l).

(** The offsets of [g] that were stored into, in order. *)
Fixpoint stored_offsets (t : list event) : list nat :=
  match t with
  | [] => []
  | EvStoreG offset _ :: t' => offset :: stored_offsets t'
  | _ :: t' => stored_offsets t'
  end.

(** What the [needf] branch leaves alone: [g], the solver state, and
    in the trace the monitor calls and the stores into [g]. *)
Definition values_frame (mem mem' : memory) : Prop :=
  m_g mem' = m_g mem /\
  m_solverState mem' = m_solverState mem /\
  monitor_calls (m_trace mem') = monitor_calls (m_trace mem) /\
  stored_offsets (m_trace mem') = stored_offsets (m_trace mem).

(** The invariant of the loops of the [needg] branch: [f] and the solver
    state are left alone, the monitor is not called, and the stores into
    [g] went to the offsets [0 .. offset - 1] in this order. *)
Definition gradients_inv (mem : memory) (st : nat * memory) : Prop :=
  m_f (snd st) = m_f mem /\
  m_solverState (snd st) = m_solverState mem /\
  monitor_calls (m_trace (snd st)) = monitor_calls (m_trace mem) /\
  stored_offsets (m_trace (snd st)) =
    stored_offsets (m_trace mem) ++ seq 0 (fst st).

(* ------------------------------------------------------------------ *)
(** ** Concrete problems                                               *)
(* ------------------------------------------------------------------ *)

Definition at0 (x : vector_t) : float := nth 0 x 0%float.

(** The objective [x -> x] of one variable; its Jacobian is [[1]]. *)
Definition identity_objective : function_t :=
  {| getName := "f"; inputSize := 1; outputSize := 1;
     f_value := fun x => [at0 x];
     f_jacobian := Some (fun _ => {| cols := 1; outer := [[(0, 1%float)]] |}) |}.

(** The nonlinear constraint [x -> x * x]; its Jacobian is [[2 x]]. *)
Definition square_constraint : constraint_t :=
  Nonlinear "g" 1 (fun x => [(at0 x * at0 x)%float])
    (fun x => {| cols := 1; outer := [[(0, (2 * at0 x)%float)]] |}).

(** The linear constraint [x -> 5 x + 0.5]. *)
Definition affine_constraint : constraint_t :=
  Linear "h" {| cols := 1; outer := [[(0, 5%float)]] |} [0.5%float].

(** No constraint. *)
Definition problem_free : problem_t :=
  {| function := identity_objective; constraints := [];
     boundsVector := [];
     argumentBounds := [((-10)%float, 10%float)];
     startingPoint := Some [0%float] |}.

(** One nonlinear constraint, bounded by [[2, 4]]; no starting point. *)
Definition problem_nonlinear : problem_t :=
  {| function := identity_objective; constraints := [square_constraint];
     boundsVector := [[(2%float, 4%float)]];
     argumentBounds := [(neg_infinity, infinity)];
     startingPoint := None |}.

(** A nonlinear constraint bounded by [[2, 4]], then a linear one bounded
    by [[1, 1]]. *)
Definition problem_mixed : problem_t :=
  {| function := identity_objective;
     constraints := [square_constraint; affine_constraint];
     boundsVector := [[(2%float, 4%float)]; [(1%float, 1%float)]];
     argumentBounds := [(neg_infinity, infinity)];
     startingPoint := None |}.

(** Arrays of the given sizes, all zero, and an empty trace. *)
Definition fresh_memory (nf leng : nat) : memory :=
  {| m_f := zeros nf; m_g := zeros leng;
     m_solverState := {| ss_x := [] |}; m_trace := [] |}.

(** A monitor that leaves the solver state as it finds it. *)
Definition idle_monitor : callback_t := fun _ st => st.

(** A stand-in for the external solver that calls nothing, leaves every
    array as it received it and reports the given code and message. *)
Definition echo_solver (code : Z) (message : string)
  : nag_in -> usrfun_t -> solverState_t -> outcome (nag_out * solverState_t) :=
  fun a _ ss =>
    Ok ({| o_x := i_x a; o_xstate := i_xstate a; o_xmul := i_xmul a;
           o_f := i_f a; o_fstate := i_fstate a; o_fmul := i_fmul a;
           o_code := code; o_message := message |}, ss).

(* ------------------------------------------------------------------ *)
(** ** The combined row layout                                         *)
(* ------------------------------------------------------------------ *)

(** A combined row: the objective, or output [i] of the constraint at
    position [constraintId] of the constraint list. *)
Inductive row_t : Type :=
| RowObjective
| RowConstraint (constraintId i : nat).

(** The rows of one constraint, in output order. *)
Definition constraint_rows (ic : nat * constraint_t) : list row_t :=
  map (RowConstraint (fst ic)) (seq 0 (c_outputSize (snd ic))).

Definition nonlinear_block (ic : nat * constraint_t) : list row_t :=
  if isLinear (snd ic) then [] else constraint_rows ic.

Definition linear_block (ic : nat * constraint_t) : list row_t :=
  if isLinear (snd ic) then constraint_rows ic else [].

(** The layout of the specification: row 0 is the objective, then the
    blocks of the nonlinear constraints in list order, then the blocks of
    the linear constraints in list order. *)
Definition row_layout (pb : problem_t) : list row_t :=
  RowObjective
    :: flat_map nonlinear_block (enumerate (constraints pb))
    ++ flat_map linear_block (enumerate (constraints pb)).

(** The number of rows of the nonlinear, and of the linear, constraints
    of a list. *)
Definition nonlinear_size (l : list constraint_t) : nat :=
  list_sum (map (fun c => if isLinear c then 0 else c_outputSize c) l).

Definition linear_size (l : list constraint_t) : nat :=
  list_sum (map (fun c => if isLinear c then c_outputSize c else 0) l).

(** The first row of the block of the nonlinear constraint at position
    [id]: one row for the objective, then the nonlinear blocks before. *)
Definition nonlinear_offset (pb : problem_t) (id : nat) : nat :=
  1 + nonlinear_size (firstn id (constraints pb)).

(** The first row of the block of the linear constraint at position [id]:
    the objective, every nonlinear block, then the linear blocks before. *)
Definition linear_offset (pb : problem_t) (id : nat) : nat :=
  1 + nonlinear_size (constraints pb) + linear_size (firstn id (constraints pb)).

(** The position of a row in the layout. *)
Definition row_index (pb : problem_t) (r : row_t) : nat :=
  match r with
  | RowObjective => 0
  | RowConstraint id i =>
      match nth_error (constraints pb) id with
      | Some c =>
          (if isLinear c then linear_offset pb id else nonlinear_offset pb id) + i
      | None => 0
      end
  end.

(** The bound pair the problem declares for output [i] of constraint
    [id]. *)
Definition declared_bound (pb : problem_t) (id i : nat) : interval_t :=
  nth i (nth id (boundsVector pb) []) (0%float, 0%float).

(** The bound pair of a row before the consistency loop: none for the
    objective, the declared pair for a nonlinear constraint, the declared
    pair minus the offset component for a linear one. *)
Definition row_bound (pb : problem_t) (r : row_t) : interval_t :=
  match r with
  | RowObjective => ((- infinity)%float, infinity)
  | RowConstraint id i =>
      let bd := declared_bound pb id i in
      match nth_error (constraints pb) id with
      | Some (Linear _ _ b) =>
          ((fst bd - nth i b 0)%float, (snd bd - nth i b 0)%float)
      | _ => bd
      end
  end.

(** The name of a row. *)
Definition row_name (pb : problem_t) (r : row_t) : string :=
  match r with
  | RowObjective => fmt "cost" (getName (function pb)) 0
  | RowConstraint id i =>
      match nth_error (constraints pb) id with
      | Some c => fmt (if isLinear c then "linear" else "nonlinear") (c_getName c) i
      | None => ""
      end
  end.

(** What the framework guarantees of a problem: every constraint has a
    declared bound pair per output, and the offset of a linear constraint
    has one component per row of its matrix. *)
Definition bounds_declared (pb : problem_t) (ic : nat * constraint_t) : Prop :=
  c_outputSize (snd ic) <= length (nth (fst ic) (boundsVector pb) []) /\
  match snd ic with
  | Linear _ A b => rows A <= length b
  | Nonlinear _ _ _ _ => True
  end.

Definition well_formed (pb : problem_t) : Prop :=
  Forall (bounds_declared pb) (enumerate (constraints pb)).

(* ------------------------------------------------------------------ *)
(** ** The consistency loop, row by row                                *)
(* ------------------------------------------------------------------ *)

(** A bound within the tolerance of zero becomes zero. *)
Definition snap_zero (v : float) : float :=
  if (abs v <? tolerance)%float then 0%float else v.

(** What the consistency loop leaves in a row: both bounds snapped to
    zero, then the lower bound made equal to the upper one when they are
    within the tolerance of each other. *)
Definition snap_pair (r : interval_t) : interval_t :=
  let lo := snap_zero (fst r) in
  let up := snap_zero (snd r) in
  ((if (abs (lo - up) <? tolerance)%float then up else lo), up).

(** [lower <= upper] *)
Definition consistent (r : interval_t) : bool := (fst r <=? snd r)%float.

(** A nonlinear constraint whose declared bounds [1e-7] and [2e-7] are
    within the tolerance of zero. *)
Definition problem_near_zero : problem_t :=
  {| function := identity_objective; constraints := [square_constraint];
     boundsVector := [[(1e-7%float, 2e-7%float)]];
     argumentBounds := [(neg_infinity, infinity)];
     startingPoint := Some [0%float] |}.

(** The decomposition of the flat output of the solver: the point, the
    objective value (row 0 of [f]), the constraint values (the remaining
    [nf - 1] rows of [f]) and the multipliers (the same rows of [fmul]). *)
Definition decomposition (nf : nat) (o : nag_out) (f0 : float) : Result :=
  {| r_x := o_x o;
     r_value := [f0];
     r_constraints := segment 1 (nf - 1) (o_f o);
     r_lambda := segment 1 (nf - 1) (o_fmul o) |}.

(** The rows of the stored coefficients of the linear constraints, in
    the order in which [fill_iafun_javar_lena_nea] visits them. *)
Definition linear_pattern_rows (pb : problem_t) : list row_t :=
  flat_map
    (fun ic =>
       match snd ic with
       | Linear _ A _ =>
           map (fun it => RowConstraint (fst ic) (e_row it)) (entries A)
       | Nonlinear _ _ _ _ => []
       end)
    (enumerate (constraints pb)).

(** The point at which the pattern builder evaluates the Jacobian of the
    constraint at position [id] (when [lookForX (id)] returns). *)
Definition pattern_point (pb : problem_t) (n : nat) (id : nat) : vector_t :=
  match lookForX_constraint pb n id with
  | Ok x => x
  | _ => []
  end.

(** The rows of the stored coefficients of the objective Jacobian and of
    the Jacobians of the nonlinear constraints, in the order in which
    [fill_igfun_jgvar_leng_neg] visits them. *)
Definition nonlinear_pattern_rows (pb : problem_t) (n : nat) : list row_t :=
  match f_jacobian (function pb) with
  | Some jacobian =>
      map (fun _ => RowObjective) (entries (jacobian (lookForX pb n)))
  | None => []
  end ++
  flat_map
    (fun ic =>
       match snd ic with
       | Linear _ _ _ => []
       | Nonlinear _ _ _ jacobian =>
           map (fun it => RowConstraint (fst ic) (e_row it))
             (entries (jacobian (pattern_point pb n (fst ic))))
       end)
    (enumerate (constraints pb)).

(** What the framework guarantees of Jacobians: as many rows as the
    function has outputs. *)
Definition jacobian_rows (pb : problem_t) : Prop :=
  (forall jacobian x,
      f_jacobian (function pb) = Some jacobian ->
      rows (jacobian x) = outputSize (function pb)) /\
  Forall (fun c => forall x, rows (c_jacobian c x) = c_outputSize c)
    (constraints pb).

(** What the [needf] branch must leave in a row of [f]: the objective
    value in row 0, output [i] of a nonlinear constraint in its row, and
    what was there before in the row of a linear constraint. *)
Definition row_value (pb : problem_t) (x : vector_t) (old : vector_t)
  (r : row_t) : option float :=
  match r with
  | RowObjective => nth_error (f_value (function pb) x) 0
  | RowConstraint id i =>
      match nth_error (constraints pb) id with
      | Some (Nonlinear _ _ value _) => nth_error (value x) i
      | _ => nth_error old (row_index pb r)
      end
  end.

(** The invariant of the first constraint loop of the [needf] branch,
    after the constraints [pre] of the list [cs], on the state
    [(offset, mem)] when the array was [old] before the call. *)
Definition values_inv (pb : problem_t) (x : vector_t) (old : vector_t)
  (pre : list constraint_t) (st : nat * memory) : Prop :=
  fst st = 1 + nonlinear_size pre /\
  (forall k, fst st <= k -> nth_error (m_f (snd st)) k = nth_error old k) /\
  nth_error (m_f (snd st)) 0 = nth_error (f_value (function pb) x) 0 /\
  (forall id nm m value jacobian i,
      id < length pre ->
      nth_error (constraints pb) id = Some (Nonlinear nm m value jacobian) ->
      i < m ->
      nth_error (m_f (snd st)) (nonlinear_offset pb id + i)
        = nth_error (value x) i).

(* ------------------------------------------------------------------ *)
(** ** The Jacobian branch: what it stores                             *)
(* ------------------------------------------------------------------ *)

(** The stored coefficients the [needg] branch of [usrfun] walks, in its
    order: those of the objective Jacobian, then those of the Jacobian of
    every constraint its guard lets through. *)
Definition gradient_entries (pb : problem_t) (x_ : vector_t) : list entry :=
  match f_jacobian (function pb) with
  | Some jacobian => entries (jacobian x_)
  | None => []
  end ++
  flat_map
    (fun cstr =>
       if negb (isLinear cstr) then [] else entries (c_jacobian cstr x_))
    (constraints pb).

(* ------------------------------------------------------------------ *)
(** ** Exceptions; a registered monitor                                *)
(* ------------------------------------------------------------------ *)

(** A computation that does not end with an exception. *)
Definition no_throw {A : Type} (m : outcome A) : Prop :=
  forall w, m <> Throw w.




(** The objective [x -> x] without Jacobian: a function that is not a
    differentiable function. *)
Definition plain_objective : function_t :=
  {| getName := "f"; inputSize := 1; outputSize := 1;
     f_value := fun x => [at0 x];
     f_jacobian := None |}.

Definition problem_plain : problem_t :=
  {| function := plain_objective; constraints := [];
     boundsVector := [];
     argumentBounds := [((-10)%float, 10%float)];
     startingPoint := Some [0%float] |}.

(* ------------------------------------------------------------------ *)
(** ** Coordinate lists                                                *)
(* ------------------------------------------------------------------ *)

(** The stored coefficients of the linear constraints, in list order and
    within a constraint in traversal order. *)
Definition linear_entries (pb : problem_t) : list entry :=
  flat_map
    (fun c =>
       match c with
       | Linear _ A _ => entries A
       | Nonlinear _ _ _ _ => []
       end)
    (constraints pb).

(** The stored coefficients of the objective Jacobian and of the
    Jacobians of the nonlinear constraints, each at the point where the
    pattern builder evaluates it. *)
Definition nonlinear_entries (pb : problem_t) (n : nat) : list entry :=
  match f_jacobian (function pb) with
  | Some jacobian => entries (jacobian (lookForX pb n))
  | None => []
  end ++
  flat_map
    (fun ic =>
       match snd ic with
       | Linear _ _ _ => []
       | Nonlinear _ _ _ jacobian =>
           entries (jacobian (pattern_point pb n (fst ic)))
       end)
    (enumerate (constraints pb)).

(** When the problem has no starting point, [lookForX (constraintId)]
    reads one declared bound pair of the constraint per variable: every
    nonlinear constraint must declare at least [n] of them. *)
Definition pattern_points_defined (pb : problem_t) (n : nat) : Prop :=
  match startingPoint pb with
  | Some _ => True
  | None =>
      Forall
        (fun ic =>
           isLinear (snd ic) = false ->
           n <= length (nth (fst ic) (boundsVector pb) []))
        (enumerate (constraints pb))
  end.

(* ------------------------------------------------------------------ *)
(** ** More concrete problems                                          *)
(* ------------------------------------------------------------------ *)

(** A nonlinear constraint whose declared bounds are inverted. *)
Definition problem_inverted : problem_t :=
  {| function := identity_objective; constraints := [square_constraint];
     boundsVector := [[(4%float, 2%float)]];
     argumentBounds := [(neg_infinity, infinity)];
     startingPoint := Some [0%float] |}.

(* ================================================================== *)
(** * Properties                                                       *)
(* ================================================================== *)

(* ------------------------------------------------------------------ *)
(** ** Outcomes and loops                                              *)
(* ------------------------------------------------------------------ *)

Lemma bind_Ok {A B : Type} (m : outcome A) (k : A -> outcome B) (b : B) :
  bind m k = Ok b -> exists a, m = Ok a /\ k a = Ok b.
Proof.
  destruct m as [a | w | w]; simpl; intros H; try discriminate.
  exists a; split; [reflexivity | exact H].
Qed.

Lemma assert_Ok (b : bool) (what : string) (u : unit) :
  assert b what = Ok u -> b = true.
Proof. destruct b; simpl; [reflexivity | discriminate]. Qed.

Ltac inv_bind H :=
  let a := fresh "a" in
  let Ha := fresh "Ha" in
  apply bind_Ok in H; destruct H as [a [Ha H]].

(** A property kept by every returning iteration is kept by the loop. *)
Lemma for_each_invariant {A S : Type} (P : S -> Prop)
  (body : A -> S -> outcome S) (l : list A) :
  (forall a s s', In a l -> P s -> body a s = Ok s' -> P s') ->
  forall s s', P s -> for_each l body s = Ok s' -> P s'.
Proof.
  induction l as [| a l IH]; simpl; intros Hbody s s' Hs Hrun.
  - injection Hrun as <-. exact Hs.
  - inv_bind Hrun.
    apply (IH (fun b t t' Hb => Hbody b t t' (or_intror Hb)) a0 s'); [| exact Hrun].
    apply (Hbody a s a0); [left; reflexivity | exact Hs | exact Ha].
Qed.

(** Two loop bodies that agree on the elements of the list give the same
    loop. *)
Lemma for_each_ext {A S : Type} (body body' : A -> S -> outcome S)
  (l : list A) :
  (forall a s, In a l -> body a s = body' a s) ->
  forall s, for_each l body s = for_each l body' s.
Proof.
  induction l as [| a l IH]; simpl; intros Hext s; [reflexivity |].
  rewrite (Hext a s (or_introl eq_refl)).
  destruct (body' a s) as [s' | w | w]; simpl; try reflexivity.
  apply IH. intros b t Hb. apply Hext. right; exact Hb.
Qed.

Lemma for_each_app {A S : Type} (body : A -> S -> outcome S) (l1 l2 : list A)
  (s : S) :
  for_each (l1 ++ l2) body s = (s' <- for_each l1 body s ;; for_each l2 body s').
Proof.
  revert s; induction l1 as [| a l1 IH]; simpl; intros s; [reflexivity |].
  destruct (body a s) as [s' | w | w]; simpl; [apply IH | reflexivity ..].
Qed.

(* ------------------------------------------------------------------ *)
(** ** What a trace shows                                              *)
(* ------------------------------------------------------------------ *)

Lemma monitor_calls_app (t1 t2 : list event) :
  monitor_calls (t1 ++ t2) = monitor_calls t1 ++ monitor_calls t2.
Proof.
  induction t1 as [| e t1 IH]; simpl; [reflexivity |].
  destruct e; simpl; rewrite IH; reflexivity.
Qed.

Lemma stored_offsets_app (t1 t2 : list event) :
  stored_offsets (t1 ++ t2) = stored_offsets t1 ++ stored_offsets t2.
Proof.
  induction t1 as [| e t1 IH]; simpl; [reflexivity |].
  destruct e; simpl; rewrite IH; reflexivity.
Qed.

(* ------------------------------------------------------------------ *)
(** ** The two branches of the callback                                *)
(* ------------------------------------------------------------------ *)

Lemma values_frame_with_f (mem mem' : memory) (fv : vector_t)
  (who : option nat) (x : vector_t) :
  values_frame mem mem' -> values_frame mem (with_f fv (EvValue who x) mem').
Proof.
  intros (Hg & Hs & Hm & Ho). unfold values_frame, with_f; simpl.
  rewrite monitor_calls_app, stored_offsets_app; simpl.
  rewrite !app_nil_r. auto.
Qed.

Lemma usrfun_values_frame (pb : problem_t) (x_ : vector_t) (nf : nat)
  (mem mem' : memory) :
  usrfun_values pb x_ nf mem = Ok mem' -> values_frame mem mem'.
Proof.
  unfold usrfun_values. intros H.
  inv_bind H. inv_bind H. destruct a0 as [offset mem1].
  inv_bind H. injection H as <-.
  change (values_frame mem (snd (offset, mem1))).
  eapply (for_each_invariant (fun st => values_frame mem (snd st)));
    [ | | exact Ha0].
  - intros [id c] [o m] [o' m'] _ Hst Hbody. simpl in *.
    destruct c as [nm A b | nm k value jac].
    + injection Hbody as _ <-. exact Hst.
    + inv_bind Hbody. injection Hbody as _ <-.
      apply values_frame_with_f. exact Hst.
  - simpl. apply values_frame_with_f. repeat split.
Qed.

Lemma gradients_inv_log (mem : memory) (offset : nat) (mem' : memory)
  (who : option nat) (x : vector_t) :
  gradients_inv mem (offset, mem') ->
  gradients_inv mem (offset, log (EvJacobian who x) mem').
Proof.
  intros (Hf & Hs & Hm & Ho). unfold gradients_inv, log; simpl in *.
  rewrite monitor_calls_app, stored_offsets_app; simpl.
  rewrite !app_nil_r. auto.
Qed.

Lemma store_g_inv (mem : memory) (leng : nat) (it : entry)
  (st st' : nat * memory) :
  gradients_inv mem st -> store_g leng it st = Ok st' -> gradients_inv mem st'.
Proof.
  destruct st as [offset m]. intros (Hf & Hs & Hm & Ho) H.
  unfold store_g in H. destruct (offset <? leng); [| discriminate].
  inv_bind H. injection H as <-.
  unfold gradients_inv, with_g in *.
  cbn [fst snd m_f m_g m_solverState m_trace] in *.
  rewrite monitor_calls_app, stored_offsets_app, seq_S, Ho, app_assoc.
  cbn [monitor_calls stored_offsets]. rewrite app_nil_r.
  repeat split; assumption || reflexivity.
Qed.

Lemma store_jacobian_inv (mem : memory) (leng : nat) (j : matrix_t)
  (st st' : nat * memory) :
  gradients_inv mem st -> store_jacobian leng j st = Ok st' ->
  gradients_inv mem st'.
Proof.
  unfold store_jacobian. intros Hst H.
  eapply (for_each_invariant (gradients_inv mem)); [ | exact Hst | exact H].
  intros it s s' _ Hs Hb. exact (store_g_inv _ _ Hs Hb).
Qed.

Lemma usrfun_gradient_loops_inv (pb : problem_t) (x_ : vector_t) (leng : nat)
  (mem : memory) (st : nat * memory) :
  usrfun_gradient_loops pb x_ leng mem = Ok st -> gradients_inv mem st.
Proof.
  unfold usrfun_gradient_loops.
  destruct (f_jacobian (function pb)) as [jacobian |]; [| discriminate].
  intros H. inv_bind H.
  assert (Hobj : gradients_inv mem a).
  { apply (store_jacobian_inv (mem := mem)) in Ha; [exact Ha |].
    apply gradients_inv_log. unfold gradients_inv; simpl.
    rewrite app_nil_r. auto. }
  eapply (for_each_invariant (gradients_inv mem)); [ | exact Hobj | exact H].
  intros [id c] [o m] s' _ Hs Hbody. unfold gradients_constraint in Hbody.
  destruct (negb (isLinear c)).
  - injection Hbody as <-. exact Hs.
  - apply (store_jacobian_inv (mem := mem)) in Hbody; [exact Hbody |].
    apply gradients_inv_log. exact Hs.
Qed.

Lemma usrfun_gradients_stores (pb : problem_t) (x_ : vector_t) (leng : nat)
  (mem mem' : memory) :
  usrfun_gradients pb x_ leng mem = Ok mem' ->
  gradients_inv mem (leng, mem').
Proof.
  unfold usrfun_gradients. intros H.
  inv_bind H. destruct a as [offset m]. inv_bind H. injection H as <-.
  apply assert_Ok in Ha0. apply Nat.eqb_eq in Ha0. subst offset.
  apply usrfun_gradient_loops_inv with (1 := Ha).
Qed.

(* ------------------------------------------------------------------ *)
(** ** Exceptions                                                      *)
(* ------------------------------------------------------------------ *)

Lemma no_throw_Ok {A : Type} (a : A) : no_throw (Ok a).
Proof. intros w H. discriminate. Qed.

Lemma no_throw_AssertFail {A : Type} (what : string) :
  no_throw (@AssertFail A what).
Proof. intros w H. discriminate. Qed.

Lemma no_throw_assert (b : bool) (what : string) : no_throw (assert b what).
Proof. intros w H. destruct b; discriminate. Qed.

Lemma no_throw_bind {A B : Type} (m : outcome A) (k : A -> outcome B) :
  no_throw m -> (forall a, m = Ok a -> no_throw (k a)) -> no_throw (bind m k).
Proof.
  intros Hm Hk w H. destruct m as [a | v | v]; simpl in H.
  - exact (Hk a eq_refl w H).
  - discriminate.
  - exact (Hm v eq_refl).
Qed.

Lemma no_throw_for_each {A S : Type} (body : A -> S -> outcome S)
  (l : list A) :
  (forall a s, In a l -> no_throw (body a s)) ->
  forall s, no_throw (for_each l body s).
Proof.
  induction l as [| a l IH]; simpl; intros Hbody s.
  - apply no_throw_Ok.
  - apply no_throw_bind; [apply Hbody; left; reflexivity |].
    intros s' _. apply IH. intros b t Hb. apply Hbody. right; exact Hb.
Qed.

Lemma no_throw_set_at {A : Type} (i : nat) (v : A) (l : list A) :
  no_throw (set_at i v l).
Proof. intros w H. unfold set_at in H. destruct (i <? length l); discriminate. Qed.

Lemma no_throw_get_at {A : Type} (i : nat) (l : list A) :
  no_throw (get_at i l).
Proof. intros w H. unfold get_at in H. destruct (nth_error l i); discriminate. Qed.

Lemma no_throw_set_segment {A : Type} (off len : nat) (vals l : list A) :
  no_throw (set_segment off len vals l).
Proof.
  intros w H. unfold set_segment in H.
  destruct ((off + len <=? length l) && (length vals =? len)); discriminate.
Qed.

Lemma no_throw_get_segment {A : Type} (off len : nat) (l : list A) :
  no_throw (get_segment off len l).
Proof.
  intros w H. unfold get_segment in H.
  destruct (off + len <=? length l); discriminate.
Qed.

(** One step of a proof that a computation built from assertions, checked
    accesses and loops raises no exception. *)
Ltac no_throw_step :=
  match goal with
  | |- no_throw (Ok _) => apply no_throw_Ok
  | |- no_throw (AssertFail _) => apply no_throw_AssertFail
  | |- no_throw (assert _ _) => apply no_throw_assert
  | |- no_throw (set_at _ _ _) => apply no_throw_set_at
  | |- no_throw (get_at _ _) => apply no_throw_get_at
  | |- no_throw (set_segment _ _ _ _) => apply no_throw_set_segment
  | |- no_throw (get_segment _ _ _) => apply no_throw_get_segment
  | |- no_throw (bind _ _) => apply no_throw_bind; [| intros ? _]
  | |- no_throw (for_each _ _ _) => apply no_throw_for_each; intros ? ? _
  | |- no_throw (if ?b then _ else _) => destruct b
  | |- no_throw (match ?x with _ => _ end) => destruct x
  end.

Ltac no_throw_auto := repeat no_throw_step.

Lemma no_throw_store_jacobian (leng : nat) (j : matrix_t)
  (st : nat * memory) : no_throw (store_jacobian leng j st).
Proof. unfold store_jacobian, store_g. no_throw_auto. Qed.

(** With a differentiable objective, the loops of the Jacobian branch
    raise no exception. *)
Lemma no_throw_gradient_loops (pb : problem_t) (x_ : vector_t) (leng : nat)
  (mem : memory) (jacobian : vector_t -> matrix_t) :
  f_jacobian (function pb) = Some jacobian ->
  no_throw (usrfun_gradient_loops pb x_ leng mem).
Proof.
  intros Hj. unfold usrfun_gradient_loops. rewrite Hj.
  apply no_throw_bind; [apply no_throw_store_jacobian |]. intros st _.
  apply no_throw_for_each. intros [id c] st' _. unfold gradients_constraint.
  destruct (negb (isLinear c)); [apply no_throw_Ok |].
  destruct st'. apply no_throw_store_jacobian.
Qed.

(** The value branch raises no exception. *)
Lemma no_throw_values (pb : problem_t) (x_ : vector_t) (nf : nat)
  (mem : memory) : no_throw (usrfun_values pb x_ nf mem).
Proof.
  unfold usrfun_values, values_nonlinear, map_set_segment. no_throw_auto.
Qed.

(* ------------------------------------------------------------------ *)
(** ** The Jacobian branch: the content of [g]                         *)
(* ------------------------------------------------------------------ *)

Lemma set_at_app {A : Type} (p : list A) (x v : A) (r : list A) :
  set_at (length p) v (p ++ x :: r) = Ok (p ++ v :: r).
Proof.
  unfold set_at. rewrite length_app. cbn [length].
  destruct (Nat.ltb_spec (length p) (length p + S (length r))) as [_ | H]; [| lia].
  f_equal. induction p as [| a p IH]; simpl; [reflexivity | now rewrite IH].
Qed.

Lemma set_at_app_at {A : Type} (i : nat) (p : list A) (x v : A) (r : list A) :
  length p = i -> set_at i v (p ++ x :: r) = Ok (p ++ v :: r).
Proof. intros <-. apply set_at_app. Qed.

(** One store: the element of [g] at the offset is replaced. *)
Lemma store_g_content (leng : nat) (it : entry) (o o' : nat)
  (m m' : memory) (P R : vector_t) :
  store_g leng it (o, m) = Ok (o', m') ->
  m_g m = P ++ R -> length P = o ->
  exists old R',
    R = old :: R' /\ m_g m' = P ++ e_value it :: R' /\ o' = S o /\ o < leng.
Proof.
  unfold store_g. intros H Hg HP.
  destruct (Nat.ltb_spec o leng) as [Hlt | _]; [| discriminate].
  inv_bind H. injection H as <- <-. rewrite Hg in Ha.
  destruct R as [| old R'].
  - unfold set_at in Ha. rewrite app_nil_r, HP, Nat.ltb_irrefl in Ha.
    discriminate.
  - rewrite (set_at_app_at P old (e_value it) R' HP) in Ha.
    injection Ha as <-. exists old, R'. repeat split. exact Hlt.
Qed.

(** The stores of a list of stored coefficients: as many elements of [g]
    are replaced, from the offset on, by their values. *)
Lemma store_entries_content (leng : nat) (es : list entry) :
  forall (o o' : nat) (m m' : memory) (P R : vector_t),
    for_each es (store_g leng) (o, m) = Ok (o', m') ->
    m_g m = P ++ R -> length P = o -> o <= leng ->
    exists old R',
      R = old ++ R' /\ length old = length es /\
      m_g m' = P ++ map e_value es ++ R' /\
      o' = o + length es /\ o' <= leng.
Proof.
  induction es as [| it es IH]; intros o o' m m' P R H Hg HP Hle.
  - simpl in H. injection H as <- <-. exists [], R.
    simpl. rewrite Nat.add_0_r. repeat split; assumption.
  - cbn [for_each] in H. inv_bind H. destruct a as [o1 m1].
    destruct (@store_g_content _ _ _ _ _ _ _ _ Ha Hg HP) as (old & R1 & -> & Hg1 & -> & Hlt).
    replace (P ++ e_value it :: R1) with ((P ++ [e_value it]) ++ R1) in Hg1
      by now rewrite <- app_assoc.
    destruct (IH _ _ _ _ _ _ H Hg1) as (olds & R' & -> & Hlen & Hg' & -> & Hle');
      [rewrite length_app; simpl; lia | lia |].
    exists (old :: olds), R'. cbn [map length app].
    rewrite Hg', <- app_assoc. cbn [app].
    repeat split; lia.
Qed.

(** The constraint loop of the Jacobian branch. *)
Lemma gradients_constraints_content (x_ : vector_t) (leng : nat)
  (l : list (nat * constraint_t)) :
  forall (o o' : nat) (m m' : memory) (P R : vector_t),
    for_each l (gradients_constraint x_ leng) (o, m) = Ok (o', m') ->
    m_g m = P ++ R -> length P = o -> o <= leng ->
    let E := flat_map
               (fun cstr =>
                  if negb (isLinear cstr) then []
                  else entries (c_jacobian cstr x_))
               (map snd l) in
    exists old R',
      R = old ++ R' /\ length old = length E /\
      m_g m' = P ++ map e_value E ++ R' /\
      o' = o + length E /\ o' <= leng.
Proof.
  induction l as [| [id c] l IH]; intros o o' m m' P R H Hg HP Hle; cbn zeta.
  - simpl in H. injection H as <- <-. exists [], R.
    simpl. rewrite Nat.add_0_r. repeat split; assumption.
  - cbn [for_each] in H. inv_bind H. destruct a as [o1 m1].
    cbn [map snd flat_map]. unfold gradients_constraint in Ha.
    destruct (negb (isLinear c)).
    + injection Ha as <- <-. cbn [app].
      exact (IH _ _ _ _ _ _ H Hg HP Hle).
    + unfold store_jacobian in Ha.
      destruct (@store_entries_content _ _ _ _ _ _ _ _ Ha Hg HP Hle)
        as (old1 & R1 & -> & Hlen1 & Hg1 & -> & Hle1).
      rewrite app_assoc in Hg1.
      destruct (IH _ _ _ _ _ _ H Hg1) as (old2 & R' & -> & Hlen2 & Hg' & -> & Hle');
        [rewrite !length_app, length_map; lia | exact Hle1 |].
      cbn zeta in Hlen2, Hg', Hle' |- *.
      exists (old1 ++ old2), R'.
      rewrite Hg', map_app, !length_app, <- !app_assoc.
      repeat split; lia.
Qed.

Lemma map_snd_enumerate_from {A : Type} (l : list A) :
  forall i, map snd (enumerate_from i l) = l.
Proof.
  induction l as [| a l IH]; intros i; simpl; [reflexivity |].
  now rewrite IH.
Qed.

(** The two loops of the Jacobian branch: when they return, they have
    replaced the first elements of [g], as many as [gradient_entries]
    has, by the values of these coefficients, and the offset is their
    number. *)
Lemma usrfun_gradient_loops_content (pb : problem_t) (x_ : vector_t)
  (leng o' : nat) (mem m' : memory) :
  usrfun_gradient_loops pb x_ leng mem = Ok (o', m') ->
  exists old R',
    m_g mem = old ++ R' /\
    length old = length (gradient_entries pb x_) /\
    m_g m' = map e_value (gradient_entries pb x_) ++ R' /\
    o' = length (gradient_entries pb x_) /\ o' <= leng.
Proof.
  unfold usrfun_gradient_loops, gradient_entries.
  destruct (f_jacobian (function pb)) as [jacobian |]; [| discriminate].
  intros H. inv_bind H. destruct a as [o1 m1].
  unfold store_jacobian in Ha.
  destruct (@store_entries_content leng (entries (jacobian x_)) 0 o1
              (log (EvJacobian None x_) mem) m1 [] (m_g mem) Ha eq_refl eq_refl
              (Nat.le_0_l leng))
    as (old1 & R1 & HR & Hlen1 & Hg1 & -> & Hle1).
  cbn [app] in Hg1.
  destruct (@gradients_constraints_content x_ leng (enumerate (constraints pb))
              _ _ _ _ (map e_value (entries (jacobian x_))) R1 H Hg1)
    as (old2 & R' & -> & Hlen2 & Hg' & -> & Hle');
    [rewrite length_map; reflexivity | exact Hle1 |].
  cbn zeta in Hlen2, Hg', Hle' |- *.
  unfold enumerate in *. rewrite map_snd_enumerate_from in *.
  exists (old1 ++ old2), R'.
  rewrite HR, Hg', map_app, !length_app, <- !app_assoc.
  cbn [Nat.add] in *. repeat split; lia.
Qed.

(* ------------------------------------------------------------------ *)
(** ** The callback: terminal call, monitor, entry count               *)
(* ------------------------------------------------------------------ *)

(** C9. A call of the evaluation callback that carries the terminal
    signal ([status >= 2]) returns at once and leaves the whole memory as
    it was: nothing is stored into the value array [f] or the Jacobian
    array [g], the solver state is not updated, and the trace gains no
    event, so that no function or Jacobian was evaluated and no monitor
    was invoked. *)
Theorem usrfun_terminal_is_noop (pb : problem_t)
  (callback : option callback_t) (status : Z) (n : nat) (x : vector_t)
  (needf : Z) (nf : nat) (needg : Z) (leng : nat) (mem : memory) :
  (2 <= status)%Z ->
  usrfun pb callback status n x needf nf needg leng mem = Ok mem.
Proof.
  intros Hstatus. unfold usrfun.
  destruct (Z.geb_spec status 2) as [_ | Hlt]; [reflexivity | lia].
Qed.

Lemma usrfun_terminal_is_noop_witness :
  (2 <= 2)%Z /\
  usrfun problem_mixed (Some idle_monitor) 2 1 [7%float] 1 3 1 2
    (fresh_memory 3 2) = Ok (fresh_memory 3 2).
Proof.
  split; [lia |].
  apply (@usrfun_terminal_is_noop problem_mixed (Some idle_monitor) 2 1
           [7%float] 1 3 1 2 (fresh_memory 3 2)).
  lia.
Defined.

(** The shape of a non-terminal call. *)
Lemma usrfun_nonterminal (pb : problem_t) (callback : option callback_t)
  (status : Z) (n : nat) (x : vector_t) (needf : Z) (nf : nat) (needg : Z)
  (leng : nat) (mem : memory) :
  (status < 2)%Z ->
  usrfun pb callback status n x needf nf needg leng mem =
    (mem1 <- (if (needf >? 0)%Z then usrfun_values pb (firstn n x) nf mem
              else Ok mem) ;;
     mem2 <- (if (needg >? 0)%Z then usrfun_gradients pb (firstn n x) leng mem1
              else Ok mem1) ;;
     Ok (usrfun_monitor pb callback (firstn n x) mem2)).
Proof.
  intros Hstatus. unfold usrfun.
  destruct (Z.geb_spec status 2) as [Hge | _]; [lia | reflexivity].
Qed.




(** C6. In a non-terminal call with the Jacobian flag set:
    - a call that returns has written exactly [leng] Jacobian entries:
      the stored coefficients the branch walks are [leng] in number,
      their values fill the first [leng] elements of [g] in this order,
      the rest of [g] is as it was, and the stores went to the offsets
      [0, 1, ..., leng - 1] in this order;
    - when the two loops of the branch end at an offset other than
      [leng], having stored that many entries, the call does not return:
      [assert (offset == leng)] fails;
    - whenever the number of these coefficients is not [leng], the call
      ends in a failed assertion (the one that ends the branch, or the
      range check of a store): it neither returns nor throws. *)
Theorem usrfun_stores_leng_entries (pb : problem_t)
  (callback : option callback_t) (status : Z) (n : nat) (x : vector_t)
  (needf : Z) (nf : nat) (needg : Z) (leng : nat) (mem : memory) :
  (status < 2)%Z -> (0 < needg)%Z ->
  (forall mem',
      usrfun pb callback status n x needf nf needg leng mem = Ok mem' ->
      length (gradient_entries pb (firstn n x)) = leng /\
      m_g mem' =
        map e_value (gradient_entries pb (firstn n x))
        ++ skipn leng (m_g mem) /\
      stored_offsets (m_trace mem') =
        stored_offsets (m_trace mem) ++ seq 0 leng) /\
  (forall mem1 offset mem2,
      (if (needf >? 0)%Z then usrfun_values pb (firstn n x) nf mem
       else Ok mem) = Ok mem1 ->
      usrfun_gradient_loops pb (firstn n x) leng mem1 = Ok (offset, mem2) ->
      stored_offsets (m_trace mem2) =
        stored_offsets (m_trace mem) ++ seq 0 offset /\
      (offset <> leng ->
       usrfun pb callback status n x needf nf needg leng mem =
         AssertFail "offset == leng")) /\
  (forall mem1 jacobian,
      (if (needf >? 0)%Z then usrfun_values pb (firstn n x) nf mem
       else Ok mem) = Ok mem1 ->
      f_jacobian (function pb) = Some jacobian ->
      length (gradient_entries pb (firstn n x)) <> leng ->
      exists what,
        usrfun pb callback status n x needf nf needg leng mem =
          AssertFail what).
Proof.
  intros Hstatus Hneedg. rewrite usrfun_nonterminal by exact Hstatus.
  destruct (Z.gtb_spec needg 0) as [_ | Hle]; [| lia].
  assert (Hvalues : forall mem1,
             (if (needf >? 0)%Z then usrfun_values pb (firstn n x) nf mem
              else Ok mem) = Ok mem1 ->
             stored_offsets (m_trace mem1) = stored_offsets (m_trace mem) /\
             m_g mem1 = m_g mem).
  { intros mem1 H1. destruct (needf >? 0)%Z.
    - apply usrfun_values_frame in H1. split; apply H1.
    - injection H1 as <-. split; reflexivity. }
  split; [| split].
  - intros mem' H. inv_bind H. inv_bind H. injection H as <-.
    destruct (Hvalues _ Ha) as [Htrace Hg].
    pose proof (usrfun_gradients_stores _ _ _ _ Ha0) as (_ & _ & _ & Ho).
    cbn [fst snd] in Ho.
    unfold usrfun_gradients in Ha0. inv_bind Ha0. destruct a1 as [offset m2].
    inv_bind Ha0. injection Ha0 as <-.
    apply assert_Ok in Ha2. apply Nat.eqb_eq in Ha2. subst offset.
    destruct (usrfun_gradient_loops_content _ _ _ _ Ha1)
      as (old & R' & Hold & Hlen & Hg' & Hcount & _).
    assert (Hmon : m_g (usrfun_monitor pb callback (firstn n x) m2) = m_g m2)
      by (unfold usrfun_monitor; destruct callback; reflexivity).
    split; [symmetry; exact Hcount |]. split.
    + rewrite Hmon, Hg', <- Hg, Hold. f_equal.
      rewrite skipn_app, skipn_all2 by lia.
      replace (leng - length old) with 0 by lia. reflexivity.
    + unfold usrfun_monitor.
      destruct callback as [cb |]; cbn [m_trace].
      * rewrite stored_offsets_app, Ho, Htrace. cbn [stored_offsets].
        apply app_nil_r.
      * rewrite Ho, Htrace. reflexivity.
  - intros mem1 offset mem2 H1 H2.
    pose proof (usrfun_gradient_loops_inv _ _ _ _ H2) as (_ & _ & _ & Ho).
    cbn [fst snd] in Ho. rewrite (proj1 (Hvalues _ H1)) in Ho.
    split; [exact Ho |]. intros Hneq.
    rewrite H1. cbn [bind]. unfold usrfun_gradients. rewrite H2. cbn [bind].
    destruct (Nat.eqb_spec offset leng) as [Heq | _]; [contradiction |].
    reflexivity.
  - intros mem1 jacobian H1 Hj Hneq. rewrite H1. cbn [bind].
    unfold usrfun_gradients.
    destruct (usrfun_gradient_loops pb (firstn n x) leng mem1)
      as [[offset mem2] | what | what] eqn:Hloops; cbn [bind].
    + destruct (usrfun_gradient_loops_content _ _ _ _ Hloops)
        as (_ & _ & _ & _ & _ & Hcount & _).
      destruct (Nat.eqb_spec offset leng) as [Heq | _]; [lia |].
      eexists. reflexivity.
    + eexists. reflexivity.
    + exfalso. exact (@no_throw_gradient_loops pb (firstn n x) leng mem1
                        jacobian Hj what Hloops).
Qed.

Lemma usrfun_stores_leng_entries_witness :
  (0 < 2)%Z /\ (0 < 1)%Z /\
  exists mem',
    usrfun problem_mixed None 0 1 [7%float] 0 3 1 2 (fresh_memory 3 2)
      = Ok mem' /\
    length (gradient_entries problem_mixed (firstn 1 [7%float])) = 2 /\
    m_g mem' =
      map e_value (gradient_entries problem_mixed (firstn 1 [7%float]))
      ++ skipn 2 (m_g (fresh_memory 3 2)) /\
    stored_offsets (m_trace mem') =
      stored_offsets (m_trace (fresh_memory 3 2)) ++ seq 0 2.
Proof.
  split; [lia |]. split; [lia |].
  eexists. split; [vm_compute; reflexivity |].
  apply (proj1 (@usrfun_stores_leng_entries problem_mixed None 0 1
                  [7%float] 0 3 1 2 (fresh_memory 3 2)
                  ltac:(lia) ltac:(lia))).
  vm_compute. reflexivity.
Defined.

(* ------------------------------------------------------------------ *)
(** ** The Jacobian branch against the pattern                         *)
(* ------------------------------------------------------------------ *)

(** C1. The claim is that the Jacobian branch of the callback evaluates
    the objective Jacobian and the Jacobian of each nonlinear constraint,
    and of no linear one, in the order of the pattern.  The code does the
    opposite for constraints: its loop skips the constraints that are not
    linear.  With one nonlinear constraint the pattern has two entries
    and the call stores one, so that [assert (offset == leng)] fails;
    with a nonlinear and a linear constraint the pattern [(1,1); (2,1)]
    is that of the objective and of the nonlinear constraint, and the
    call returns after storing, in the slot of the nonlinear constraint,
    the coefficient [5] of the linear one (the derivative of [x * x] at
    [7] is [14]); the only constraint Jacobian evaluated is that of the
    linear constraint, at position [1]. *)
Theorem usrfun_jacobian_takes_linear_constraints :
  fill_igfun_jgvar_leng_neg problem_nonlinear 1 = Ok ([1; 2], [1; 1], 2, 2) /\
  usrfun problem_nonlinear None 0 1 [7%float] 0 2 1 2 (fresh_memory 2 2)
    = AssertFail "offset == leng" /\
  fill_igfun_jgvar_leng_neg problem_mixed 1 = Ok ([1; 2], [1; 1], 2, 2) /\
  usrfun problem_mixed None 0 1 [7%float] 0 3 1 2 (fresh_memory 3 2)
    = Ok {| m_f := zeros 3;
            m_g := [1%float; 5%float];
            m_solverState := {| ss_x := [] |};
            m_trace := [EvJacobian None [7%float]; EvStoreG 0 1%float;
                        EvJacobian (Some 1) [7%float]; EvStoreG 1 5%float] |}.
Proof. repeat split; vm_compute; reflexivity. Qed.

Lemma jacobian_calls_app (t1 t2 : list event) :
  jacobian_calls (t1 ++ t2) = jacobian_calls t1 ++ jacobian_calls t2.
Proof.
  induction t1 as [| e t1 IH]; simpl; [reflexivity |].
  destruct e; simpl; rewrite IH; reflexivity.
Qed.

Lemma store_jacobian_calls (leng : nat) (j : matrix_t) (st st' : nat * memory) :
  store_jacobian leng j st = Ok st' ->
  jacobian_calls (m_trace (snd st')) = jacobian_calls (m_trace (snd st)).
Proof.
  unfold store_jacobian. intros H.
  eapply (for_each_invariant
            (fun s => jacobian_calls (m_trace (snd s))
                      = jacobian_calls (m_trace (snd st))));
    [| reflexivity | exact H].
  intros it [o m] s' _ Hs Hstep. unfold store_g in Hstep.
  destruct (o <? leng); [| discriminate].
  inv_bind Hstep. injection Hstep as <-. cbn [snd with_g m_trace] in *.
  rewrite jacobian_calls_app, Hs. cbn [jacobian_calls]. apply app_nil_r.
Qed.

Lemma gradients_constraint_calls (x : vector_t) (leng : nat)
  (l : list (nat * constraint_t)) :
  forall st st',
    for_each l (gradients_constraint x leng) st = Ok st' ->
    jacobian_calls (m_trace (snd st')) =
      jacobian_calls (m_trace (snd st)) ++ map Some (linear_positions l).
Proof.
  unfold linear_positions.
  induction l as [| [id c] l IH]; intros st st' Hrun.
  - simpl in *. injection Hrun as <-. now rewrite app_nil_r.
  - cbn [for_each] in Hrun. inv_bind Hrun.
    rewrite (IH _ _ Hrun). cbn [filter snd].
    unfold gradients_constraint in Ha. destruct (isLinear c); cbn [negb] in Ha.
    + destruct st as [o m]. apply store_jacobian_calls in Ha.
      rewrite Ha. cbn [snd log m_trace map fst].
      rewrite jacobian_calls_app. cbn [jacobian_calls].
      rewrite <- app_assoc. reflexivity.
    + injection Ha as <-. reflexivity.
Qed.

(** For every problem, the Jacobians that a returning Jacobian branch has
    evaluated are that of the objective and then those of the linear
    constraints, in list order, and of no other constraint. *)
Lemma usrfun_gradients_calls (pb : problem_t) (x : vector_t) (leng : nat)
  (mem mem' : memory) :
  usrfun_gradients pb x leng mem = Ok mem' ->
  jacobian_calls (m_trace mem') =
    jacobian_calls (m_trace mem)
    ++ None :: map Some (linear_positions (enumerate (constraints pb))).
Proof.
  unfold usrfun_gradients, usrfun_gradient_loops. intros H.
  inv_bind H. destruct a as [offset m]. inv_bind H. injection H as <-.
  destruct (f_jacobian (function pb)) as [jacobian |]; [| discriminate].
  inv_bind Ha. apply gradients_constraint_calls in Ha.
  apply store_jacobian_calls in Ha1.
  cbn [snd log m_trace] in *. rewrite Ha, Ha1, jacobian_calls_app.
  cbn [jacobian_calls]. rewrite <- app_assoc. reflexivity.
Qed.

(* ------------------------------------------------------------------ *)
(** ** The representative point                                        *)
(* ------------------------------------------------------------------ *)

(** C2. The claim is: the starting point if any, else the midpoint of a
    finite interval, else the single finite bound, else zero.  Without a
    starting point the code computes, for the interval [[2, 4]], half its
    width [1] and not its midpoint [3]; for [(-inf, 5)], whose single
    finite bound is [5], it computes [+inf]; for [(-inf, +inf)] it takes
    [-inf] and not zero.  Only with a lower bound and no upper bound does
    it take the finite bound. *)
Theorem lookForX_constraint_is_not_the_midpoint :
  lookForX_constraint problem_nonlinear 1 0 = Ok [1%float] /\
  (1 =? 3)%float = false /\
  lookForX_coordinate (2%float, 4%float) = 1%float /\
  lookForX_coordinate (neg_infinity, 5%float) = infinity /\
  lookForX_coordinate (neg_infinity, infinity) = neg_infinity /\
  lookForX_coordinate (2%float, infinity) = 2%float.
Proof. repeat split; vm_compute; reflexivity. Qed.

(* ------------------------------------------------------------------ *)
(** ** Lists, positions, blocks                                        *)
(* ------------------------------------------------------------------ *)

Lemma get_at_nth {A : Type} (i : nat) (l : list A) (d : A) :
  i < length l -> get_at i l = Ok (nth i l d).
Proof.
  intros Hi. unfold get_at.
  rewrite (nth_error_nth' l d Hi). reflexivity.
Qed.


Lemma enumerate_from_nth_error {A : Type} (l : list A) (k n : nat) :
  nth_error (enumerate_from k l) n =
    option_map (fun a => (k + n, a)) (nth_error l n).
Proof.
  revert k n; induction l as [| a l IH]; intros k [| n]; simpl;
    try reflexivity.
  - now rewrite Nat.add_0_r.
  - rewrite IH. destruct (nth_error l n); simpl; [| reflexivity].
    do 2 f_equal. lia.
Qed.

Lemma enumerate_nth_error {A : Type} (l : list A) (n : nat) (a : A) :
  nth_error l n = Some a -> nth_error (enumerate l) n = Some (n, a).
Proof.
  intros H. unfold enumerate. rewrite enumerate_from_nth_error, H.
  reflexivity.
Qed.

Lemma enumerate_In {A : Type} (l : list A) (n : nat) (a : A) :
  In (n, a) (enumerate l) -> nth_error l n = Some a.
Proof.
  intros H. apply In_nth_error in H. destruct H as [m Hm].
  unfold enumerate in Hm. rewrite enumerate_from_nth_error in Hm.
  destruct (nth_error l m) as [b |] eqn:E; simpl in Hm; [| discriminate].
  injection Hm as <- <-. exact E.
Qed.

(** The block of the [n]-th element starts after the blocks before it. *)
Lemma nth_error_flat_map_block {A B : Type} (f : A -> list B) (l : list A)
  (n : nat) (a : A) (i : nat) :
  nth_error l n = Some a -> i < length (f a) ->
  nth_error (flat_map f l) (length (flat_map f (firstn n l)) + i) =
    nth_error (f a) i.
Proof.
  intros Hn Hi.
  assert (Hsplit : l = firstn n l ++ a :: skipn (S n) l).
  { clear Hi. revert n Hn; induction l as [| b l IH]; intros [| n] Hn;
      simpl in *; try discriminate.
    - injection Hn as ->. reflexivity.
    - f_equal. apply IH. exact Hn. }
  rewrite Hsplit at 1. rewrite flat_map_app. cbn [flat_map].
  rewrite nth_error_app2 by lia.
  replace (length (flat_map f (firstn n l)) + i
           - length (flat_map f (firstn n l))) with i by lia.
  apply nth_error_app1. exact Hi.
Qed.

Lemma for_each_map {A B S : Type} (f : A -> B) (body : B -> S -> outcome S)
  (l : list A) (s : S) :
  for_each (map f l) body s = for_each l (fun a => body (f a)) s.
Proof.
  revert s; induction l as [| a l IH]; simpl; intros s; [reflexivity |].
  destruct (body (f a) s); simpl; [apply IH | reflexivity ..].
Qed.

(** A loop whose iterations are themselves loops over blocks is the loop
    over the concatenated blocks. *)
Lemma for_each_flat_map {A B S : Type} (body : A -> S -> outcome S)
  (blk : A -> list B) (step : B -> S -> outcome S) (l : list A) :
  (forall a s, In a l -> body a s = for_each (blk a) step s) ->
  forall s, for_each l body s = for_each (flat_map blk l) step s.
Proof.
  induction l as [| a l IH]; simpl; intros Hbody s; [reflexivity |].
  rewrite for_each_app, (Hbody a s (or_introl eq_refl)).
  destruct (for_each (blk a) step s); simpl; [| reflexivity ..].
  apply IH. intros b t Hb. apply Hbody. right; exact Hb.
Qed.

Lemma flat_map_map_block {A B C : Type} (f : A -> list B) (g : B -> C)
  (l : list A) :
  flat_map (fun a => map g (f a)) l = map g (flat_map f l).
Proof.
  induction l as [| a l IH]; simpl; [reflexivity |].
  now rewrite map_app, IH.
Qed.

(* ------------------------------------------------------------------ *)
(** ** The number of rows                                              *)
(* ------------------------------------------------------------------ *)

Lemma constraint_rows_length (ic : nat * constraint_t) :
  length (constraint_rows ic) = c_outputSize (snd ic).
Proof. unfold constraint_rows. now rewrite length_map, length_seq. Qed.

Lemma blocks_length (l : list (nat * constraint_t)) :
  length (flat_map nonlinear_block l) + length (flat_map linear_block l) =
    list_sum (map (fun ic => c_outputSize (snd ic)) l).
Proof.
  induction l as [| ic l IH]; simpl; [reflexivity |].
  rewrite !length_app, <- IH. unfold nonlinear_block, linear_block.
  destruct (isLinear (snd ic)); rewrite constraint_rows_length; simpl; lia.
Qed.

Lemma enumerate_from_sizes (cs : list constraint_t) (k : nat) :
  list_sum (map (fun ic => c_outputSize (snd ic)) (enumerate_from k cs)) =
    list_sum (map c_outputSize cs).
Proof.
  revert k; induction cs as [| c cs IH]; intros k; simpl;
    [reflexivity | now rewrite IH].
Qed.

Lemma compute_nf_sum (pb : problem_t) :
  compute_nf pb =
    outputSize (function pb) + list_sum (map c_outputSize (constraints pb)).
Proof.
  unfold compute_nf. generalize (outputSize (function pb)) as acc.
  induction (constraints pb) as [| c cs IH]; intros acc; simpl; [lia |].
  rewrite IH. destruct c; simpl; lia.
Qed.

Lemma row_layout_length (pb : problem_t) :
  length (row_layout pb) = 1 + list_sum (map c_outputSize (constraints pb)).
Proof.
  unfold row_layout. cbn [length]. rewrite length_app, blocks_length.
  unfold enumerate. now rewrite enumerate_from_sizes.
Qed.

(* ------------------------------------------------------------------ *)
(** ** Assembling the row bounds                                       *)
(* ------------------------------------------------------------------ *)

(** Storing a list of bound pairs from [offset] on, into arrays whose
    first [offset] elements are [pl] and [pu]. *)
Lemma put_rows (rs : list interval_t) :
  forall (offset : nat) (pl pu rl ru : vector_t),
    length pl = offset -> length pu = offset ->
    length rs <= length rl -> length rs <= length ru ->
    for_each rs (fun r st => put_row (fst r) (snd r) st)
      (offset, pl ++ rl, pu ++ ru) =
    Ok (offset + length rs,
        pl ++ map fst rs ++ skipn (length rs) rl,
        pu ++ map snd rs ++ skipn (length rs) ru).
Proof.
  induction rs as [| r rs IH]; intros offset pl pu rl ru Hl Hu Hrl Hru.
  - simpl. now rewrite Nat.add_0_r.
  - destruct rl as [| x rl]; [simpl in Hrl; lia |].
    destruct ru as [| y ru]; [simpl in Hru; lia |].
    cbn [for_each]. unfold put_row at 1. subst offset.
    rewrite set_at_app. cbn [bind].
    rewrite <- Hu, set_at_app. cbn [bind].
    replace (pl ++ fst r :: rl) with ((pl ++ [fst r]) ++ rl)
      by now rewrite <- app_assoc.
    replace (pu ++ snd r :: ru) with ((pu ++ [snd r]) ++ ru)
      by now rewrite <- app_assoc.
    rewrite (IH (S (length pu)) (pl ++ [fst r]) (pu ++ [snd r]) rl ru).
    + cbn [length map skipn]. rewrite <- !app_assoc. cbn [app].
      do 2 f_equal. f_equal. lia.
    + rewrite length_app; simpl; lia.
    + rewrite length_app; simpl; lia.
    + simpl in Hrl; lia.
    + simpl in Hru; lia.
Qed.

Lemma constraint_bound_declared (pb : problem_t) (id i : nat) :
  i < length (nth id (boundsVector pb) []) ->
  constraint_bound pb id i = Ok (declared_bound pb id i).
Proof.
  intros Hi. unfold constraint_bound, declared_bound.
  destruct (Nat.lt_ge_cases id (length (boundsVector pb))) as [Hid | Hid].
  - rewrite (get_at_nth (boundsVector pb) [] Hid). cbn [bind].
    apply get_at_nth. exact Hi.
  - rewrite nth_overflow in Hi by exact Hid. simpl in Hi. lia.
Qed.

Lemma flow_fupp_nonlinear_block (pb : problem_t) (ic : nat * constraint_t)
  (st : rows_state) :
  In ic (enumerate (constraints pb)) -> bounds_declared pb ic ->
  flow_fupp_nonlinear pb ic st =
    for_each (map (row_bound pb) (nonlinear_block ic))
      (fun r st => put_row (fst r) (snd r) st) st.
Proof.
  destruct ic as [id c]. intros Hin [Hbounds Hb].
  apply enumerate_In in Hin. cbn [fst snd] in *.
  unfold flow_fupp_nonlinear, nonlinear_block. cbn [fst snd].
  destruct c as [nm A b | nm m value jacobian]; cbn [isLinear]; [reflexivity |].
  unfold constraint_rows. cbn [fst snd c_outputSize] in *.
  rewrite map_map, for_each_map. apply for_each_ext.
  intros i s Hi. apply in_seq in Hi.
  rewrite constraint_bound_declared by lia. cbn [bind].
  unfold row_bound. rewrite Hin. reflexivity.
Qed.

Lemma flow_fupp_linear_block (pb : problem_t) (ic : nat * constraint_t)
  (st : rows_state) :
  In ic (enumerate (constraints pb)) -> bounds_declared pb ic ->
  flow_fupp_linear pb ic st =
    for_each (map (row_bound pb) (linear_block ic))
      (fun r st => put_row (fst r) (snd r) st) st.
Proof.
  destruct ic as [id c]. intros Hin [Hbounds Hb].
  apply enumerate_In in Hin. cbn [fst snd] in *.
  unfold flow_fupp_linear, linear_block. cbn [fst snd].
  destruct c as [nm A b | nm m value jacobian]; cbn [isLinear]; [| reflexivity].
  unfold constraint_rows. cbn [fst snd c_outputSize] in *.
  rewrite map_map, for_each_map. apply for_each_ext.
  intros i s Hi. apply in_seq in Hi.
  rewrite constraint_bound_declared by lia. cbn [bind].
  rewrite (get_at_nth b 0%float) by lia. cbn [bind].
  unfold row_bound. rewrite Hin. reflexivity.
Qed.

Lemma skipn_zeros (k n : nat) : skipn k (zeros n) = zeros (n - k).
Proof.
  unfold zeros. revert n; induction k as [| k IH]; intros [| n]; simpl;
    try reflexivity. apply IH.
Qed.

(** The closed form of the assembly: when the objective has one output
    and every bound is declared, the arrays hold, row by row in layout
    order, the bound pair of the row. *)
Lemma assemble_flow_fupp_layout (pb : problem_t) :
  well_formed pb -> outputSize (function pb) = 1 ->
  assemble_flow_fupp pb (compute_nf pb) =
    Ok (map (fun r => fst (row_bound pb r)) (row_layout pb),
        map (fun r => snd (row_bound pb r)) (row_layout pb)).
Proof.
  intros Hwf Hobj. unfold well_formed in Hwf. rewrite Forall_forall in Hwf.
  set (L1 := flat_map nonlinear_block (enumerate (constraints pb))).
  set (L2 := flat_map linear_block (enumerate (constraints pb))).
  assert (Hnf : compute_nf pb = S (length L1 + length L2)).
  { rewrite compute_nf_sum, Hobj. unfold L1, L2. rewrite blocks_length.
    unfold enumerate. now rewrite enumerate_from_sizes. }
  unfold assemble_flow_fupp. rewrite Hnf.
  change (zeros (S (length L1 + length L2)))
    with (0%float :: zeros (length L1 + length L2)).
  cbn [set_at length Nat.ltb Nat.leb replace_at bind].
  rewrite (for_each_flat_map (flow_fupp_nonlinear pb)
             (fun ic => map (row_bound pb) (nonlinear_block ic))
             (fun r st => put_row (fst r) (snd r) st))
    by (intros ic s Hic; apply flow_fupp_nonlinear_block; auto).
  rewrite flat_map_map_block. fold L1.
  change ((- infinity)%float :: zeros (length L1 + length L2))
    with ([(- infinity)%float] ++ zeros (length L1 + length L2)).
  change (infinity :: zeros (length L1 + length L2))
    with ([infinity] ++ zeros (length L1 + length L2)).
  rewrite (put_rows (map (row_bound pb) L1) (offset := 1)
             [(- infinity)%float] [infinity]
             (zeros (length L1 + length L2)) (zeros (length L1 + length L2)))
    by (try reflexivity; rewrite length_map; unfold zeros;
        rewrite repeat_length; lia).
  cbn [bind].
  rewrite (for_each_flat_map (flow_fupp_linear pb)
             (fun ic => map (row_bound pb) (linear_block ic))
             (fun r st => put_row (fst r) (snd r) st))
    by (intros ic s Hic; apply flow_fupp_linear_block; auto).
  rewrite flat_map_map_block. fold L2.
  rewrite !length_map, !skipn_zeros.
  replace (length L1 + length L2 - length L1) with (length L2) by lia.
  rewrite !app_assoc.
  rewrite (put_rows (map (row_bound pb) L2) (offset := 1 + length L1)
             _ _ (zeros (length L2)) (zeros (length L2)))
    by (rewrite ?length_app, ?length_map; unfold zeros;
        rewrite ?repeat_length; simpl; lia).
  cbn [bind]. rewrite !length_map, !skipn_zeros, Nat.sub_diag.
  destruct (Nat.eqb_spec (1 + length L1 + length L2)
              (S (length L1 + length L2))) as [_ | Hne]; [| lia].
  cbn [assert bind]. unfold row_layout. fold L1 L2.
  cbn [map zeros repeat]. rewrite !app_nil_r, !map_app, !map_map.
  reflexivity.
Qed.

(* ------------------------------------------------------------------ *)
(** ** Rows and their positions                                        *)
(* ------------------------------------------------------------------ *)

Lemma constraint_rows_nth (ic : nat * constraint_t) (i : nat) :
  i < c_outputSize (snd ic) ->
  nth_error (constraint_rows ic) i = Some (RowConstraint (fst ic) i).
Proof.
  intros Hi. unfold constraint_rows.
  rewrite nth_error_map, nth_error_seq.
  destruct (Nat.ltb_spec i (c_outputSize (snd ic))) as [_ | H]; [| lia].
  reflexivity.
Qed.

Lemma enumerate_from_firstn {A : Type} (l : list A) (k n : nat) :
  firstn n (enumerate_from k l) = enumerate_from k (firstn n l).
Proof.
  revert k n; induction l as [| a l IH]; intros k [| n]; simpl;
    try reflexivity. now rewrite IH.
Qed.

Lemma nonlinear_block_size (cs : list constraint_t) (k : nat) :
  length (flat_map nonlinear_block (enumerate_from k cs)) = nonlinear_size cs.
Proof.
  unfold nonlinear_size.
  revert k; induction cs as [| c cs IH]; intros k; simpl; [reflexivity |].
  rewrite length_app, IH. unfold nonlinear_block. cbn [snd].
  destruct (isLinear c); [reflexivity |].
  now rewrite constraint_rows_length.
Qed.

Lemma linear_block_size (cs : list constraint_t) (k : nat) :
  length (flat_map linear_block (enumerate_from k cs)) = linear_size cs.
Proof.
  unfold linear_size.
  revert k; induction cs as [| c cs IH]; intros k; simpl; [reflexivity |].
  rewrite length_app, IH. unfold linear_block. cbn [snd].
  destruct (isLinear c); [| reflexivity].
  now rewrite constraint_rows_length.
Qed.

(** [row_index] is the position of the row in the layout. *)
Lemma row_layout_index (pb : problem_t) (id : nat) (c : constraint_t) (i : nat) :
  nth_error (constraints pb) id = Some c -> i < c_outputSize c ->
  nth_error (row_layout pb) (row_index pb (RowConstraint id i)) =
    Some (RowConstraint id i).
Proof.
  intros Hc Hi. unfold row_index. rewrite Hc.
  pose proof (enumerate_nth_error _ _ Hc) as He.
  unfold row_layout.
  destruct (isLinear c) eqn:Hlin.
  - unfold linear_offset. rewrite <- !Nat.add_assoc. cbn [Nat.add nth_error].
    rewrite <- (nonlinear_block_size (constraints pb) 0).
    rewrite <- (linear_block_size (firstn id (constraints pb)) 0).
    rewrite <- enumerate_from_firstn. fold (enumerate (constraints pb)).
    rewrite nth_error_app2 by lia.
    replace (_ - _) with
      (length (flat_map linear_block (firstn id (enumerate (constraints pb)))) + i)
      by lia.
    rewrite (@nth_error_flat_map_block _ _ linear_block _ _ _ i He);
      unfold linear_block; cbn [snd]; rewrite Hlin.
    + apply (constraint_rows_nth (id, c)). exact Hi.
    + rewrite constraint_rows_length. exact Hi.
  - unfold nonlinear_offset. cbn [Nat.add nth_error].
    rewrite <- (nonlinear_block_size (firstn id (constraints pb)) 0).
    rewrite <- enumerate_from_firstn. fold (enumerate (constraints pb)).
    assert (Hblock : nth_error
                       (flat_map nonlinear_block (enumerate (constraints pb)))
                       (length (flat_map nonlinear_block
                                  (firstn id (enumerate (constraints pb)))) + i)
                     = Some (RowConstraint id i)).
    { rewrite (@nth_error_flat_map_block _ _ nonlinear_block _ _ _ i He);
        unfold nonlinear_block; cbn [snd]; rewrite Hlin.
      - apply (constraint_rows_nth (id, c)). exact Hi.
      - rewrite constraint_rows_length. exact Hi. }
    rewrite nth_error_app1; [exact Hblock |].
    apply nth_error_Some. rewrite Hblock. discriminate.
Qed.

(** C4. For a linear constraint [A x + b] at position [id] of a problem
    whose bounds are declared, with [(lo, hi)] the declared pair of its
    output [i] and [bi] the component [i] of [b], the assembly returns and
    the combined row of this output, which is row [i] of the block of the
    constraint, holds before the consistency loop exactly [lo - bi] as
    lower bound and [hi - bi] as upper bound. *)
Theorem linear_row_bounds_are_shifted (pb : problem_t) (id : nat)
  (name : string) (A : matrix_t) (b : vector_t) (i : nat)
  (lo hi bi : float) :
  well_formed pb -> outputSize (function pb) = 1 ->
  nth_error (constraints pb) id = Some (Linear name A b) ->
  i < rows A ->
  nth_error (nth id (boundsVector pb) []) i = Some (lo, hi) ->
  nth_error b i = Some bi ->
  exists flow fupp,
    assemble_flow_fupp pb (compute_nf pb) = Ok (flow, fupp) /\
    nth_error (row_layout pb) (linear_offset pb id + i)
      = Some (RowConstraint id i) /\
    nth_error flow (linear_offset pb id + i) = Some (lo - bi)%float /\
    nth_error fupp (linear_offset pb id + i) = Some (hi - bi)%float.
Proof.
  intros Hwf Hobj Hc Hi Hbd Hbi.
  pose proof (@row_layout_index pb id (Linear name A b) i Hc Hi) as Hrow.
  unfold row_index in Hrow. rewrite Hc in Hrow. cbn [isLinear] in Hrow.
  assert (Hbound : row_bound pb (RowConstraint id i) = ((lo - bi)%float, (hi - bi)%float)).
  { unfold row_bound, declared_bound. rewrite Hc.
    rewrite (nth_error_nth _ _ _ Hbd), (nth_error_nth _ _ _ Hbi).
    reflexivity. }
  eexists. eexists. split; [apply assemble_flow_fupp_layout; assumption |].
  split; [exact Hrow |].
  split.
  - rewrite nth_error_map, Hrow. cbn [option_map]. now rewrite Hbound.
  - rewrite nth_error_map, Hrow. cbn [option_map]. now rewrite Hbound.
Qed.

Lemma problem_mixed_well_formed : well_formed problem_mixed.
Proof.
  unfold well_formed, bounds_declared. repeat constructor; simpl; lia.
Qed.

Lemma linear_row_bounds_are_shifted_witness :
  well_formed problem_mixed /\
  outputSize (function problem_mixed) = 1 /\
  nth_error (constraints problem_mixed) 1 = Some affine_constraint /\
  0 < 1 /\
  nth_error (nth 1 (boundsVector problem_mixed) []) 0
    = Some (1%float, 1%float) /\
  nth_error [0.5%float] 0 = Some 0.5%float /\
  exists flow fupp,
    assemble_flow_fupp problem_mixed (compute_nf problem_mixed)
      = Ok (flow, fupp) /\
    nth_error (row_layout problem_mixed) 2 = Some (RowConstraint 1 0) /\
    nth_error flow 2 = Some (1 - 0.5)%float /\
    nth_error fupp 2 = Some (1 - 0.5)%float.
Proof.
  split; [exact problem_mixed_well_formed |].
  split; [reflexivity |]. split; [reflexivity |]. split; [lia |].
  split; [reflexivity |]. split; [reflexivity |].
  exact (@linear_row_bounds_are_shifted problem_mixed 1 "h"
           {| cols := 1; outer := [[(0, 5%float)]] |} [0.5%float] 0
           1%float 1%float 0.5%float
           problem_mixed_well_formed eq_refl eq_refl
           (Nat.lt_0_succ 0) eq_refl eq_refl).
Defined.

(* ------------------------------------------------------------------ *)
(** ** The consistency loop                                            *)
(* ------------------------------------------------------------------ *)

Lemma get_at_app {A : Type} (i : nat) (p : list A) (x : A) (r : list A) :
  length p = i -> get_at i (p ++ x :: r) = Ok x.
Proof.
  intros <-. unfold get_at. rewrite nth_error_app2 by lia.
  now rewrite Nat.sub_diag.
Qed.


(** One iteration on a row in the middle of the arrays. *)
Lemma snap_row_app (id : nat) (pl pu : vector_t) (lo up : float)
  (rl ru : vector_t) :
  length pl = id -> length pu = id ->
  snap_row id (pl ++ lo :: rl, pu ++ up :: ru) =
    if consistent (snap_pair (lo, up))
    then Ok (pl ++ fst (snap_pair (lo, up)) :: rl,
             pu ++ snd (snap_pair (lo, up)) :: ru)
    else AssertFail "flow_[id] <= fupp_[id]".
Proof.
  intros Hl Hu. unfold snap_row, snap_pair, snap_zero, consistent.
  cbn [fst snd].
  rewrite (get_at_app pl lo rl Hl). cbn [bind].
  destruct (abs lo <? tolerance)%float;
    rewrite ?(set_at_app_at pl lo _ rl Hl); cbn [bind];
    rewrite (get_at_app pu up ru Hu); cbn [bind];
    destruct (abs up <? tolerance)%float;
    rewrite ?(set_at_app_at pu up _ ru Hu); cbn [bind];
    rewrite (get_at_app pl _ rl Hl); cbn [bind];
    rewrite (get_at_app pu _ ru Hu); cbn [bind];
    match goal with
    | |- context [(abs (?a - ?b) <? tolerance)%float] =>
        destruct (abs (a - b) <? tolerance)%float
    end;
    rewrite ?(set_at_app_at pl _ _ rl Hl); cbn [bind];
    rewrite (get_at_app pl _ rl Hl); cbn [bind];
    match goal with
    | |- context [(?a <=? ?b)%float] => destruct (a <=? b)%float
    end; reflexivity.
Qed.

(** The loop over the rows not yet visited. *)
Lemma snap_rows (rl : vector_t) :
  forall (ru pl pu : vector_t),
    length rl = length ru -> length pl = length pu ->
    for_each (seq (length pl) (length rl)) snap_row (pl ++ rl, pu ++ ru) =
      if forallb consistent (map snap_pair (combine rl ru))
      then Ok (pl ++ map fst (map snap_pair (combine rl ru)),
               pu ++ map snd (map snap_pair (combine rl ru)))
      else AssertFail "flow_[id] <= fupp_[id]".
Proof.
  induction rl as [| lo rl IH]; intros [| up ru] pl pu Hr Hp;
    try discriminate.
  - simpl. now rewrite !app_nil_r.
  - cbn [length seq for_each combine map forallb].
    rewrite snap_row_app by auto.
    destruct (consistent (snap_pair (lo, up))); cbn [bind andb];
      [| reflexivity].
    replace (pl ++ fst (snap_pair (lo, up)) :: rl)
      with ((pl ++ [fst (snap_pair (lo, up))]) ++ rl)
      by now rewrite <- app_assoc.
    replace (pu ++ snd (snap_pair (lo, up)) :: ru)
      with ((pu ++ [snd (snap_pair (lo, up))]) ++ ru)
      by now rewrite <- app_assoc.
    replace (S (length pl)) with (length (pl ++ [fst (snap_pair (lo, up))]))
      by (rewrite length_app; simpl; lia).
    rewrite IH.
    + rewrite <- !app_assoc. reflexivity.
    + simpl in Hr. lia.
    + rewrite !length_app. simpl. lia.
Qed.

(** The closed form of the consistency loop. *)
Lemma snap_flow_fupp_rows (nf : nat) (flow fupp : vector_t) :
  length flow = nf -> length fupp = nf ->
  snap_flow_fupp nf (flow, fupp) =
    if forallb consistent (map snap_pair (combine flow fupp))
    then Ok (map fst (map snap_pair (combine flow fupp)),
             map snd (map snap_pair (combine flow fupp)))
    else AssertFail "flow_[id] <= fupp_[id]".
Proof.
  intros Hl Hu. unfold snap_flow_fupp. subst nf.
  apply (snap_rows flow fupp [] []); [now rewrite Hu | reflexivity].
Qed.

(** With a lower bound of zero, the test of the third line of the loop is
    the test of the second line on the upper bound. *)
Lemma abs_zero_sub (u : float) : abs (0 - u) = abs u.
Proof.
  apply Prim2SF_inj. rewrite !abs_spec, sub_spec.
  change (Prim2SF 0) with (S754_zero false).
  destruct (Prim2SF u) as [[|] | [|] | | [|] m e]; reflexivity.
Qed.

(** What [snap_pair] guarantees of a row. *)
Lemma snap_pair_spec (lo up : float) :
  snd (snap_pair (lo, up)) = snap_zero up /\
  ((abs lo <? tolerance)%float = true -> fst (snap_pair (lo, up)) = 0%float) /\
  ((abs up <? tolerance)%float = true -> snd (snap_pair (lo, up)) = 0%float) /\
  ((abs (snap_zero lo - snap_zero up) <? tolerance)%float = true ->
   fst (snap_pair (lo, up)) = snd (snap_pair (lo, up))).
Proof.
  unfold snap_pair. cbn [fst snd].
  split; [reflexivity |]. split; [| split].
  - intros Hlo.
    assert (Hz : snap_zero lo = 0%float) by (unfold snap_zero; now rewrite Hlo).
    rewrite Hz.
    destruct (abs (0 - snap_zero up) <? tolerance)%float eqn:E; [| reflexivity].
    rewrite abs_zero_sub in E. unfold snap_zero in *.
    destruct (abs up <? tolerance)%float eqn:Eu; [reflexivity |].
    rewrite E in Eu. discriminate.
  - intros Hup. unfold snap_zero. now rewrite Hup.
  - intros H. now rewrite H.
Qed.

(** What holds of a row once snapped: no bound is within the tolerance
    of zero without being zero, and the two bounds are not within the
    tolerance of each other without being equal. *)
Lemma snap_pair_post (lo up : float) :
  ((abs (fst (snap_pair (lo, up))) <? tolerance)%float = true ->
   fst (snap_pair (lo, up)) = 0%float) /\
  ((abs (snd (snap_pair (lo, up))) <? tolerance)%float = true ->
   snd (snap_pair (lo, up)) = 0%float) /\
  ((abs (fst (snap_pair (lo, up)) - snd (snap_pair (lo, up))) <? tolerance)%float
     = true ->
   fst (snap_pair (lo, up)) = snd (snap_pair (lo, up))).
Proof.
  unfold snap_pair, snap_zero. cbn [fst snd].
  destruct (abs lo <? tolerance)%float eqn:El;
    destruct (abs up <? tolerance)%float eqn:Eu;
    match goal with
    | |- context [(abs (?a - ?b) <? tolerance)%float] =>
        destruct (abs (a - b) <? tolerance)%float eqn:Ed
    end;
    repeat split; intros H; try reflexivity; congruence.
Qed.

Lemma nth_error_combine {A B : Type} (l1 : list A) (l2 : list B) (n : nat) :
  nth_error (combine l1 l2) n =
    match nth_error l1 n, nth_error l2 n with
    | Some a, Some b => Some (a, b)
    | _, _ => None
    end.
Proof.
  revert l2 n; induction l1 as [| a l1 IH]; intros [| b l2] [| n]; simpl;
    try reflexivity.
  - destruct (nth_error l1 n); reflexivity.
  - apply IH.
Qed.

Lemma replace_at_length {A : Type} (i : nat) (v : A) (l : list A) :
  length (replace_at i v l) = length l.
Proof.
  revert i; induction l as [| a l IH]; intros [| i]; simpl;
    try reflexivity. now rewrite IH.
Qed.

Lemma set_at_length {A : Type} (i : nat) (v : A) (l l' : list A) :
  set_at i v l = Ok l' -> length l' = length l.
Proof.
  unfold set_at. destruct (i <? length l); [| discriminate].
  intros H. injection H as <-. apply replace_at_length.
Qed.

Lemma put_row_lengths (nf : nat) (lo up : float) (st st' : rows_state) :
  length (snd (fst st)) = nf /\ length (snd st) = nf ->
  put_row lo up st = Ok st' ->
  length (snd (fst st')) = nf /\ length (snd st') = nf.
Proof.
  destruct st as [[offset flow] fupp]. cbn [fst snd]. intros [Hl Hu] H.
  unfold put_row in H. inv_bind H. inv_bind H. injection H as <-.
  cbn [fst snd]. apply set_at_length in Ha, Ha0. split; congruence.
Qed.

(** The assembled arrays have [nf_] elements. *)
Lemma assemble_flow_fupp_lengths (pb : problem_t) (nf : nat)
  (flow fupp : vector_t) :
  assemble_flow_fupp pb nf = Ok (flow, fupp) ->
  length flow = nf /\ length fupp = nf.
Proof.
  unfold assemble_flow_fupp. intros H.
  inv_bind H. inv_bind H. inv_bind H. inv_bind H.
  destruct a2 as [[offset fl] fu]. inv_bind H. injection H as <- <-.
  apply set_at_length in Ha, Ha0. unfold zeros in Ha, Ha0.
  rewrite repeat_length in Ha, Ha0.
  set (P := fun st : rows_state =>
              length (snd (fst st)) = nf /\ length (snd st) = nf).
  assert (Hinner : forall (A : Type) (l : list A)
                     (body : A -> rows_state -> outcome rows_state),
             (forall i st st', P st -> body i st = Ok st' -> P st') ->
             forall st st', P st -> for_each l body st = Ok st' -> P st').
  { intros A l body Hbody st st' Hst Hrun.
    eapply (for_each_invariant P); [| exact Hst | exact Hrun].
    intros i s s' _. apply Hbody. }
  assert (H1 : P a1).
  { eapply (for_each_invariant P); [| | exact Ha1]; [| split; assumption].
    intros [id c] s s' _ Hs Hbody. unfold flow_fupp_nonlinear in Hbody.
    destruct c as [nm A b | nm m value jacobian].
    - injection Hbody as <-. exact Hs.
    - eapply Hinner; [| exact Hs | exact Hbody].
      intros i st st' Hst Hstep. inv_bind Hstep.
      eapply put_row_lengths; eassumption. }
  assert (H2 : P (offset, fl, fu)).
  { eapply (for_each_invariant P); [| exact H1 | exact Ha2].
    intros [id c] s s' _ Hs Hbody. unfold flow_fupp_linear in Hbody.
    destruct c as [nm A b | nm m value jacobian].
    - eapply Hinner; [| exact Hs | exact Hbody].
      intros i st st' Hst Hstep. inv_bind Hstep. inv_bind Hstep.
      eapply put_row_lengths; eassumption.
    - injection Hbody as <-. exact Hs. }
  exact H2.
Qed.

(** C7. After the assembly of the row bounds, [fill_flow_fupp] handles
    every combined row as follows.  When it returns: a bound whose
    absolute value was below the tolerance is exactly zero in the result;
    a pair whose members, once snapped to zero, differed by less than
    the tolerance has its lower bound equal to its upper bound; in the
    result no bound is within the tolerance of zero without being zero
    and no pair is within the tolerance of equality without being equal;
    and every row has lower <= upper.  When the snapped pair of some row
    has not lower <= upper, it does not return: the assertion fails.
    When no row is in this case, it returns. *)
Theorem fill_flow_fupp_snaps_and_checks (pb : problem_t) (nf : nat)
  (flow fupp : vector_t) :
  assemble_flow_fupp pb nf = Ok (flow, fupp) ->
  (forall flow' fupp',
      fill_flow_fupp pb nf = Ok (flow', fupp') ->
      forall id lo up,
        nth_error flow id = Some lo -> nth_error fupp id = Some up ->
        exists lo' up',
          nth_error flow' id = Some lo' /\ nth_error fupp' id = Some up' /\
          ((abs lo <? tolerance)%float = true -> lo' = 0%float) /\
          ((abs up <? tolerance)%float = true -> up' = 0%float) /\
          ((abs (snap_zero lo - snap_zero up) <? tolerance)%float = true ->
           lo' = up') /\
          ((abs lo' <? tolerance)%float = true -> lo' = 0%float) /\
          ((abs up' <? tolerance)%float = true -> up' = 0%float) /\
          ((abs (lo' - up') <? tolerance)%float = true -> lo' = up') /\
          (lo' <=? up')%float = true) /\
  (forall id lo up,
      nth_error flow id = Some lo -> nth_error fupp id = Some up ->
      consistent (snap_pair (lo, up)) = false ->
      fill_flow_fupp pb nf = AssertFail "flow_[id] <= fupp_[id]") /\
  ((forall id lo up,
       nth_error flow id = Some lo -> nth_error fupp id = Some up ->
       consistent (snap_pair (lo, up)) = true) ->
   exists flow' fupp', fill_flow_fupp pb nf = Ok (flow', fupp')).
Proof.
  intros Hassemble.
  destruct (assemble_flow_fupp_lengths _ _ Hassemble) as [Hl Hu].
  unfold fill_flow_fupp. rewrite Hassemble. cbn [bind].
  rewrite (@snap_flow_fupp_rows nf flow fupp Hl Hu).
  set (rows := map snap_pair (combine flow fupp)).
  assert (Hrow : forall id lo up,
             nth_error flow id = Some lo -> nth_error fupp id = Some up ->
             nth_error rows id = Some (snap_pair (lo, up))).
  { intros id lo up Hlo Hup. unfold rows.
    rewrite nth_error_map. unfold interval_t.
    rewrite (nth_error_combine flow fupp id), Hlo, Hup.
    reflexivity. }
  split; [| split].
  - intros flow' fupp' H id lo up Hlo Hup.
    destruct (forallb consistent rows) eqn:Hall; [| discriminate].
    injection H as <- <-.
    pose proof (Hrow id lo up Hlo Hup) as Hid.
    exists (fst (snap_pair (lo, up))), (snd (snap_pair (lo, up))).
    rewrite !nth_error_map. unfold interval_t in *. rewrite Hid.
    cbn [option_map].
    destruct (snap_pair_spec lo up) as (_ & Hzl & Hzu & Heq).
    destruct (snap_pair_post lo up) as (Hpl & Hpu & Hpe).
    repeat split; try assumption.
    rewrite forallb_forall in Hall.
    apply (Hall (snap_pair (lo, up))). eapply nth_error_In. exact Hid.
  - intros id lo up Hlo Hup Hbad.
    destruct (forallb consistent rows) eqn:Hall; [| reflexivity].
    rewrite forallb_forall in Hall.
    rewrite (Hall (snap_pair (lo, up))) in Hbad; [discriminate |].
    eapply nth_error_In. apply Hrow; eassumption.
  - intros Hgood.
    assert (Hall : forallb consistent rows = true).
    { apply forallb_forall. intros r Hr. unfold rows in Hr.
      apply in_map_iff in Hr. destruct Hr as [[lo up] [<- Hin]].
      apply In_nth_error in Hin. destruct Hin as [id Hid].
      unfold interval_t in Hid.
      rewrite (nth_error_combine flow fupp id) in Hid.
      destruct (nth_error flow id) as [lo0 |] eqn:Elo; [| discriminate].
      destruct (nth_error fupp id) as [up0 |] eqn:Eup; [| discriminate].
      injection Hid as <- <-. apply (Hgood id); assumption. }
    rewrite Hall. eexists. eexists. reflexivity.
Qed.

Lemma fill_flow_fupp_snaps_and_checks_witness :
  assemble_flow_fupp problem_near_zero 2
    = Ok ([neg_infinity; 1e-7%float], [infinity; 2e-7%float]) /\
  fill_flow_fupp problem_near_zero 2
    = Ok ([neg_infinity; 0%float], [infinity; 0%float]) /\
  exists lo' up',
    nth_error [neg_infinity; 0%float] 1 = Some lo' /\
    nth_error [infinity; 0%float] 1 = Some up' /\
    ((abs 1e-7 <? tolerance)%float = true -> lo' = 0%float) /\
    ((abs 2e-7 <? tolerance)%float = true -> up' = 0%float) /\
    ((abs (snap_zero 1e-7 - snap_zero 2e-7) <? tolerance)%float = true ->
     lo' = up') /\
    ((abs lo' <? tolerance)%float = true -> lo' = 0%float) /\
    ((abs up' <? tolerance)%float = true -> up' = 0%float) /\
    ((abs (lo' - up') <? tolerance)%float = true -> lo' = up') /\
    (lo' <=? up')%float = true.
Proof.
  assert (Ha : assemble_flow_fupp problem_near_zero 2
               = Ok ([neg_infinity; 1e-7%float], [infinity; 2e-7%float]))
    by (vm_compute; reflexivity).
  assert (Hf : fill_flow_fupp problem_near_zero 2
               = Ok ([neg_infinity; 0%float], [infinity; 0%float]))
    by (vm_compute; reflexivity).
  split; [exact Ha |]. split; [exact Hf |].
  exact (proj1 (fill_flow_fupp_snaps_and_checks _ _ Ha) _ _ Hf
           1 1e-7%float 2e-7%float eq_refl eq_refl).
Defined.

(* ------------------------------------------------------------------ *)
(** ** Offsets of the assembly; what [prepare] establishes             *)
(* ------------------------------------------------------------------ *)

(** A loop whose iterations each add a weight to a measure of the state
    adds the sum of the weights. *)
Lemma for_each_measure {A S : Type} (mu : S -> nat) (w : A -> nat)
  (body : A -> S -> outcome S) (l : list A) :
  (forall a s s', In a l -> body a s = Ok s' -> mu s' = mu s + w a) ->
  forall s s', for_each l body s = Ok s' ->
               mu s' = mu s + list_sum (map w l).
Proof.
  induction l as [| a l IH]; simpl; intros Hbody s s' Hrun.
  - injection Hrun as <-. lia.
  - inv_bind Hrun.
    rewrite (IH (fun b t t' Hb => Hbody b t t' (or_intror Hb)) _ _ Hrun).
    rewrite (Hbody a s a0 (or_introl eq_refl) Ha). lia.
Qed.

Lemma put_row_offset (lo up : float) (st st' : rows_state) :
  put_row lo up st = Ok st' -> fst (fst st') = fst (fst st) + 1.
Proof.
  destruct st as [[offset flow] fupp]. unfold put_row. intros H.
  inv_bind H. inv_bind H. injection H as <-. simpl. lia.
Qed.

Lemma list_sum_ones {A : Type} (l : list A) :
  list_sum (map (fun _ => 1) l) = length l.
Proof. induction l; simpl; [reflexivity | now rewrite IHl]. Qed.

(** When the assembly returns, [nf_] is one more than the number of
    constraint outputs. *)
Lemma assemble_flow_fupp_nf (pb : problem_t) (nf : nat) (r : vector_t * vector_t) :
  assemble_flow_fupp pb nf = Ok r ->
  nf = 1 + list_sum (map c_outputSize (constraints pb)).
Proof.
  unfold assemble_flow_fupp. intros H.
  inv_bind H. inv_bind H. inv_bind H. inv_bind H.
  destruct a2 as [[offset fl] fu]. inv_bind H.
  apply assert_Ok in Ha3. apply Nat.eqb_eq in Ha3. subst nf.
  assert (Hinner : forall (l : list nat)
                     (body : nat -> rows_state -> outcome rows_state),
             (forall i st st', body i st = Ok st' ->
                               fst (fst st') = fst (fst st) + 1) ->
             forall st st', for_each l body st = Ok st' ->
                            fst (fst st') = fst (fst st) + length l).
  { intros l body Hbody st st' Hrun.
    rewrite <- (list_sum_ones l).
    eapply (for_each_measure (fun st : rows_state => fst (fst st))
              (fun _ => 1)); [| exact Hrun].
    intros i s s' _. apply Hbody. }
  apply (for_each_measure (fun st : rows_state => fst (fst st))
           (fun ic => length (nonlinear_block ic))) in Ha1.
  - apply (for_each_measure (fun st : rows_state => fst (fst st))
             (fun ic => length (linear_block ic))) in Ha2.
    + cbn [fst] in Ha1, Ha2. rewrite Ha2, Ha1.
      rewrite <- !length_flat_map, <- Nat.add_assoc, blocks_length.
      unfold enumerate. now rewrite enumerate_from_sizes.
    + intros [id c] s s' _ Hbody. unfold flow_fupp_linear in Hbody.
      unfold linear_block. cbn [snd].
      destruct c as [nm A b | nm m value jacobian]; cbn [isLinear].
      * rewrite constraint_rows_length. cbn [snd c_outputSize].
        rewrite <- (length_seq (rows A) 0).
        eapply Hinner; [| exact Hbody].
        intros i st st' Hstep. inv_bind Hstep. inv_bind Hstep.
        eapply put_row_offset; eassumption.
      * injection Hbody as <-. simpl. lia.
  - intros [id c] s s' _ Hbody. unfold flow_fupp_nonlinear in Hbody.
    unfold nonlinear_block. cbn [snd].
    destruct c as [nm A b | nm m value jacobian]; cbn [isLinear].
    + injection Hbody as <-. simpl. lia.
    + rewrite constraint_rows_length. cbn [snd c_outputSize].
      rewrite <- (length_seq m 0).
      eapply Hinner; [| exact Hbody].
      intros i st st' Hstep. inv_bind Hstep.
      eapply put_row_offset; eassumption.
Qed.

(** What holds once [solve] has reached the call of the solver. *)
Lemma prepare_Ok (s : solver_t) (a : nag_in) :
  prepare s = Ok a ->
  i_nf a = compute_nf (problem s) /\
  i_nf a = 1 + list_sum (map c_outputSize (constraints (problem s))) /\
  outputSize (function (problem s)) = 1.
Proof.
  unfold prepare. intros H.
  destruct ((compute_nf (problem s) =? 1) || (n_ s =? 1)).
  - destruct (fill_iafun_javar_lena_nea (problem s))
      as [[[[iafun javar] av] lena] nea].
    inv_bind H. destruct a0 as [[[igfun jgvar] leng] neg].
    inv_bind H. inv_bind H. inv_bind H. inv_bind H. injection H as <-.
    cbn [i_nf]. unfold fill_flow_fupp in Ha1. inv_bind Ha1.
    apply assemble_flow_fupp_nf in Ha4.
    pose proof (compute_nf_sum (problem s)). repeat split; lia.
  - destruct (fill_iafun_javar_lena_nea (problem s))
      as [[[[iafun javar] av] lena] nea].
    inv_bind H. destruct a0 as [[[igfun jgvar] leng] neg].
    inv_bind H. inv_bind H. inv_bind H. inv_bind H. injection H as <-.
    cbn [i_nf]. unfold fill_flow_fupp in Ha1. inv_bind Ha1.
    apply assemble_flow_fupp_nf in Ha4.
    pose proof (compute_nf_sum (problem s)). repeat split; lia.
Qed.

(* ------------------------------------------------------------------ *)
(** ** The stored result                                               *)
(* ------------------------------------------------------------------ *)

(** C8. Once [solve] has reached the external solver and the solver has
    returned, leaving [nf_] elements in [f] and [fmul] as it found them,
    [solve] returns (it neither throws nor aborts) and stores: on a
    status other than [NE_NOERROR], a [SolverError] carrying the message
    of the solver and, as last state, the decomposition of the output; on
    [NE_NOERROR], that decomposition as the result.  The decomposition
    is: [x], the objective value [f[0]], the constraint values
    [f[1 .. nf - 1]] and the multipliers [fmul[1 .. nf - 1]]. *)
Theorem solve_stores_translated_result
  (nag : nag_in -> usrfun_t -> solverState_t -> outcome (nag_out * solverState_t))
  (s : solver_t) (a : nag_in) (o : nag_out) (ss : solverState_t) :
  prepare s = Ok a ->
  nag a (usrfun (problem s) (callback_ s)) (solverState_ s) = Ok (o, ss) ->
  length (o_f o) = i_nf a -> length (o_fmul o) = i_nf a ->
  exists s' f0,
    solve nag s = Ok s' /\
    nth_error (o_f o) 0 = Some f0 /\
    (o_code o <> NE_NOERROR ->
     result_ s' = SolverError (o_message o) (Some (decomposition (i_nf a) o f0))) /\
    (o_code o = NE_NOERROR ->
     result_ s' = Success (decomposition (i_nf a) o f0)).
Proof.
  intros Hprep Hnag Hf Hfmul.
  destruct (prepare_Ok _ Hprep) as (_ & Hnf & Hobj).
  destruct (o_f o) as [| f0 frest] eqn:Ef; [simpl in Hf; lia |].
  unfold solve. rewrite Hprep. cbn [bind]. rewrite Hnag. cbn [bind fst snd].
  unfold finish, decode. rewrite Ef. cbn [get_at nth_error bind].
  rewrite Hobj. cbn [zeros repeat set_at length Nat.ltb Nat.leb replace_at bind].
  unfold get_segment.
  destruct (Nat.leb_spec (1 + (i_nf a - 1)) (length (f0 :: frest)))
    as [_ | Hbad]; [| lia].
  destruct (Nat.leb_spec (1 + (i_nf a - 1)) (length (o_fmul o)))
    as [_ | Hbad]; [| lia].
  cbn [bind]. eexists. exists f0. split; [reflexivity |].
  split; [reflexivity |]. cbn [result_]. unfold decomposition. rewrite Ef.
  split.
  - intros Hcode. destruct (Z.eqb_spec (o_code o) NE_NOERROR); [contradiction |].
    reflexivity.
  - intros Hcode. destruct (Z.eqb_spec (o_code o) NE_NOERROR); [| contradiction].
    reflexivity.
Qed.

Lemma solve_stores_translated_result_witness :
  exists a o ss s',
    prepare (NagSolverNlpSparse problem_mixed) = Ok a /\
    echo_solver 7 "no feasible point" a
      (usrfun problem_mixed None) {| ss_x := zeros 1 |} = Ok (o, ss) /\
    length (o_f o) = i_nf a /\ length (o_fmul o) = i_nf a /\
    solve (echo_solver 7 "no feasible point") (NagSolverNlpSparse problem_mixed)
      = Ok s' /\
    result_ s' =
      SolverError "no feasible point"
        (Some {| r_x := [0%float]; r_value := [0%float];
                 r_constraints := [0%float; 0%float];
                 r_lambda := [0%float; 0%float] |}).
Proof.
  assert (Hp : exists a, prepare (NagSolverNlpSparse problem_mixed) = Ok a)
    by (eexists; vm_compute; reflexivity).
  destruct Hp as [a Hp]. pose proof Hp as Ha.
  vm_compute in Ha. injection Ha as Ha. subst a.
  match type of Hp with
  | _ = Ok ?a =>
      destruct (echo_solver 7 "no feasible point" a
                  (usrfun (problem (NagSolverNlpSparse problem_mixed))
                     (callback_ (NagSolverNlpSparse problem_mixed)))
                  (solverState_ (NagSolverNlpSparse problem_mixed)))
        as [[o ss] | w | w] eqn:Hn; try discriminate Hn
  end.
  pose proof Hn as Ho. unfold echo_solver in Ho. injection Ho as Ho Hss.
  subst o ss.
  destruct (solve_stores_translated_result (echo_solver 7 "no feasible point")
              _ Hp Hn eq_refl eq_refl) as (s' & f0 & Hs & Hf0 & Herr & _).
  eexists. eexists. eexists. exists s'.
  split; [exact Hp |]. split; [exact Hn |].
  split; [reflexivity |]. split; [reflexivity |].
  split; [exact Hs |].
  rewrite Herr by discriminate.
  injection Hf0 as <-. reflexivity.
Defined.

(* ------------------------------------------------------------------ *)
(** ** Row names                                                       *)
(* ------------------------------------------------------------------ *)

Lemma fold_left_push {A B : Type} (f : A -> B) (l : list A) (acc : list B) :
  fold_left (fun acc x => acc ++ [f x]) l acc = acc ++ map f l.
Proof.
  revert acc; induction l as [| a l IH]; intros acc; simpl.
  - now rewrite app_nil_r.
  - rewrite IH, <- app_assoc. reflexivity.
Qed.

Lemma fold_left_blocks {A B : Type} (step : list B -> A -> list B)
  (g : A -> list B) (l : list A) :
  (forall acc a, step acc a = acc ++ g a) ->
  forall acc, fold_left step l acc = acc ++ flat_map g l.
Proof.
  intros Hstep. induction l as [| a l IH]; intros acc; simpl.
  - now rewrite app_nil_r.
  - rewrite IH, Hstep, <- app_assoc. reflexivity.
Qed.

Lemma flat_map_enumerate_from {A B : Type} (g : nat * A -> list B)
  (h : A -> list B) (l : list A) (k : nat) :
  (forall ic, In ic (enumerate_from k l) -> g ic = h (snd ic)) ->
  flat_map g (enumerate_from k l) = flat_map h l.
Proof.
  revert k; induction l as [| a l IH]; intros k Hgh; simpl; [reflexivity |].
  rewrite (Hgh (k, a)) by (left; reflexivity). cbn [snd]. f_equal.
  apply IH. intros ic Hic. apply Hgh. right; exact Hic.
Qed.

Lemma push_names_block (kind : string) (cstr : constraint_t)
  (fnames : list string) :
  push_names kind cstr fnames =
    fnames ++ map (fmt kind (c_getName cstr)) (seq 0 (c_outputSize cstr)).
Proof. unfold push_names. apply fold_left_push. Qed.

Lemma row_names_block (pb : problem_t) (ic : nat * constraint_t) :
  In ic (enumerate (constraints pb)) ->
  map (row_name pb) (constraint_rows ic) =
    map (fmt (if isLinear (snd ic) then "linear" else "nonlinear")
           (c_getName (snd ic)))
      (seq 0 (c_outputSize (snd ic))).
Proof.
  destruct ic as [id c]. intros Hin. apply enumerate_In in Hin.
  unfold constraint_rows. cbn [fst snd]. rewrite map_map.
  apply map_ext. intros i. unfold row_name. now rewrite Hin.
Qed.

(** The closed form of [fill_fnames]: it appends the names of the rows
    in layout order. *)
Lemma fill_fnames_layout (pb : problem_t) (nf : nat) (fnames : list string) :
  fill_fnames pb nf fnames =
    (assert (nf =? length (fnames ++ map (row_name pb) (row_layout pb)))
       "nf_ == static_cast<int> (fnames_.size ())" ;;;
     Ok (fnames ++ map (row_name pb) (row_layout pb))).
Proof.
  unfold fill_fnames.
  rewrite (fold_left_blocks
             (fun fnames cstr =>
                if isLinear cstr then fnames
                else push_names "nonlinear" cstr fnames)
             (fun c => if isLinear c then []
                       else map (fmt "nonlinear" (c_getName c))
                              (seq 0 (c_outputSize c))))
    by (intros acc c; destruct (isLinear c);
        [now rewrite app_nil_r | apply push_names_block]).
  rewrite (fold_left_blocks
             (fun fnames cstr =>
                if negb (isLinear cstr) then fnames
                else push_names "linear" cstr fnames)
             (fun c => if isLinear c
                       then map (fmt "linear" (c_getName c))
                              (seq 0 (c_outputSize c))
                       else []))
    by (intros acc c; destruct (isLinear c); cbn [negb];
        [apply push_names_block | now rewrite app_nil_r]).
  assert (Hall : (fnames ++ [fmt "cost" (getName (function pb)) 0]) ++
                 flat_map (fun c => if isLinear c then []
                                    else map (fmt "nonlinear" (c_getName c))
                                           (seq 0 (c_outputSize c)))
                   (constraints pb) ++
                 flat_map (fun c => if isLinear c
                                    then map (fmt "linear" (c_getName c))
                                           (seq 0 (c_outputSize c))
                                    else [])
                   (constraints pb)
                 = fnames ++ map (row_name pb) (row_layout pb)).
  { unfold row_layout. cbn [map row_name]. rewrite map_app.
    rewrite <- !flat_map_map_block, <- app_assoc. cbn [app].
    do 3 f_equal.
    - symmetry. apply flat_map_enumerate_from. intros ic Hic.
      unfold nonlinear_block.
      pose proof (row_names_block pb ic Hic) as Hn.
      destruct (isLinear (snd ic)); [reflexivity | exact Hn].
    - symmetry. apply flat_map_enumerate_from. intros ic Hic.
      unfold linear_block.
      pose proof (row_names_block pb ic Hic) as Hn.
      destruct (isLinear (snd ic)); [exact Hn | reflexivity]. }
  rewrite <- app_assoc, Hall. reflexivity.
Qed.

(* ------------------------------------------------------------------ *)
(** ** The pattern of the linear part                                  *)
(* ------------------------------------------------------------------ *)

Lemma entries_from_row (o : list (list (nat * float))) (k : nat) (e : entry) :
  In e (entries_from k o) -> k <= e_row e < k + length o.
Proof.
  revert k; induction o as [| inner o IH]; intros k Hin; simpl in *;
    [contradiction |].
  apply in_app_or in Hin. destruct Hin as [Hin | Hin].
  - unfold inner_entries in Hin. apply in_map_iff in Hin.
    destruct Hin as [cv [<- _]]. simpl. lia.
  - apply IH in Hin. lia.
Qed.

Lemma entries_row_lt (m : matrix_t) (e : entry) :
  In e (entries m) -> e_row e < rows m.
Proof. intros Hin. apply entries_from_row in Hin. unfold rows. lia. Qed.

Lemma nonlinear_offset_fold (cs : list constraint_t) (offset : nat) :
  fold_left
    (fun offset cstr =>
       match cstr with
       | Linear _ _ _ => offset
       | Nonlinear _ m _ _ => offset + m
       end) cs offset = offset + nonlinear_size cs.
Proof.
  unfold nonlinear_size.
  revert offset; induction cs as [| c cs IH]; intros offset; simpl; [lia |].
  rewrite IH. destruct c; simpl; lia.
Qed.

Lemma push_linear_entries_block (offset : nat) (A : matrix_t)
  (iafun javar : list nat) (a : vector_t) :
  push_linear_entries offset A (iafun, javar, a) =
    (iafun ++ map (fun it => offset + e_row it + 1) (entries A),
     javar ++ map (fun it => e_col it + 1) (entries A),
     a ++ map e_value (entries A)).
Proof.
  unfold push_linear_entries.
  revert iafun javar a; induction (entries A) as [| it es IH];
    intros iafun javar a; simpl.
  - now rewrite !app_nil_r.
  - rewrite IH, <- !app_assoc. reflexivity.
Qed.

Lemma linear_size_app (l1 l2 : list constraint_t) :
  linear_size (l1 ++ l2) = linear_size l1 + linear_size l2.
Proof. unfold linear_size. now rewrite map_app, list_sum_app. Qed.

Lemma nonlinear_size_app (l1 l2 : list constraint_t) :
  nonlinear_size (l1 ++ l2) = nonlinear_size l1 + nonlinear_size l2.
Proof. unfold nonlinear_size. now rewrite map_app, list_sum_app. Qed.

Lemma firstn_prefix {A : Type} (pre rest : list A) :
  firstn (length pre) (pre ++ rest) = pre.
Proof.
  rewrite firstn_app, Nat.sub_diag, firstn_all. simpl. apply app_nil_r.
Qed.

(** The second loop of [fill_iafun_javar_lena_nea], started after the
    constraints [pre] with the offset they give: the running offset of a
    linear constraint is the first row of its block. *)
Lemma linear_pattern_loop (base : nat) (cs rest : list constraint_t) :
  forall (pre : list constraint_t) (iafun javar : list nat) (a : vector_t),
    cs = pre ++ rest ->
    exists javar' a',
      fold_left
        (fun ost cstr =>
           let '(offset, st) := ost in
           match cstr with
           | Nonlinear _ _ _ _ => (offset, st)
           | Linear _ A _ => (offset + rows A, push_linear_entries offset A st)
           end)
        rest (base + linear_size pre, (iafun, javar, a)) =
      (base + linear_size cs,
       (iafun ++
        flat_map
          (fun ic =>
             match snd ic with
             | Linear _ A _ =>
                 map (fun it => base + linear_size (firstn (fst ic) cs)
                                + e_row it + 1) (entries A)
             | Nonlinear _ _ _ _ => []
             end)
          (enumerate_from (length pre) rest),
        javar', a')).
Proof.
  induction rest as [| c rest IH]; intros pre iafun javar a Hcs.
  - exists javar, a. simpl. rewrite app_nil_r in *. now subst.
  - assert (Hcs' : cs = (pre ++ [c]) ++ rest) by now rewrite <- app_assoc.
    cbn [fold_left enumerate_from flat_map snd fst].
    destruct c as [nm A b | nm m value jacobian].
    + rewrite push_linear_entries_block.
      replace (base + linear_size pre + rows A)
        with (base + linear_size (pre ++ [Linear nm A b]))
        by (rewrite linear_size_app; unfold linear_size; simpl; lia).
      edestruct (IH (pre ++ [Linear nm A b])) as (javar' & a' & Heq);
        [exact Hcs' |]. rewrite Heq.
      exists javar', a'. rewrite <- app_assoc.
      rewrite length_app. cbn [length]. rewrite Nat.add_1_r.
      assert (Hpre : firstn (length pre) cs = pre)
        by (rewrite Hcs; apply firstn_prefix).
      rewrite Hpre. reflexivity.
    + replace (base + linear_size pre)
        with (base + linear_size (pre ++ [Nonlinear nm m value jacobian]))
        by (rewrite linear_size_app; unfold linear_size; simpl; lia).
      destruct (IH (pre ++ [Nonlinear nm m value jacobian]) iafun javar a Hcs')
        as (javar' & a' & ->).
      exists javar', a'.
      rewrite length_app. cbn [length app]. rewrite Nat.add_1_r.
      reflexivity.
Qed.

Lemma flat_map_ext_In {A B : Type} (f g : A -> list B) (l : list A) :
  (forall a, In a l -> f a = g a) -> flat_map f l = flat_map g l.
Proof.
  induction l as [| a l IH]; simpl; intros Hfg; [reflexivity |].
  rewrite (Hfg a (or_introl eq_refl)), IH; [reflexivity |].
  intros b Hb. apply Hfg. right; exact Hb.
Qed.

(** The rows of the linear pattern are rows of the layout. *)
Lemma linear_pattern_rows_in_layout (pb : problem_t) :
  Forall (fun r => nth_error (row_layout pb) (row_index pb r) = Some r)
    (linear_pattern_rows pb).
Proof.
  apply Forall_forall. intros r Hr. unfold linear_pattern_rows in Hr.
  apply in_flat_map in Hr. destruct Hr as [[id c] [Hic Hr]].
  apply enumerate_In in Hic. cbn [fst snd] in Hr.
  destruct c as [nm A b | nm m value jacobian]; [| contradiction].
  apply in_map_iff in Hr. destruct Hr as [it [<- Hit]].
  apply (row_layout_index pb id Hic). cbn [c_outputSize].
  apply entries_row_lt. exact Hit.
Qed.

(** The row indices recorded in [iafun_] are, one-based and in order, the
    positions in the layout of the rows of the linear constraints. *)
Lemma fill_iafun_rows (pb : problem_t) (iafun javar : list nat) (a : vector_t)
  (lena nea : nat) :
  outputSize (function pb) = 1 ->
  fill_iafun_javar_lena_nea pb = (iafun, javar, a, lena, nea) ->
  firstn nea iafun = map (fun r => S (row_index pb r)) (linear_pattern_rows pb).
Proof.
  intros Hobj. unfold fill_iafun_javar_lena_nea.
  rewrite nonlinear_offset_fold, Hobj.
  replace (0 + 1 + nonlinear_size (constraints pb))
    with (1 + nonlinear_size (constraints pb) + linear_size [])
    by (unfold linear_size; simpl; lia).
  pose proof (@linear_pattern_loop (1 + nonlinear_size (constraints pb))
                (constraints pb) (constraints pb) [] [] [] [] eq_refl)
    as (javar' & a' & Hloop).
  unfold vector_t in *. rewrite Hloop.
  cbn [app length]. fold (enumerate (constraints pb)).
  set (rowsA := flat_map _ (enumerate (constraints pb))).
  assert (Hrows : rowsA =
                  map (fun r => S (row_index pb r)) (linear_pattern_rows pb)).
  { unfold rowsA, linear_pattern_rows. rewrite <- flat_map_map_block.
    apply flat_map_ext_In. intros [id c] Hic. apply enumerate_In in Hic.
    cbn [fst snd]. destruct c as [nm A b | nm m value jacobian];
      [| reflexivity].
    rewrite map_map. apply map_ext. intros it.
    unfold row_index. rewrite Hic. cbn [isLinear]. unfold linear_offset. lia. }
  destruct (Nat.eqb_spec (length rowsA) 0) as [Hzero | Hpos];
    intros H; injection H as <- _ _ _ <-.
  - rewrite <- Hrows. destruct rowsA; [reflexivity | discriminate].
  - rewrite firstn_all. exact Hrows.
Qed.

(* ------------------------------------------------------------------ *)
(** ** The pattern of the nonlinear part                               *)
(* ------------------------------------------------------------------ *)

Lemma push_pattern_entries_block (offset : nat) (jac : matrix_t)
  (igfun jgvar : list nat) :
  push_pattern_entries offset jac (igfun, jgvar) =
    (igfun ++ map (fun it => offset + e_row it + 1) (entries jac),
     jgvar ++ map (fun it => e_col it + 1) (entries jac)).
Proof.
  unfold push_pattern_entries.
  revert igfun jgvar; induction (entries jac) as [| it es IH];
    intros igfun jgvar; simpl.
  - now rewrite !app_nil_r.
  - rewrite IH, <- !app_assoc. reflexivity.
Qed.

(** The constraint loop of [fill_igfun_jgvar_leng_neg], started after the
    constraints [pre] with the offset they give: when it returns, the
    running offset of a nonlinear constraint was the first row of its
    block, and [neg_] counts the recorded entries. *)
Lemma nonlinear_pattern_loop (pb : problem_t) (n : nat)
  (cs rest : list constraint_t) :
  forall (pre : list constraint_t) (offset neg : nat)
         (igfun jgvar : list nat) (st' : pattern_state),
    cs = pre ++ rest ->
    offset = 1 + nonlinear_size pre ->
    Forall (fun c => forall x, rows (c_jacobian c x) = c_outputSize c) rest ->
    for_each (enumerate_from (length pre) rest) (pattern_nonlinear pb n)
      (offset, neg, (igfun, jgvar)) = Ok st' ->
    let block :=
      flat_map
        (fun ic =>
           match snd ic with
           | Linear _ _ _ => []
           | Nonlinear _ _ _ jacobian =>
               map (fun it => 1 + nonlinear_size (firstn (fst ic) cs)
                              + e_row it + 1)
                 (entries (jacobian (pattern_point pb n (fst ic))))
           end)
        (enumerate_from (length pre) rest) in
    exists jgvar',
      st' = (1 + nonlinear_size cs, neg + length block,
             (igfun ++ block, jgvar')).
Proof.
  induction rest as [| c rest IH];
    intros pre offset neg igfun jgvar st' Hcs Hoff Hshape Hrun.
  - simpl in *. injection Hrun as <-. exists jgvar.
    rewrite !app_nil_r in *. subst cs offset. now rewrite Nat.add_0_r.
  - assert (Hcs' : cs = (pre ++ [c]) ++ rest) by now rewrite <- app_assoc.
    assert (Hpre : firstn (length pre) cs = pre)
      by (rewrite Hcs; apply firstn_prefix).
    inversion Hshape as [| c0 rest0 Hc Hrest]; subst c0 rest0.
    cbn [enumerate_from for_each] in Hrun. inv_bind Hrun.
    cbn [enumerate_from flat_map fst snd].
    assert (Hlen : S (length pre) = length (pre ++ [c]))
      by (rewrite length_app; simpl; lia).
    rewrite Hlen in Hrun |- *.
    destruct c as [nm A b | nm m value jacobian].
    + cbn [pattern_nonlinear] in Ha. injection Ha as <-.
      eapply (IH (pre ++ [Linear nm A b]));
        [exact Hcs' | | exact Hrest | exact Hrun].
      rewrite nonlinear_size_app. unfold nonlinear_size at 2. simpl. lia.
    + cbn [pattern_nonlinear] in Ha. inv_bind Ha. injection Ha as <-.
      assert (Hpt : pattern_point pb n (length pre) = a0)
        by (unfold pattern_point; now rewrite Ha0).
      rewrite push_pattern_entries_block in Hrun.
      specialize (Hc a0). cbn [c_jacobian c_outputSize] in Hc.
      rewrite Hc in Hrun.
      edestruct (IH (pre ++ [Nonlinear nm m value jacobian]))
        as (jgvar' & ->); [exact Hcs' | | exact Hrest | exact Hrun |].
      * rewrite nonlinear_size_app. unfold nonlinear_size at 2. simpl. lia.
      * exists jgvar'. rewrite Hpt, Hpre. subst offset.
        rewrite <- app_assoc. do 2 f_equal.
        rewrite (@length_app nat (map _ _)), length_map.
        unfold nonZeros. lia.
Qed.

(** The rows of the nonlinear pattern are rows of the layout. *)
Lemma nonlinear_pattern_rows_in_layout (pb : problem_t) (n : nat) :
  jacobian_rows pb ->
  Forall (fun r => nth_error (row_layout pb) (row_index pb r) = Some r)
    (nonlinear_pattern_rows pb n).
Proof.
  intros [_ Hshape]. rewrite Forall_forall in Hshape.
  apply Forall_forall. intros r Hr. unfold nonlinear_pattern_rows in Hr.
  apply in_app_or in Hr. destruct Hr as [Hr | Hr].
  - destruct (f_jacobian (function pb)); [| contradiction].
    apply in_map_iff in Hr. destruct Hr as [it [<- _]]. reflexivity.
  - apply in_flat_map in Hr. destruct Hr as [[id c] [Hic Hr]].
    apply enumerate_In in Hic. cbn [fst snd] in Hr.
    destruct c as [nm A b | nm m value jacobian]; [contradiction |].
    apply in_map_iff in Hr. destruct Hr as [it [<- Hit]].
    apply (row_layout_index pb id Hic).
    apply entries_row_lt in Hit.
    rewrite <- (Hshape _ (nth_error_In _ _ Hic) (pattern_point pb n id)).
    exact Hit.
Qed.

(** The row indices recorded in [igfun_] are, one-based and in order, the
    positions in the layout of the objective row and of the rows of the
    nonlinear constraints. *)
Lemma fill_igfun_rows (pb : problem_t) (n : nat) (igfun jgvar : list nat)
  (leng neg : nat) :
  outputSize (function pb) = 1 -> jacobian_rows pb ->
  fill_igfun_jgvar_leng_neg pb n = Ok (igfun, jgvar, leng, neg) ->
  firstn neg igfun =
    map (fun r => S (row_index pb r)) (nonlinear_pattern_rows pb n).
Proof.
  intros Hobj [Hjobj Hshape]. unfold fill_igfun_jgvar_leng_neg.
  unfold nonlinear_pattern_rows.
  destruct (f_jacobian (function pb)) as [jacobian |]; [| discriminate].
  intros H. inv_bind H.
  rewrite push_pattern_entries_block in Ha. cbn [app] in Ha.
  assert (Hrows : rows (jacobian (lookForX pb n)) = 1)
    by (rewrite (Hjobj jacobian _ eq_refl); exact Hobj).
  rewrite Hrows in Ha.
  destruct (@nonlinear_pattern_loop pb n (constraints pb) (constraints pb)
              [] _ _ _ _ a eq_refl eq_refl Hshape Ha)
    as (jgvar' & ->).
  cbn [length] in H. fold (enumerate (constraints pb)) in H.
  set (block := flat_map _ (enumerate (constraints pb))) in H.
  set (objrows := map (fun it => 0 + e_row it + 1)
                    (entries (jacobian (lookForX pb n)))) in H.
  assert (Hall : objrows ++ block =
                 map (fun r => S (row_index pb r))
                   (map (fun _ => RowObjective)
                      (entries (jacobian (lookForX pb n))) ++
                    flat_map
                      (fun ic =>
                         match snd ic with
                         | Linear _ _ _ => []
                         | Nonlinear _ _ _ jacobian0 =>
                             map (fun it => RowConstraint (fst ic) (e_row it))
                               (entries (jacobian0 (pattern_point pb n (fst ic))))
                         end)
                      (enumerate (constraints pb)))).
  { rewrite map_app. f_equal.
    - unfold objrows. rewrite map_map. apply map_ext_in. intros it Hit.
      apply entries_row_lt in Hit. cbn [row_index]. lia.
    - unfold block. rewrite <- flat_map_map_block.
      apply flat_map_ext_In. intros [id c] Hic. apply enumerate_In in Hic.
      cbn [fst snd]. destruct c as [nm A b | nm m value jacobian0];
        [reflexivity |].
      rewrite map_map. apply map_ext. intros it.
      unfold row_index. rewrite Hic. cbn [isLinear].
      unfold nonlinear_offset. lia. }
  assert (Hneg : 0 + nonZeros (jacobian (lookForX pb n)) + length block
                 = length (objrows ++ block)).
  { rewrite length_app. unfold objrows, nonZeros. rewrite length_map. lia. }
  rewrite Hneg in H. rewrite <- Hall.
  destruct (Nat.eqb_spec (length (objrows ++ block)) 0) as [Hzero | Hpos];
    injection H as <- _ _ <-.
  - destruct (objrows ++ block); [reflexivity | discriminate].
  - apply firstn_all.
Qed.

(* ------------------------------------------------------------------ *)
(** ** The rows written by the [needf] branch                          *)
(* ------------------------------------------------------------------ *)

Lemma set_segment_nth_error {A : Type} (off len : nat) (vals l l' : list A) :
  set_segment off len vals l = Ok l' ->
  forall k,
    nth_error l' k =
      if k <? off then nth_error l k
      else if k <? off + len then nth_error vals (k - off)
           else nth_error l k.
Proof.
  unfold set_segment.
  destruct (Nat.leb_spec (off + len) (length l)) as [Hle |]; [| discriminate].
  destruct (Nat.eqb_spec (length vals) len) as [Hlen |]; [| discriminate].
  cbn [andb]. intros H k. injection H as <-.
  assert (Hoff : length (firstn off l) = off)
    by (apply firstn_length_le; lia).
  rewrite nth_error_app, Hoff.
  destruct (Nat.ltb_spec k off) as [Hk | Hk].
  - rewrite nth_error_firstn.
    destruct (Nat.ltb_spec k off); [reflexivity | lia].
  - rewrite nth_error_app, Hlen.
    destruct (Nat.ltb_spec (k - off) len) as [Hk2 | Hk2];
      destruct (Nat.ltb_spec k (off + len)); try lia; [reflexivity |].
    rewrite nth_error_skipn. f_equal. lia.
Qed.

Lemma map_set_segment_Ok (nf off len : nat) (vals arr arr' : vector_t) :
  map_set_segment nf off len vals arr = Ok arr' ->
  set_segment off len vals arr = Ok arr'.
Proof.
  unfold map_set_segment. destruct (off + len <=? nf); [auto | discriminate].
Qed.

(** The rows of the nonlinear constraints among a prefix stay before the
    running offset. *)
Lemma nonlinear_size_before (pre : list constraint_t) (id : nat)
  (c : constraint_t) :
  nth_error pre id = Some c ->
  nonlinear_size (firstn id pre) + (if isLinear c then 0 else c_outputSize c)
    <= nonlinear_size pre.
Proof.
  intros Hc. apply nth_error_split in Hc.
  destruct Hc as (l1 & l2 & -> & <-).
  rewrite firstn_prefix, nonlinear_size_app.
  unfold nonlinear_size at 3. simpl. lia.
Qed.

Lemma firstn_firstn_prefix {A : Type} (pre rest : list A) (id : nat) :
  id <= length pre -> firstn id (pre ++ rest) = firstn id pre.
Proof.
  intros Hid. rewrite firstn_app.
  replace (id - length pre) with 0 by lia. simpl. apply app_nil_r.
Qed.

(** One iteration of the first constraint loop keeps the invariant. *)
Lemma values_nonlinear_step (pb : problem_t) (x : vector_t) (nf : nat)
  (old : vector_t) (pre rest : list constraint_t) (c : constraint_t)
  (st st' : nat * memory) :
  constraints pb = pre ++ c :: rest ->
  values_inv pb x old pre st ->
  values_nonlinear x nf (length pre, c) st = Ok st' ->
  values_inv pb x old (pre ++ [c]) st'.
Proof.
  intros Hcs (Hoff & Hafter & Hobj & Hrows) Hstep.
  assert (Hpre : firstn (length pre) (constraints pb) = pre)
    by (rewrite Hcs; apply firstn_prefix).
  assert (Hc : nth_error (constraints pb) (length pre) = Some c).
  { rewrite Hcs, nth_error_app2, Nat.sub_diag by lia. reflexivity. }
  destruct st as [offset mem]. cbn [fst snd] in *.
  unfold values_nonlinear in Hstep.
  destruct c as [nm A b | nm m value jacobian].
  - injection Hstep as <-. unfold values_inv. cbn [fst snd].
    rewrite nonlinear_size_app, length_app. cbn [length].
    repeat split; try assumption.
    + unfold nonlinear_size at 2. simpl. lia.
    + intros id nm' m' value' jacobian' i Hid Hc' Hi.
      assert (Hid' : id < length pre).
      { destruct (Nat.eq_dec id (length pre)) as [-> |]; [| lia].
        rewrite Hc in Hc'. discriminate. }
      apply (Hrows id nm' m' value' jacobian' i Hid' Hc' Hi).
  - inv_bind Hstep. injection Hstep as <-.
    apply map_set_segment_Ok in Ha.
    pose proof (set_segment_nth_error _ _ _ _ Ha) as Hnth.
    unfold values_inv. cbn [fst snd with_f m_f].
    rewrite nonlinear_size_app, length_app. cbn [length].
    repeat split.
    + unfold nonlinear_size at 2. simpl. lia.
    + intros k Hk. rewrite Hnth.
      destruct (Nat.ltb_spec k offset); [lia |].
      destruct (Nat.ltb_spec k (offset + m)); [lia |].
      apply Hafter. lia.
    + rewrite Hnth. destruct (Nat.ltb_spec 0 offset); [exact Hobj | lia].
    + intros id nm' m' value' jacobian' i Hid Hc' Hi.
      rewrite Hnth. unfold nonlinear_offset.
      destruct (Nat.eq_dec id (length pre)) as [-> | Hne].
      * rewrite Hc in Hc'. injection Hc' as <- <- <- <-.
        rewrite Hpre.
        destruct (Nat.ltb_spec (1 + nonlinear_size pre + i) offset); [lia |].
        destruct (Nat.ltb_spec (1 + nonlinear_size pre + i) (offset + m));
          [| lia].
        f_equal. lia.
      * assert (Hid' : id < length pre) by lia.
        assert (Hin : nth_error pre id = Some (Nonlinear nm' m' value' jacobian')).
        { rewrite Hcs, nth_error_app1 in Hc' by exact Hid'. exact Hc'. }
        pose proof (nonlinear_size_before _ _ Hin) as Hbefore.
        cbn [isLinear c_outputSize] in Hbefore.
        assert (Hfirst : firstn id (constraints pb) = firstn id pre)
          by (rewrite Hcs; apply firstn_firstn_prefix; lia).
        rewrite Hfirst.
        destruct (Nat.ltb_spec (1 + nonlinear_size (firstn id pre) + i) offset);
          [| lia].
        rewrite <- Hfirst.
        apply (Hrows id nm' m' value' jacobian' i Hid' Hc' Hi).
Qed.

Lemma values_nonlinear_loop (pb : problem_t) (x : vector_t) (nf : nat)
  (old : vector_t) (rest : list constraint_t) :
  forall (pre : list constraint_t) (st st' : nat * memory),
    constraints pb = pre ++ rest ->
    values_inv pb x old pre st ->
    for_each (enumerate_from (length pre) rest) (values_nonlinear x nf) st
      = Ok st' ->
    values_inv pb x old (pre ++ rest) st'.
Proof.
  induction rest as [| c rest IH]; intros pre st st' Hcs Hinv Hrun.
  - simpl in Hrun. injection Hrun as <-. now rewrite app_nil_r.
  - cbn [enumerate_from for_each] in Hrun. inv_bind Hrun.
    pose proof (values_nonlinear_step _ _ _ Hcs Hinv Ha) as Hstep.
    replace (pre ++ c :: rest) with ((pre ++ [c]) ++ rest)
      by now rewrite <- app_assoc.
    apply (IH (pre ++ [c]) a st').
    + now rewrite <- app_assoc.
    + exact Hstep.
    + rewrite length_app. cbn [length]. now rewrite Nat.add_1_r.
Qed.

Lemma values_linear_fold (cs : list constraint_t) (offset : nat) :
  fold_left values_linear cs offset = offset + linear_size cs.
Proof.
  unfold linear_size.
  revert offset; induction cs as [| c cs IH]; intros offset; simpl; [lia |].
  rewrite IH. unfold values_linear. destruct (isLinear c); simpl; lia.
Qed.

Lemma row_layout_In (pb : problem_t) (id i : nat) :
  In (RowConstraint id i) (row_layout pb) ->
  exists c, nth_error (constraints pb) id = Some c /\ i < c_outputSize c.
Proof.
  unfold row_layout. intros [Hr | Hr]; [discriminate |].
  assert (Hblock : exists ic, In ic (enumerate (constraints pb)) /\
                              In (RowConstraint id i) (constraint_rows ic)).
  { apply in_app_or in Hr.
    destruct Hr as [Hr | Hr]; apply in_flat_map in Hr;
      destruct Hr as [ic [Hic Hr]]; exists ic; split; try assumption.
    - unfold nonlinear_block in Hr.
      destruct (isLinear (snd ic)); [contradiction | exact Hr].
    - unfold linear_block in Hr.
      destruct (isLinear (snd ic)); [exact Hr | contradiction]. }
  destruct Hblock as [[id' c] [Hic Hr']].
  unfold constraint_rows in Hr'. apply in_map_iff in Hr'.
  destruct Hr' as [j [Hj Hin]]. cbn [fst snd] in *.
  injection Hj as <- <-. apply in_seq in Hin.
  exists c. split; [apply enumerate_In; exact Hic | lia].
Qed.

(** Every row of the layout sits at its [row_index]. *)
Lemma row_layout_at_index (pb : problem_t) (r : row_t) :
  In r (row_layout pb) ->
  nth_error (row_layout pb) (row_index pb r) = Some r.
Proof.
  destruct r as [| id i]; intros Hr; [reflexivity |].
  destruct (row_layout_In Hr) as (c & Hc & Hi).
  apply (row_layout_index pb id Hc Hi).
Qed.

Lemma sizes_split (cs : list constraint_t) :
  nonlinear_size cs + linear_size cs = list_sum (map c_outputSize cs).
Proof.
  unfold nonlinear_size, linear_size.
  induction cs as [| c cs IH]; simpl; [reflexivity |].
  destruct (isLinear c); simpl; lia.
Qed.

(** When the [needf] branch returns, [nf] is the number of rows and each
    row of [f] holds what the layout says: the objective value in row 0,
    the outputs of the nonlinear constraints in their blocks, and the
    rows of the linear constraints as they were. *)
Lemma usrfun_values_rows (pb : problem_t) (x : vector_t) (nf : nat)
  (mem mem' : memory) :
  usrfun_values pb x nf mem = Ok mem' ->
  nf = length (row_layout pb) /\
  forall r, In r (row_layout pb) ->
            nth_error (m_f mem') (row_index pb r) = row_value pb x (m_f mem) r.
Proof.
  unfold usrfun_values. intros H.
  inv_bind H. inv_bind H. destruct a0 as [offset mem1].
  inv_bind H. injection H as <-.
  apply assert_Ok in Ha1. apply Nat.eqb_eq in Ha1.
  rewrite values_linear_fold in Ha1.
  apply map_set_segment_Ok in Ha.
  pose proof (set_segment_nth_error _ _ _ _ Ha) as Hnth.
  assert (Hinit : values_inv pb x (m_f mem) []
                    (1, with_f a (EvValue None x) mem)).
  { unfold values_inv. cbn [fst snd with_f m_f length].
    repeat split.
    - intros k Hk. rewrite Hnth.
      destruct (Nat.ltb_spec k 0); [lia |].
      destruct (Nat.ltb_spec k (0 + 1)); [lia | reflexivity].
    - rewrite Hnth. reflexivity.
    - intros id nm m value jacobian i Hid. lia. }
  pose proof (@values_nonlinear_loop pb x nf (m_f mem) (constraints pb) []
                _ _ eq_refl Hinit Ha0) as (Hoff & Hafter & Hobj & Hrows).
  cbn [app fst snd] in *.
  split.
  - rewrite row_layout_length, <- Ha1, Hoff, <- sizes_split. lia.
  - intros [| id i] Hr; [exact Hobj |].
    destruct (row_layout_In Hr) as (c & Hc & Hi).
    unfold row_value, row_index. rewrite Hc.
    destruct c as [nm A b | nm m value jacobian]; cbn [isLinear].
    + apply Hafter. unfold linear_offset. lia.
    + apply (Hrows id nm m value jacobian i); [| exact Hc | exact Hi].
      apply nth_error_Some. rewrite Hc. discriminate.
Qed.

(* ------------------------------------------------------------------ *)
(** ** The combined row layout                                         *)
(* ------------------------------------------------------------------ *)

(** The part of the combined row layout that every component but the
    Jacobian branch of the callback follows.  For a problem whose
    objective has one output (with its bounds declared and Jacobians of
    as many rows as outputs):
    - [nf_] is one plus the sum of the output sizes of all constraints,
      and is the number of rows of the layout [row_layout]: the
      objective, the blocks of the nonlinear constraints in list order,
      then the blocks of the linear constraints in list order; every row
      sits at its [row_index];
    - the bounds assembler fills [flow_] and [fupp_] row by row in this
      order, and [fill_fnames] names the rows in this order;
    - the pattern builders record, one-based, the positions in this
      layout: [iafun_] those of the rows of the linear constraints,
      [igfun_] those of the objective and of the rows of the nonlinear
      constraints;
    - the evaluation callback, when values are requested and it returns,
      was given this [nf] and leaves in every row of [f] what the layout
      says: the objective value, the outputs of the nonlinear
      constraints, and the rows of the linear constraints untouched. *)
Theorem combined_row_layout (pb : problem_t) (n : nat) :
  outputSize (function pb) = 1 -> well_formed pb -> jacobian_rows pb ->
  compute_nf pb = 1 + list_sum (map c_outputSize (constraints pb)) /\
  length (row_layout pb) = compute_nf pb /\
  (forall r, In r (row_layout pb) ->
             nth_error (row_layout pb) (row_index pb r) = Some r) /\
  assemble_flow_fupp pb (compute_nf pb) =
    Ok (map (fun r => fst (row_bound pb r)) (row_layout pb),
        map (fun r => snd (row_bound pb r)) (row_layout pb)) /\
  fill_fnames pb (compute_nf pb) [] = Ok (map (row_name pb) (row_layout pb)) /\
  (forall iafun javar a lena nea,
      fill_iafun_javar_lena_nea pb = (iafun, javar, a, lena, nea) ->
      firstn nea iafun =
        map (fun r => S (row_index pb r)) (linear_pattern_rows pb)) /\
  Forall (fun r => In r (row_layout pb)) (linear_pattern_rows pb) /\
  (forall igfun jgvar leng neg,
      fill_igfun_jgvar_leng_neg pb n = Ok (igfun, jgvar, leng, neg) ->
      firstn neg igfun =
        map (fun r => S (row_index pb r)) (nonlinear_pattern_rows pb n)) /\
  Forall (fun r => In r (row_layout pb)) (nonlinear_pattern_rows pb n) /\
  (forall x nf mem mem',
      usrfun_values pb x nf mem = Ok mem' ->
      nf = compute_nf pb /\
      forall r, In r (row_layout pb) ->
                nth_error (m_f mem') (row_index pb r)
                  = row_value pb x (m_f mem) r).
Proof.
  intros Hobj Hwf Hjac.
  assert (Hnf : compute_nf pb = 1 + list_sum (map c_outputSize (constraints pb)))
    by (rewrite compute_nf_sum, Hobj; reflexivity).
  assert (Hlen : length (row_layout pb) = compute_nf pb)
    by (rewrite row_layout_length, Hnf; reflexivity).
  assert (Hin : forall l,
             Forall (fun r => nth_error (row_layout pb) (row_index pb r) = Some r) l ->
             Forall (fun r => In r (row_layout pb)) l).
  { intros l Hl. eapply Forall_impl; [| exact Hl].
    intros r Hr. eapply nth_error_In. exact Hr. }
  split; [exact Hnf |]. split; [exact Hlen |].
  split; [apply row_layout_at_index |].
  split; [apply assemble_flow_fupp_layout; assumption |].
  split.
  { rewrite fill_fnames_layout. cbn [app]. rewrite length_map, Hlen.
    rewrite Nat.eqb_refl. reflexivity. }
  split.
  { intros iafun javar a lena nea H. eapply fill_iafun_rows; eassumption. }
  split; [apply Hin, linear_pattern_rows_in_layout |].
  split.
  { intros igfun jgvar leng neg H. eapply fill_igfun_rows; eassumption. }
  split; [apply Hin, nonlinear_pattern_rows_in_layout; exact Hjac |].
  intros x nf mem mem' H.
  destruct (usrfun_values_rows _ _ _ _ H) as [Hnf' Hrows].
  split; [congruence | exact Hrows].
Qed.

Lemma problem_mixed_jacobian_rows : jacobian_rows problem_mixed.
Proof.
  split.
  - intros jacobian x H. injection H as <-. reflexivity.
  - repeat constructor.
Qed.

Lemma combined_row_layout_witness :
  outputSize (function problem_mixed) = 1 /\
  well_formed problem_mixed /\
  jacobian_rows problem_mixed /\
  compute_nf problem_mixed
    = 1 + list_sum (map c_outputSize (constraints problem_mixed)) /\
  length (row_layout problem_mixed) = compute_nf problem_mixed /\
  assemble_flow_fupp problem_mixed (compute_nf problem_mixed) =
    Ok (map (fun r => fst (row_bound problem_mixed r)) (row_layout problem_mixed),
        map (fun r => snd (row_bound problem_mixed r)) (row_layout problem_mixed)) /\
  fill_fnames problem_mixed (compute_nf problem_mixed) []
    = Ok (map (row_name problem_mixed) (row_layout problem_mixed)).
Proof.
  destruct (@combined_row_layout problem_mixed 1 eq_refl
              problem_mixed_well_formed problem_mixed_jacobian_rows)
    as (Hnf & Hlen & _ & Hbounds & Hnames & _).
  repeat split; try assumption.
  - exact problem_mixed_well_formed.
  - apply problem_mixed_jacobian_rows.
  - apply problem_mixed_jacobian_rows.
Defined.

(** C3. The claim is that every component, the evaluation callback
    included, uses the one row ordering: objective, nonlinear blocks,
    linear blocks.  The pattern builders, the bounds assembler, the names
    and the value branch of the callback do ([combined_row_layout]); the
    Jacobian branch of the callback does not.  On the problem with the
    nonlinear constraint [x * x] and then the linear constraint
    [5 x + 0.5], the layout has the rows objective, nonlinear, linear;
    the pattern ties the two slots of [g] to the rows [0] and [1], the
    objective and the nonlinear constraint; and the callback, asked for
    the Jacobian at [7], evaluates the objective and the constraint at
    position [1] only, and returns with, in slot [1], the coefficient [5]
    of the linear constraint, whose row is [2], where the row of the slot
    has the coefficient [14]. *)
Theorem usrfun_jacobian_leaves_row_layout :
  compute_nf problem_mixed = 3 /\
  row_layout problem_mixed
    = [RowObjective; RowConstraint 0 0; RowConstraint 1 0] /\
  fill_igfun_jgvar_leng_neg problem_mixed 1 = Ok ([1; 2], [1; 1], 2, 2) /\
  nonlinear_pattern_rows problem_mixed 1
    = [RowObjective; RowConstraint 0 0] /\
  map (row_index problem_mixed) (nonlinear_pattern_rows problem_mixed 1)
    = [0; 1] /\
  row_index problem_mixed (RowConstraint 1 0) = 2 /\
  map e_value (entries (c_jacobian square_constraint [7%float]))
    = [14%float] /\
  map e_value (entries (c_jacobian affine_constraint [7%float]))
    = [5%float] /\
  exists mem',
    usrfun problem_mixed None 0 1 [7%float] 0 3 1 2 (fresh_memory 3 2)
      = Ok mem' /\
    jacobian_calls (m_trace mem') = [None; Some 1] /\
    nth_error (m_g mem') 1 = Some 5%float.
Proof.
  repeat (split; [vm_compute; reflexivity |]).
  eexists. repeat split; vm_compute; reflexivity.
Qed.

(* ------------------------------------------------------------------ *)
(** ** Calling [solve] twice                                           *)
(* ------------------------------------------------------------------ *)

(** C5. The claim is that a second [solve ()] recomputes everything and
    ends in the same state.  [fill_fnames] appends to [fnames_] without
    clearing it, so on the adapter left by a first call, whatever the
    external solver did, the second call stops at [assert (nf_ ==
    fnames_.size ())]: for the problem without constraints [nf_] is [1]
    and [fnames_] then holds two names.  The first call does return, for
    instance with a solver that reports success at once. *)
Theorem solve_twice_fails
  (nag : nag_in -> usrfun_t -> solverState_t -> outcome (nag_out * solverState_t)) :
  match solve nag (NagSolverNlpSparse problem_free) with
  | Ok s1 =>
      fnames_ s1 = ["cost, f, Ouput variable 0"] /\
      solve nag s1 = AssertFail "nf_ == static_cast<int> (fnames_.size ())"
  | _ => True
  end /\
  exists s1, solve (echo_solver 0 "") (NagSolverNlpSparse problem_free) = Ok s1.
Proof.
  split.
  - destruct (solve nag (NagSolverNlpSparse problem_free)) as [s1 | w | w] eqn:E;
      [| exact I ..].
    unfold solve in E. inv_bind E. inv_bind E.
    vm_compute in Ha. injection Ha as <-.
    unfold finish in E. inv_bind E. injection E as <-.
    split; [reflexivity |].
    unfold solve, prepare.
    cbn [problem n_ xlow_ xupp_ fnames_ x_ xstate_ xmul_ f_ fstate_ fmul_
         xnames_ i_nf i_n i_xlow i_xupp i_fnames].
    reflexivity.
  - eexists. vm_compute. reflexivity.
Qed.
(* ------------------------------------------------------------------ *)

(** A loop whose iterations return on every state satisfying a property
    they keep returns. *)
Lemma for_each_progress {A S : Type} (P : S -> Prop)
  (body : A -> S -> outcome S) (l : list A) :
  (forall a s, In a l -> P s -> exists s', body a s = Ok s' /\ P s') ->
  forall s, P s -> exists s', for_each l body s = Ok s' /\ P s'.
Proof.
  induction l as [| a l IH]; simpl; intros Hbody s Hs.
  - exists s. split; [reflexivity | exact Hs].
  - destruct (Hbody a s (or_introl eq_refl) Hs) as (s1 & -> & Hs1).
    cbn [bind]. apply IH; [| exact Hs1].
    intros b t Hb. apply Hbody. right; exact Hb.
Qed.

Lemma resize_eigen_length (n : nat) (v : vector_t) :
  length (resize_eigen n v) = n.
Proof.
  unfold resize_eigen. destruct (Nat.eqb_spec (length v) n); [assumption |].
  apply repeat_length.
Qed.

(** [fill_xlow_xupp] returns whatever the arrays held before, as soon as
    the problem has [n_] argument bounds. *)
Lemma fill_xlow_xupp_total (pb : problem_t) (n : nat) (xlow xupp : vector_t) :
  length (argumentBounds pb) = n ->
  exists r, fill_xlow_xupp pb n xlow xupp = Ok r.
Proof.
  intros Hn. unfold fill_xlow_xupp. rewrite Hn, Nat.eqb_refl. cbn [assert bind].
  destruct (@for_each_progress nat (vector_t * vector_t)
              (fun st => length (fst st) = n /\ length (snd st) = n)
              (fun i st =>
                 let '(xlow, xupp) := st in
                 bd <- get_at i (argumentBounds pb) ;;
                 xlow <- set_at i (fst bd) xlow ;;
                 xupp <- set_at i (snd bd) xupp ;;
                 Ok (xlow, xupp))
              (seq 0 n)) with (s := (resize_eigen n xlow, resize_eigen n xupp))
    as (r & Hr & _).
  - intros i [l u] Hi [Hl Hu]. apply in_seq in Hi. cbn [fst snd] in *.
    rewrite (get_at_nth (argumentBounds pb) (0%float, 0%float)) by lia.
    cbn [bind]. unfold set_at.
    destruct (Nat.ltb_spec i (length l)); [| lia].
    destruct (Nat.ltb_spec i (length u)); [| lia].
    cbn [bind]. eexists. split; [reflexivity |].
    cbn [fst snd]. now rewrite !replace_at_length.
  - cbn [fst snd]. now rewrite !resize_eigen_length.
  - exists r. exact Hr.
Qed.

Lemma fill_xlow_xupp_Ok (pb : problem_t) (n : nat) (xlow xupp : vector_t)
  (r : vector_t * vector_t) :
  fill_xlow_xupp pb n xlow xupp = Ok r -> length (argumentBounds pb) = n.
Proof.
  unfold fill_xlow_xupp. intros H. inv_bind H.
  apply assert_Ok in Ha. now apply Nat.eqb_eq.
Qed.

(** The steps of [solve] that have returned when [prepare] has. *)
Lemma prepare_steps (s : solver_t) (a : nag_in) :
  prepare s = Ok a ->
  i_nf a = compute_nf (problem s) /\ i_n a = n_ s /\
  (exists pat, fill_igfun_jgvar_leng_neg (problem s) (n_ s) = Ok pat) /\
  length (argumentBounds (problem s)) = n_ s /\
  (exists fb, fill_flow_fupp (problem s) (compute_nf (problem s)) = Ok fb) /\
  fill_fnames (problem s) (compute_nf (problem s)) (fnames_ s)
    = Ok (i_fnames a).
Proof.
  unfold prepare. intros H.
  destruct ((compute_nf (problem s) =? 1) || (n_ s =? 1));
    destruct (fill_iafun_javar_lena_nea (problem s))
      as [[[[iafun javar] av] lena] nea];
    inv_bind H; destruct a0 as [[[igfun jgvar] leng] neg];
    inv_bind H; inv_bind H; inv_bind H; inv_bind H; injection H as <-;
    cbn [i_nf i_n i_fnames];
    apply fill_xlow_xupp_Ok in Ha0;
    (repeat split; try assumption; try reflexivity; eexists; eassumption).
Qed.

(** For every problem and every external solver: on an adapter whose
    name array was empty, once a call of [solve] has returned, the next
    call does not: it stops at the assertion of [fill_fnames]. *)
Lemma solve_again_fails
  (nag : nag_in -> usrfun_t -> solverState_t -> outcome (nag_out * solverState_t))
  (s s1 : solver_t) :
  fnames_ s = [] ->
  solve nag s = Ok s1 ->
  solve nag s1 = AssertFail "nf_ == static_cast<int> (fnames_.size ())".
Proof.
  intros Hfresh Hsolve. unfold solve in Hsolve.
  inv_bind Hsolve. inv_bind Hsolve.
  destruct (prepare_steps _ Ha)
    as (Hnf & Hn & [pat Hpat] & Hbounds & [fb Hfb] & Hnames).
  unfold finish in Hsolve. inv_bind Hsolve. injection Hsolve as <-.
  rewrite Hfresh, fill_fnames_layout in Hnames.
  set (names := map (row_name (problem s)) (row_layout (problem s))) in *.
  change ([] ++ names) with names in Hnames.
  inv_bind Hnames. injection Hnames as Hnames.
  apply assert_Ok in Ha2. apply Nat.eqb_eq in Ha2.
  unfold solve, prepare.
  cbn [problem n_ xlow_ xupp_ fnames_ x_ xstate_ xmul_ f_ fstate_ fmul_ xnames_].
  rewrite Hn, Hpat.
  destruct (fill_xlow_xupp_total (problem s) (i_xlow a) (i_xupp a) Hbounds)
    as [xb Hxb].
  rewrite Hxb, Hfb, <- Hnames, fill_fnames_layout. fold names.
  assert (Hfail : (compute_nf (problem s) =? length (names ++ names)) = false).
  { apply Nat.eqb_neq. rewrite length_app, <- Ha2.
    unfold names in Ha2. rewrite length_map, row_layout_length in Ha2.
    lia. }
  rewrite Hfail.
  destruct ((compute_nf (problem s) =? 1) || (n_ s =? 1));
    destruct (fill_iafun_javar_lena_nea (problem s))
      as [[[[iafun javar] av] lena] nea];
    destruct pat as [[[igfun jgvar] leng] neg]; reflexivity.
Qed.

(* ================================================================== *)
(** * Further properties of the adapter                                *)
(* ================================================================== *)

(* ------------------------------------------------------------------ *)
(** ** Variable bounds                                                 *)
(* ------------------------------------------------------------------ *)

(** The loop of [fill_xlow_xupp] over the bounds not yet copied. *)
Lemma xlow_xupp_loop (bounds rest : list interval_t) :
  forall (pre : list interval_t) (pl pu l u : vector_t),
    bounds = pre ++ rest ->
    length pl = length pre -> length pu = length pre ->
    length l = length rest -> length u = length rest ->
    for_each (seq (length pre) (length rest))
      (fun i st =>
         let '(xlow, xupp) := st in
         bd <- get_at i bounds ;;
         xlow <- set_at i (fst bd) xlow ;;
         xupp <- set_at i (snd bd) xupp ;;
         Ok (xlow, xupp))
      (pl ++ l, pu ++ u) =
    Ok (pl ++ map fst rest, pu ++ map snd rest).
Proof.
  induction rest as [| b rest IH]; intros pre pl pu l u Hb Hpl Hpu Hl Hu.
  - destruct l; [| discriminate]. destruct u; [| discriminate]. reflexivity.
  - destruct l as [| x l]; [discriminate |].
    destruct u as [| y u]; [discriminate |].
    cbn [length seq for_each].
    assert (Hget : get_at (length pre) bounds = Ok b)
      by (rewrite Hb; apply get_at_app; reflexivity).
    rewrite Hget. cbn [bind].
    rewrite (set_at_app_at pl x (fst b) l Hpl). cbn [bind].
    rewrite (set_at_app_at pu y (snd b) u Hpu). cbn [bind].
    replace (pl ++ fst b :: l) with ((pl ++ [fst b]) ++ l)
      by now rewrite <- app_assoc.
    replace (pu ++ snd b :: u) with ((pu ++ [snd b]) ++ u)
      by now rewrite <- app_assoc.
    replace (S (length pre)) with (length (pre ++ [b]))
      by (rewrite length_app; simpl; lia).
    rewrite (IH (pre ++ [b])).
    + cbn [map]. now rewrite <- !app_assoc.
    + now rewrite <- app_assoc.
    + rewrite !length_app. simpl. lia.
    + rewrite !length_app. simpl. lia.
    + simpl in Hl. lia.
    + simpl in Hu. lia.
Qed.

(** X1. [fill_xlow_xupp] copies the argument bounds one for one, whatever
    the arrays held before: the lower bounds into [xlow_], the upper
    bounds into [xupp_]; when the problem does not have [n_] argument
    bounds, its assertion fails. *)
Theorem fill_xlow_xupp_copies_bounds (pb : problem_t) (n : nat)
  (xlow xupp : vector_t) :
  fill_xlow_xupp pb n xlow xupp =
    if length (argumentBounds pb) =? n
    then Ok (map fst (argumentBounds pb), map snd (argumentBounds pb))
    else AssertFail "problem ().argumentBounds ().size () == n_".
Proof.
  unfold fill_xlow_xupp.
  destruct (Nat.eqb_spec (length (argumentBounds pb)) n) as [Hn | Hn];
    [| reflexivity].
  cbn [assert bind]. subst n.
  apply (@xlow_xupp_loop (argumentBounds pb) (argumentBounds pb) [] [] []);
    try reflexivity; apply resize_eigen_length.
Qed.

(* ------------------------------------------------------------------ *)
(** ** The coordinate list of the linear part                          *)
(* ------------------------------------------------------------------ *)

(** The second loop of [fill_iafun_javar_lena_nea]: the three vectors
    grow together, [javar_] by the one-based columns and [a_] by the
    values of the stored coefficients of the linear constraints. *)
Lemma linear_entries_loop (cs : list constraint_t) :
  forall (offset : nat) (iafun javar : list nat) (a : vector_t),
    let E := flat_map (fun c => match c with
                                | Linear _ A _ => entries A
                                | Nonlinear _ _ _ _ => []
                                end) cs in
    exists offset' iafun',
      fold_left
        (fun ost cstr =>
           let '(offset, st) := ost in
           match cstr with
           | Nonlinear _ _ _ _ => (offset, st)
           | Linear _ A _ => (offset + rows A, push_linear_entries offset A st)
           end)
        cs (offset, (iafun, javar, a)) =
      (offset', (iafun',
                 javar ++ map (fun it => e_col it + 1) E,
                 a ++ map e_value E)) /\
      length iafun' = length iafun + length E.
Proof.
  induction cs as [| c cs IH]; intros offset iafun javar a; cbn zeta.
  - exists offset, iafun. simpl. rewrite !app_nil_r. split; [reflexivity | lia].
  - cbn [fold_left flat_map].
    destruct c as [nm A b | nm m value jacobian].
    + rewrite push_linear_entries_block.
      destruct (IH (offset + rows A)
                  (iafun ++ map (fun it => offset + e_row it + 1) (entries A))
                  (javar ++ map (fun it => e_col it + 1) (entries A))
                  (a ++ map e_value (entries A)))
        as (offset' & iafun' & Heq & Hlen).
      exists offset', iafun'. cbn zeta in Heq. unfold vector_t in *.
      rewrite Heq.
      rewrite !map_app, <- !app_assoc. split; [reflexivity |].
      rewrite Hlen, !length_app, length_map. lia.
    + destruct (IH offset iafun javar a) as (offset' & iafun' & Heq & Hlen).
      exists offset', iafun'. split; assumption.
Qed.

(** X2. [fill_iafun_javar_lena_nea] returns three arrays of the same
    length [lena_], which is at least one; [nea_] is the number of stored
    coefficients of the linear constraints, [javar_] holds their
    one-based columns and [a_] their values, in list order.  When no
    coefficient is stored, the arrays are the placeholder of one zero
    entry and [nea_] is zero. *)
Theorem fill_iafun_coordinate_list (pb : problem_t) :
  let '(iafun, javar, a, lena, nea) := fill_iafun_javar_lena_nea pb in
  nea = length (linear_entries pb) /\
  lena = Nat.max 1 nea /\
  length iafun = lena /\ length javar = lena /\ length a = lena /\
  firstn nea javar = map (fun it => e_col it + 1) (linear_entries pb) /\
  firstn nea a = map e_value (linear_entries pb) /\
  (nea = 0 -> iafun = [0] /\ javar = [0] /\ a = [0%float]).
Proof.
  unfold fill_iafun_javar_lena_nea, linear_entries.
  set (E := flat_map _ (constraints pb)).
  match goal with
  | |- context [fold_left ?step (constraints pb) (?o, ([], [], []))] =>
      destruct (linear_entries_loop (constraints pb) o [] [] [])
        as (offset' & iafun' & Heq & Hlen)
  end.
  cbn zeta in Heq, Hlen. fold E in Heq, Hlen. cbn [app length] in Heq, Hlen.
  unfold vector_t in *. rewrite Heq.
  destruct (Nat.eqb_spec (length iafun') 0) as [Hzero | Hpos].
  - assert (HE : E = []) by (destruct E; [reflexivity | simpl in Hlen; lia]).
    rewrite HE. destruct iafun'; [| discriminate]. cbn.
    repeat split; reflexivity.
  - simpl in Hlen. rewrite !length_map.
    repeat split; try reflexivity; try lia.
    + rewrite Hlen, <- (length_map (fun it => e_col it + 1) E).
      apply firstn_all.
    + rewrite Hlen, <- (length_map e_value E). apply firstn_all.
Qed.

(* ------------------------------------------------------------------ *)
(** ** The coordinate list of the nonlinear part                       *)
(* ------------------------------------------------------------------ *)

(** The constraint loop of [fill_igfun_jgvar_leng_neg]: the two vectors
    grow together, [jgvar_] by the one-based columns of the stored
    coefficients, and [neg_] counts them. *)
Lemma nonlinear_entries_loop (pb : problem_t) (n : nat)
  (l : list (nat * constraint_t)) :
  forall (offset neg : nat) (igfun jgvar : list nat) (st' : pattern_state),
    for_each l (pattern_nonlinear pb n) (offset, neg, (igfun, jgvar)) = Ok st' ->
    let E := flat_map
               (fun ic =>
                  match snd ic with
                  | Linear _ _ _ => []
                  | Nonlinear _ _ _ jacobian =>
                      entries (jacobian (pattern_point pb n (fst ic)))
                  end) l in
    exists offset' igfun',
      st' = (offset', neg + length E,
             (igfun', jgvar ++ map (fun it => e_col it + 1) E)) /\
      length igfun' = length igfun + length E.
Proof.
  induction l as [| [id c] l IH]; intros offset neg igfun jgvar st' Hrun;
    cbn zeta.
  - simpl in *. injection Hrun as <-. exists offset, igfun.
    rewrite app_nil_r, !Nat.add_0_r. split; reflexivity.
  - cbn [for_each] in Hrun. inv_bind Hrun. cbn [flat_map fst snd].
    destruct c as [nm A b | nm m value jacobian].
    + cbn [pattern_nonlinear] in Ha. injection Ha as <-.
      apply IH in Hrun. exact Hrun.
    + cbn [pattern_nonlinear] in Ha. inv_bind Ha. injection Ha as <-.
      assert (Hpt : pattern_point pb n id = a0)
        by (unfold pattern_point; now rewrite Ha0).
      rewrite push_pattern_entries_block in Hrun.
      apply IH in Hrun. cbn zeta in Hrun.
      destruct Hrun as (offset' & igfun' & -> & Hlen).
      exists offset', igfun'. rewrite Hpt.
      rewrite !map_app, !length_app, <- !app_assoc.
      rewrite length_app, length_map in Hlen. unfold nonZeros.
      split; [| lia]. do 2 f_equal. lia.
Qed.

(** X3. When [fill_igfun_jgvar_leng_neg] returns, its two arrays have the
    same length [leng_], which is at least one; [neg_] is the number of
    stored coefficients of the objective Jacobian and of the Jacobians of
    the nonlinear constraints at the points where they were evaluated,
    and [jgvar_] holds their one-based columns in this order.  When no
    coefficient is stored, the arrays are the placeholder of one zero
    entry and [neg_] is zero. *)
Theorem fill_igfun_coordinate_list (pb : problem_t) (n : nat)
  (igfun jgvar : list nat) (leng neg : nat) :
  fill_igfun_jgvar_leng_neg pb n = Ok (igfun, jgvar, leng, neg) ->
  neg = length (nonlinear_entries pb n) /\
  leng = Nat.max 1 neg /\
  length igfun = leng /\ length jgvar = leng /\
  firstn neg jgvar = map (fun it => e_col it + 1) (nonlinear_entries pb n) /\
  (neg = 0 -> igfun = [0] /\ jgvar = [0]).
Proof.
  unfold fill_igfun_jgvar_leng_neg, nonlinear_entries.
  destruct (f_jacobian (function pb)) as [jacobian |]; [| discriminate].
  intros H. inv_bind H.
  rewrite push_pattern_entries_block in Ha. cbn [app] in Ha.
  apply nonlinear_entries_loop in Ha. cbn zeta in Ha.
  destruct Ha as (offset' & igfun' & -> & Hlen).
  set (E0 := entries (jacobian (lookForX pb n))) in *.
  set (E := flat_map _ (enumerate (constraints pb))) in *.
  assert (Hlen' : length igfun' = length (E0 ++ E))
    by (rewrite length_app; simpl in Hlen; rewrite length_map in Hlen; exact Hlen).
  clear Hlen. unfold nonZeros in H. fold E0 in H.
  assert (Hcols : map (fun it => e_col it + 1) E0 ++ map (fun it => e_col it + 1) E
                  = map (fun it => e_col it + 1) (E0 ++ E))
    by now rewrite map_app.
  rewrite Hcols in H.
  assert (Hcount : 0 + length E0 + length E = length (E0 ++ E))
    by (rewrite length_app; lia).
  rewrite Hcount in H.
  destruct (Nat.eqb_spec (length igfun') 0) as [Hzero | Hpos];
    injection H as <- <- <- <-.
  - assert (HE : E0 ++ E = []) by (apply length_zero_iff_nil; lia).
    rewrite HE. destruct igfun'; [| discriminate]. cbn.
    repeat split; reflexivity.
  - rewrite length_map.
    repeat split; try lia.
    rewrite <- (length_map (fun it => e_col it + 1) (E0 ++ E)).
    apply firstn_all.
Qed.

Lemma fill_igfun_coordinate_list_witness :
  fill_igfun_jgvar_leng_neg problem_mixed 1 = Ok ([1; 2], [1; 1], 2, 2) /\
  2 = length (nonlinear_entries problem_mixed 1) /\
  2 = Nat.max 1 2 /\
  length [1; 2] = 2 /\ length [1; 1] = 2 /\
  firstn 2 [1; 1]
    = map (fun it => e_col it + 1) (nonlinear_entries problem_mixed 1) /\
  (2 = 0 -> [1; 2] = [0] /\ [1; 1] = [0]).
Proof.
  assert (H : fill_igfun_jgvar_leng_neg problem_mixed 1
              = Ok ([1; 2], [1; 1], 2, 2)) by (vm_compute; reflexivity).
  split; [exact H |].
  exact (@fill_igfun_coordinate_list problem_mixed 1 _ _ _ _ H).
Defined.

(* ------------------------------------------------------------------ *)
(** ** Row bounds: nonlinear rows, the objective row, no constraint    *)
(* ------------------------------------------------------------------ *)

(** X4. For a nonlinear constraint at position [id] of a problem whose
    bounds are declared, with [(lo, hi)] the declared pair of its output
    [i], the assembly returns and the combined row of this output, row
    [i] of the block of the constraint, holds before the consistency loop
    exactly [lo] and [hi]: the declared bounds are copied unchanged. *)
Theorem nonlinear_row_bounds_are_copied (pb : problem_t) (id : nat)
  (name : string) (m : nat) (value : vector_t -> vector_t)
  (jacobian : vector_t -> matrix_t) (i : nat) (lo hi : float) :
  well_formed pb -> outputSize (function pb) = 1 ->
  nth_error (constraints pb) id = Some (Nonlinear name m value jacobian) ->
  i < m ->
  nth_error (nth id (boundsVector pb) []) i = Some (lo, hi) ->
  exists flow fupp,
    assemble_flow_fupp pb (compute_nf pb) = Ok (flow, fupp) /\
    nth_error (row_layout pb) (nonlinear_offset pb id + i)
      = Some (RowConstraint id i) /\
    nth_error flow (nonlinear_offset pb id + i) = Some lo /\
    nth_error fupp (nonlinear_offset pb id + i) = Some hi.
Proof.
  intros Hwf Hobj Hc Hi Hbd.
  pose proof (@row_layout_index pb id (Nonlinear name m value jacobian) i Hc Hi)
    as Hrow.
  unfold row_index in Hrow. rewrite Hc in Hrow. cbn [isLinear] in Hrow.
  assert (Hbound : row_bound pb (RowConstraint id i) = (lo, hi)).
  { unfold row_bound, declared_bound. rewrite Hc.
    apply (nth_error_nth _ _ _ Hbd). }
  eexists. eexists. split; [apply assemble_flow_fupp_layout; assumption |].
  split; [exact Hrow |].
  split; rewrite nth_error_map, Hrow; cbn [option_map]; now rewrite Hbound.
Qed.

Lemma nonlinear_row_bounds_are_copied_witness :
  well_formed problem_mixed /\
  outputSize (function problem_mixed) = 1 /\
  nth_error (constraints problem_mixed) 0 = Some square_constraint /\
  0 < 1 /\
  nth_error (nth 0 (boundsVector problem_mixed) []) 0
    = Some (2%float, 4%float) /\
  exists flow fupp,
    assemble_flow_fupp problem_mixed (compute_nf problem_mixed)
      = Ok (flow, fupp) /\
    nth_error (row_layout problem_mixed) 1 = Some (RowConstraint 0 0) /\
    nth_error flow 1 = Some 2%float /\
    nth_error fupp 1 = Some 4%float.
Proof.
  split; [exact problem_mixed_well_formed |].
  split; [reflexivity |]. split; [reflexivity |]. split; [lia |].
  split; [reflexivity |].
  exact (@nonlinear_row_bounds_are_copied problem_mixed 0 "g" 1
           (fun x => [(at0 x * at0 x)%float])
           (fun x => {| cols := 1; outer := [[(0, (2 * at0 x)%float)]] |})
           0 2%float 4%float
           problem_mixed_well_formed eq_refl eq_refl
           (Nat.lt_0_succ 0) eq_refl).
Defined.

(** The pair of the objective row goes through the consistency loop
    unchanged and passes its assertion. *)
Lemma snap_pair_unbounded :
  snap_pair ((- infinity)%float, infinity) = (neg_infinity, infinity) /\
  consistent (neg_infinity, infinity) = true.
Proof. split; vm_compute; reflexivity. Qed.

(** X5. Whenever [fill_flow_fupp] returns on a problem whose assembly
    succeeds, row 0, the row of the objective, is unbounded: its lower
    bound is [-inf] and its upper bound is [+inf], also after the
    consistency loop. *)
Theorem objective_row_is_unbounded (pb : problem_t) (nf : nat)
  (flow fupp : vector_t) :
  fill_flow_fupp pb nf = Ok (flow, fupp) ->
  nth_error flow 0 = Some neg_infinity /\ nth_error fupp 0 = Some infinity.
Proof.
  unfold fill_flow_fupp. intros H. inv_bind H. destruct a as [fl fu].
  destruct (assemble_flow_fupp_lengths _ _ Ha) as [Hl Hu].
  assert (Hrow0 : nth_error fl 0 = Some (- infinity)%float /\
                  nth_error fu 0 = Some infinity).
  { unfold assemble_flow_fupp in Ha.
    inv_bind Ha. inv_bind Ha. inv_bind Ha. inv_bind Ha.
    destruct a2 as [[offset fl'] fu']. inv_bind Ha. injection Ha as <- <-.
    set (P := fun st : rows_state =>
                1 <= fst (fst st) /\
                nth_error (snd (fst st)) 0 = Some (- infinity)%float /\
                nth_error (snd st) 0 = Some infinity).
    assert (Hput : forall lo up st st',
               P st -> put_row lo up st = Ok st' -> P st').
    { intros lo up [[o l] u] st' (Ho & H0l & H0u) Hstep.
      unfold P. cbn [fst snd] in *. unfold put_row, set_at in Hstep.
      destruct (o <? length l); [| discriminate]. cbn [bind] in Hstep.
      destruct (o <? length u); [| discriminate]. cbn [bind] in Hstep.
      injection Hstep as <-. cbn [fst snd].
      destruct o as [| o]; [lia |].
      destruct l; [discriminate |]. destruct u; [discriminate |].
      cbn [replace_at nth_error] in *. repeat split; try assumption. lia. }
    assert (Hinner : forall (l : list nat)
                       (body : nat -> rows_state -> outcome rows_state),
               (forall i st st', P st -> body i st = Ok st' -> P st') ->
               forall st st', P st -> for_each l body st = Ok st' -> P st').
    { intros l body Hbody st st' Hst Hrun.
      eapply (for_each_invariant P); [| exact Hst | exact Hrun].
      intros i s s' _. apply Hbody. }
    assert (H1 : P a1).
    { eapply (for_each_invariant P); [| | exact Ha2].
      - intros [id c] s s' _ Hs Hbody. unfold flow_fupp_nonlinear in Hbody.
        destruct c as [nm A b | nm m value jacobian].
        + injection Hbody as <-. exact Hs.
        + eapply Hinner; [| exact Hs | exact Hbody].
          intros i st st' Hst Hstep. inv_bind Hstep.
          eapply Hput; eassumption.
      - unfold P. cbn [fst snd]. unfold set_at in Ha0, Ha1.
        destruct (zeros nf) as [| z zs]; [discriminate |].
        cbn in Ha0, Ha1. injection Ha0 as <-. injection Ha1 as <-.
        repeat split; reflexivity || lia. }
    assert (H2 : P (offset, fl', fu')).
    { eapply (for_each_invariant P); [| exact H1 | exact Ha3].
      intros [id c] s s' _ Hs Hbody. unfold flow_fupp_linear in Hbody.
      destruct c as [nm A b | nm m value jacobian].
      - eapply Hinner; [| exact Hs | exact Hbody].
        intros i st st' Hst Hstep. inv_bind Hstep. inv_bind Hstep.
        eapply Hput; eassumption.
      - injection Hbody as <-. exact Hs. }
    destruct H2 as (_ & H0l & H0u). split; assumption. }
  destruct Hrow0 as [H0l H0u].
  rewrite (@snap_flow_fupp_rows nf fl fu Hl Hu) in H.
  destruct (forallb consistent (map snap_pair (combine fl fu))); [| discriminate].
  injection H as <- <-.
  rewrite !nth_error_map. unfold interval_t.
  rewrite (nth_error_combine fl fu 0), H0l, H0u. cbn [option_map].
  rewrite (proj1 snap_pair_unbounded). split; reflexivity.
Qed.

Lemma objective_row_is_unbounded_witness :
  fill_flow_fupp problem_mixed 3
    = Ok ([neg_infinity; 2%float; 0.5%float], [infinity; 4%float; 0.5%float]) /\
  nth_error [neg_infinity; 2%float; 0.5%float] 0 = Some neg_infinity /\
  nth_error [infinity; 4%float; 0.5%float] 0 = Some infinity.
Proof.
  assert (H : fill_flow_fupp problem_mixed 3
              = Ok ([neg_infinity; 2%float; 0.5%float],
                    [infinity; 4%float; 0.5%float]))
    by (vm_compute; reflexivity).
  split; [exact H |].
  exact (@objective_row_is_unbounded problem_mixed 3 _ _ H).
Defined.

(** X6. A problem without constraints whose objective has one output has
    a single combined row, and [fill_flow_fupp] returns for it with the
    bounds [-inf] and [+inf]. *)
Theorem no_constraint_single_unbounded_row (pb : problem_t) :
  constraints pb = [] -> outputSize (function pb) = 1 ->
  compute_nf pb = 1 /\
  fill_flow_fupp pb (compute_nf pb) = Ok ([neg_infinity], [infinity]).
Proof.
  intros Hc Hobj.
  assert (Hnf : compute_nf pb = 1)
    by (unfold compute_nf; rewrite Hc, Hobj; reflexivity).
  split; [exact Hnf |].
  rewrite Hnf. unfold fill_flow_fupp, assemble_flow_fupp. rewrite Hc.
  vm_compute. reflexivity.
Qed.

Lemma no_constraint_single_unbounded_row_witness :
  constraints problem_free = [] /\
  outputSize (function problem_free) = 1 /\
  compute_nf problem_free = 1 /\
  fill_flow_fupp problem_free (compute_nf problem_free)
    = Ok ([neg_infinity], [infinity]).
Proof.
  split; [reflexivity |]. split; [reflexivity |].
  exact (@no_constraint_single_unbounded_row problem_free eq_refl eq_refl).
Defined.

(* ------------------------------------------------------------------ *)
(** ** The consistency loop is idempotent                              *)
(* ------------------------------------------------------------------ *)

Lemma snap_pair_idempotent (r : interval_t) :
  snap_pair (snap_pair r) = snap_pair r.
Proof.
  destruct r as [lo up].
  destruct (snap_pair_post lo up) as (Hl & Hu & He).
  destruct (snap_pair (lo, up)) as [lo' up']. cbn [fst snd] in *.
  assert (Hzl : snap_zero lo' = lo').
  { unfold snap_zero. destruct (abs lo' <? tolerance)%float;
      [symmetry; apply Hl; reflexivity | reflexivity]. }
  assert (Hzu : snap_zero up' = up').
  { unfold snap_zero. destruct (abs up' <? tolerance)%float;
      [symmetry; apply Hu; reflexivity | reflexivity]. }
  unfold snap_pair. cbn [fst snd]. rewrite Hzl, Hzu.
  destruct (abs (lo' - up') <? tolerance)%float;
    [rewrite (He eq_refl) |]; reflexivity.
Qed.

Lemma combine_fst_snd {A B : Type} (l : list (A * B)) :
  combine (map fst l) (map snd l) = l.
Proof.
  induction l as [| [a b] l IH]; simpl; [reflexivity | now rewrite IH].
Qed.

(** X7. The consistency loop is idempotent: run again on the arrays it
    returned, it returns them unchanged. *)
Theorem snap_flow_fupp_idempotent (nf : nat) (flow fupp flow' fupp' : vector_t) :
  length flow = nf -> length fupp = nf ->
  snap_flow_fupp nf (flow, fupp) = Ok (flow', fupp') ->
  snap_flow_fupp nf (flow', fupp') = Ok (flow', fupp').
Proof.
  intros Hl Hu H. rewrite (@snap_flow_fupp_rows nf flow fupp Hl Hu) in H.
  set (rows := map snap_pair (combine flow fupp)) in *.
  destruct (forallb consistent rows) eqn:Hall; [| discriminate].
  injection H as <- <-.
  assert (Hlen : length rows = nf).
  { unfold rows. rewrite length_map. unfold interval_t.
    rewrite length_combine. lia. }
  rewrite snap_flow_fupp_rows by (rewrite length_map; exact Hlen).
  rewrite combine_fst_snd.
  assert (Hidem : map snap_pair rows = rows).
  { unfold rows. rewrite map_map. apply map_ext. intros r.
    apply snap_pair_idempotent. }
  rewrite Hidem, Hall. reflexivity.
Qed.

Lemma snap_flow_fupp_idempotent_witness :
  length [neg_infinity; 1e-7%float] = 2 /\
  length [infinity; 2e-7%float] = 2 /\
  snap_flow_fupp 2 ([neg_infinity; 1e-7%float], [infinity; 2e-7%float])
    = Ok ([neg_infinity; 0%float], [infinity; 0%float]) /\
  snap_flow_fupp 2 ([neg_infinity; 0%float], [infinity; 0%float])
    = Ok ([neg_infinity; 0%float], [infinity; 0%float]).
Proof.
  assert (H : snap_flow_fupp 2
                ([neg_infinity; 1e-7%float], [infinity; 2e-7%float])
              = Ok ([neg_infinity; 0%float], [infinity; 0%float]))
    by (vm_compute; reflexivity).
  split; [reflexivity |]. split; [reflexivity |]. split; [exact H |].
  exact (@snap_flow_fupp_idempotent 2
           [neg_infinity; 1e-7%float] [infinity; 2e-7%float]
           [neg_infinity; 0%float] [infinity; 0%float] eq_refl eq_refl H).
Defined.

(* ------------------------------------------------------------------ *)
(** ** The callback: what a call leaves alone, and when it throws      *)
(* ------------------------------------------------------------------ *)

(** X8. A non-terminal call of the callback that returns has left alone
    what was not requested: the value array [f] when values were not
    requested, the Jacobian array [g] when the Jacobian was not
    requested, and the solver state when no monitor is registered. *)
Theorem usrfun_leaves_unrequested_alone (pb : problem_t)
  (callback : option callback_t) (status : Z) (n : nat) (x : vector_t)
  (needf : Z) (nf : nat) (needg : Z) (leng : nat) (mem mem' : memory) :
  (status < 2)%Z ->
  usrfun pb callback status n x needf nf needg leng mem = Ok mem' ->
  ((needf <= 0)%Z -> m_f mem' = m_f mem) /\
  ((needg <= 0)%Z -> m_g mem' = m_g mem) /\
  (callback = None -> m_solverState mem' = m_solverState mem).
Proof.
  intros Hstatus H. rewrite usrfun_nonterminal in H by exact Hstatus.
  inv_bind H. inv_bind H. injection H as <-.
  assert (Hmon : m_f (usrfun_monitor pb callback (firstn n x) a0) = m_f a0 /\
                 m_g (usrfun_monitor pb callback (firstn n x) a0) = m_g a0)
    by (unfold usrfun_monitor; destruct callback; split; reflexivity).
  destruct Hmon as [Hmf Hmg]. rewrite Hmf, Hmg.
  assert (Hv : ((needf <= 0)%Z -> m_f a = m_f mem) /\
               m_g a = m_g mem /\ m_solverState a = m_solverState mem).
  { destruct (Z.gtb_spec needf 0) as [Hf | Hf].
    - apply usrfun_values_frame in Ha. destruct Ha as (Hg & Hs & _).
      repeat split; try assumption. intros; lia.
    - injection Ha as <-. repeat split. }
  assert (Hj : m_f a0 = m_f a /\
               ((needg <= 0)%Z -> m_g a0 = m_g a) /\
               m_solverState a0 = m_solverState a).
  { destruct (Z.gtb_spec needg 0) as [Hg | Hg].
    - apply usrfun_gradients_stores in Ha0. destruct Ha0 as (Hf & Hs & _).
      cbn [snd] in *. repeat split; try assumption. intros; lia.
    - injection Ha0 as <-. repeat split. }
  destruct Hv as (Hvf & Hvg & Hvs). destruct Hj as (Hjf & Hjg & Hjs).
  repeat split.
  - intros Hf. rewrite Hjf. apply Hvf. exact Hf.
  - intros Hg. rewrite (Hjg Hg). exact Hvg.
  - intros ->. unfold usrfun_monitor. congruence.
Qed.

Lemma usrfun_leaves_unrequested_alone_witness :
  (0 < 2)%Z /\
  exists mem',
    usrfun problem_mixed None 0 1 [7%float] 1 3 0 2 (fresh_memory 3 2)
      = Ok mem' /\
    m_f mem' = [7%float; 49%float; 0%float] /\
    ((1 <= 0)%Z -> m_f mem' = m_f (fresh_memory 3 2)) /\
    ((0 <= 0)%Z -> m_g mem' = m_g (fresh_memory 3 2)) /\
    (@None callback_t = None ->
     m_solverState mem' = m_solverState (fresh_memory 3 2)).
Proof.
  split; [lia |]. eexists. split; [vm_compute; reflexivity |].
  split; [reflexivity |].
  apply (@usrfun_leaves_unrequested_alone problem_mixed None 0 1 [7%float]
           1 3 0 2 (fresh_memory 3 2) _ ltac:(lia)).
  vm_compute. reflexivity.
Defined.

(** X9. The code of the callback raises an exception in one situation
    only: a non-terminal call that requests the Jacobian of an objective
    that is not differentiable, and the exception is then "objective
    function should be differentiable".  Such a call never returns: it
    throws at once when values are not requested, and as soon as the
    value branch has returned when they are. *)
Theorem usrfun_jacobian_needs_differentiable_objective (pb : problem_t)
  (callback : option callback_t) (status : Z) (n : nat) (x : vector_t)
  (needf : Z) (nf : nat) (needg : Z) (leng : nat) (mem : memory) :
  ((status < 2)%Z -> (0 < needg)%Z ->
   f_jacobian (function pb) = None ->
   (forall mem',
       usrfun pb callback status n x needf nf needg leng mem <> Ok mem') /\
   ((needf <= 0)%Z ->
    usrfun pb callback status n x needf nf needg leng mem
      = Throw "objective function should be differentiable") /\
   (forall mem1,
       usrfun_values pb (firstn n x) nf mem = Ok mem1 ->
       usrfun pb callback status n x needf nf needg leng mem
         = Throw "objective function should be differentiable")) /\
  (forall what,
      usrfun pb callback status n x needf nf needg leng mem = Throw what ->
      (status < 2)%Z /\ (0 < needg)%Z /\
      f_jacobian (function pb) = None /\
      what = "objective function should be differentiable").
Proof.
  split.
  - intros Hstatus Hneedg Hobj. rewrite usrfun_nonterminal by exact Hstatus.
    destruct (Z.gtb_spec needg 0) as [_ | Hle]; [| lia].
    assert (Hthrow : forall m,
               usrfun_gradients pb (firstn n x) leng m
                 = Throw "objective function should be differentiable").
    { intros m. unfold usrfun_gradients, usrfun_gradient_loops.
      rewrite Hobj. reflexivity. }
    split; [| split].
    + intros mem' H. inv_bind H. inv_bind H. rewrite Hthrow in Ha0.
      discriminate.
    + intros Hf. destruct (Z.gtb_spec needf 0) as [Hf' | _]; [lia |].
      cbn [bind]. rewrite Hthrow. reflexivity.
    + intros mem1 Hv. destruct (needf >? 0)%Z.
      * rewrite Hv. cbn [bind]. rewrite Hthrow. reflexivity.
      * cbn [bind]. rewrite Hthrow. reflexivity.
  - intros what H.
    destruct (Z.lt_ge_cases status 2) as [Hstatus | Hstatus].
    2:{ unfold usrfun in H.
        destruct (Z.geb_spec status 2) as [_ | Hlt]; [discriminate | lia]. }
    rewrite usrfun_nonterminal in H by exact Hstatus.
    destruct (if (needf >? 0)%Z then usrfun_values pb (firstn n x) nf mem
              else Ok mem) as [mem1 | w | w] eqn:Hv; cbn [bind] in H.
    + destruct (Z.gtb_spec needg 0) as [Hneedg | _]; [| discriminate].
      destruct (f_jacobian (function pb)) as [jacobian |] eqn:Hj.
      * exfalso.
        assert (Hno : no_throw (usrfun_gradients pb (firstn n x) leng mem1)).
        { unfold usrfun_gradients. apply no_throw_bind.
          - exact (@no_throw_gradient_loops _ _ _ _ _ Hj).
          - intros [offset mem2] _. no_throw_auto. }
        destruct (usrfun_gradients pb (firstn n x) leng mem1)
          as [mem2 | w | w] eqn:Hg; cbn [bind] in H; try discriminate.
        exact (Hno w eq_refl).
      * unfold usrfun_gradients, usrfun_gradient_loops in H.
        rewrite Hj in H. cbn [bind] in H. injection H as <-.
        repeat split; assumption || lia.
    + discriminate.
    + exfalso. destruct (needf >? 0)%Z; [| discriminate].
      exact (@no_throw_values pb (firstn n x) nf mem w Hv).
Qed.

Lemma usrfun_jacobian_needs_differentiable_objective_witness :
  (0 < 2)%Z /\ (0 < 1)%Z /\
  f_jacobian (function problem_plain) = None /\
  usrfun problem_plain (Some idle_monitor) 0 1 [7%float] 0 1 1 1
    (fresh_memory 1 1)
    = Throw "objective function should be differentiable".
Proof.
  split; [lia |]. split; [lia |]. split; [reflexivity |].
  apply (proj1 (@usrfun_jacobian_needs_differentiable_objective problem_plain
                  (Some idle_monitor) 0 1 [7%float] 0 1 1 1
                  (fresh_memory 1 1))
           ltac:(lia) ltac:(lia) eq_refl).
  lia.
Defined.

(* ------------------------------------------------------------------ *)
(** ** [solve]: errors raised before the solver is called              *)
(* ------------------------------------------------------------------ *)











Lemma combine_map_fst_snd {A B C : Type} (f : A -> B * C) (l : list A) :
  combine (map (fun a => fst (f a)) l) (map (fun a => snd (f a)) l) = map f l.
Proof.
  induction l as [| a l IH]; simpl; [reflexivity |].
  rewrite IH. now destruct (f a).
Qed.

(** The closed form of [fill_flow_fupp] on a problem whose objective has
    one output and whose bounds are declared: the snapped bound pairs of
    the rows in layout order, or a failed assertion when one of them is
    inconsistent. *)
Lemma fill_flow_fupp_closed (pb : problem_t) :
  well_formed pb -> outputSize (function pb) = 1 ->
  fill_flow_fupp pb (compute_nf pb) =
    let rows := map snap_pair (map (row_bound pb) (row_layout pb)) in
    if forallb consistent rows
    then Ok (map fst rows, map snd rows)
    else AssertFail "flow_[id] <= fupp_[id]".
Proof.
  intros Hwf Hobj. unfold fill_flow_fupp.
  rewrite (assemble_flow_fupp_layout Hwf Hobj). cbn [bind].
  assert (Hlen : length (row_layout pb) = compute_nf pb)
    by (rewrite row_layout_length, compute_nf_sum, Hobj; reflexivity).
  rewrite snap_flow_fupp_rows by (rewrite length_map; exact Hlen).
  unfold interval_t. rewrite (combine_map_fst_snd (row_bound pb)).
  reflexivity.
Qed.

(** X11. On a problem whose objective has one output and whose bounds
    are declared, when the bound pair of some row is still not
    [lower <= upper] once snapped, [solve] stops at the assertion of the
    consistency loop whatever the external solver is: the solver is never
    called. *)
Theorem solve_rejects_inconsistent_bounds
  (nag : nag_in -> usrfun_t -> solverState_t -> outcome (nag_out * solverState_t))
  (s : solver_t) (pat : list nat * list nat * nat * nat) (r : row_t) :
  outputSize (function (problem s)) = 1 ->
  well_formed (problem s) ->
  length (argumentBounds (problem s)) = n_ s ->
  fill_igfun_jgvar_leng_neg (problem s) (n_ s) = Ok pat ->
  In r (row_layout (problem s)) ->
  consistent (snap_pair (row_bound (problem s) r)) = false ->
  solve nag s = AssertFail "flow_[id] <= fupp_[id]".
Proof.
  intros Hobj Hwf Hbounds Hpat Hr Hbad.
  unfold solve, prepare. rewrite Hpat.
  destruct (fill_xlow_xupp_total (problem s) (xlow_ s) (xupp_ s) Hbounds)
    as [xb Hxb].
  rewrite Hxb, (fill_flow_fupp_closed Hwf Hobj). cbn zeta.
  assert (Hall : forallb consistent
                   (map snap_pair
                      (map (row_bound (problem s)) (row_layout (problem s))))
                 = false).
  { destruct (forallb consistent _) eqn:Hall; [| reflexivity].
    rewrite forallb_forall in Hall.
    rewrite (Hall (snap_pair (row_bound (problem s) r))) in Hbad;
      [discriminate |].
    apply in_map, in_map. exact Hr. }
  rewrite Hall.
  destruct ((compute_nf (problem s) =? 1) || (n_ s =? 1));
    destruct (fill_iafun_javar_lena_nea (problem s))
      as [[[[iafun javar] av] lena] nea];
    destruct pat as [[[igfun jgvar] leng] neg]; reflexivity.
Qed.

Lemma solve_rejects_inconsistent_bounds_witness :
  outputSize (function (problem (NagSolverNlpSparse problem_inverted))) = 1 /\
  well_formed problem_inverted /\
  length (argumentBounds problem_inverted) = 1 /\
  fill_igfun_jgvar_leng_neg problem_inverted 1 = Ok ([1; 2], [1; 1], 2, 2) /\
  In (RowConstraint 0 0) (row_layout problem_inverted) /\
  consistent (snap_pair (row_bound problem_inverted (RowConstraint 0 0)))
    = false /\
  solve (echo_solver 0 "") (NagSolverNlpSparse problem_inverted)
    = AssertFail "flow_[id] <= fupp_[id]".
Proof.
  assert (Hwf : well_formed problem_inverted)
    by (unfold well_formed, bounds_declared; repeat constructor; simpl; lia).
  assert (Hpat : fill_igfun_jgvar_leng_neg problem_inverted 1
                 = Ok ([1; 2], [1; 1], 2, 2)) by (vm_compute; reflexivity).
  assert (Hin : In (RowConstraint 0 0) (row_layout problem_inverted))
    by (right; left; reflexivity).
  assert (Hbad : consistent
                   (snap_pair (row_bound problem_inverted (RowConstraint 0 0)))
                 = false) by (vm_compute; reflexivity).
  split; [reflexivity |]. split; [exact Hwf |]. split; [reflexivity |].
  split; [exact Hpat |]. split; [exact Hin |]. split; [exact Hbad |].
  exact (@solve_rejects_inconsistent_bounds (echo_solver 0 "")
           (NagSolverNlpSparse problem_inverted) _ _
           eq_refl Hwf eq_refl Hpat Hin Hbad).
Defined.

(* ------------------------------------------------------------------ *)
(** ** Where the Jacobian of a constraint is evaluated                 *)
(* ------------------------------------------------------------------ *)

(** The loop of [lookForX (constraintId)] over the coordinates not yet
    set. *)
Lemma lookForX_constraint_loop (pb : problem_t) (id : nat) (m : nat) :
  forall (k : nat) (p l : vector_t),
    length p = k -> length l = m ->
    k + m <= length (nth id (boundsVector pb) []) ->
    for_each (seq k m)
      (fun i x =>
         bd <- constraint_bound pb id i ;;
         set_at i (lookForX_coordinate bd) x)
      (p ++ l) =
    Ok (p ++ map (fun i => lookForX_coordinate (declared_bound pb id i))
                 (seq k m)).
Proof.
  induction m as [| m IH]; intros k p l Hp Hl Hb.
  - destruct l; [reflexivity | discriminate].
  - destruct l as [| x l]; [discriminate |].
    cbn [seq for_each map].
    rewrite constraint_bound_declared by lia. cbn [bind].
    rewrite (set_at_app_at p x _ l Hp). cbn [bind].
    replace (p ++ lookForX_coordinate (declared_bound pb id k) :: l)
      with ((p ++ [lookForX_coordinate (declared_bound pb id k)]) ++ l)
      by now rewrite <- app_assoc.
    rewrite (IH (S k)).
    + now rewrite <- app_assoc.
    + rewrite length_app. simpl. lia.
    + simpl in Hl. lia.
    + lia.
Qed.

Lemma lookForX_constraint_closed (pb : problem_t) (n id : nat) :
  startingPoint pb = None ->
  n <= length (nth id (boundsVector pb) []) ->
  lookForX_constraint pb n id =
    Ok (map (fun i => lookForX_coordinate (declared_bound pb id i)) (seq 0 n)).
Proof.
  intros Hsp Hn. unfold lookForX_constraint. rewrite Hsp.
  apply (@lookForX_constraint_loop pb id n 0 [] (zeros n));
    [reflexivity | apply repeat_length | exact Hn].
Qed.

(** X12. Without a starting point, when the constraint declares a bound
    pair for each of the [n_] indices the loop reads, [lookForX
    (constraintId)] returns a point of [n_] coordinates whose coordinate
    [i] is computed from the declared pair [i] of the constraint alone:
    the bound pairs of the outputs of the constraint are read at the
    indices of the variables, and the argument bounds are not read. *)
Theorem lookForX_constraint_reads_constraint_bounds (pb : problem_t)
  (n id : nat) :
  startingPoint pb = None ->
  n <= length (nth id (boundsVector pb) []) ->
  exists x,
    lookForX_constraint pb n id = Ok x /\
    length x = n /\
    forall i, i < n ->
      nth_error x i = Some (lookForX_coordinate (declared_bound pb id i)).
Proof.
  intros Hsp Hn. eexists. split; [apply lookForX_constraint_closed; assumption |].
  split; [now rewrite length_map, length_seq |].
  intros i Hi.
  rewrite nth_error_map, nth_error_seq.
  destruct (Nat.ltb_spec i n) as [_ | Hge]; [reflexivity | lia].
Qed.

Lemma lookForX_constraint_reads_constraint_bounds_witness :
  startingPoint problem_mixed = None /\
  1 <= length (nth 0 (boundsVector problem_mixed) []) /\
  exists x,
    lookForX_constraint problem_mixed 1 0 = Ok x /\
    length x = 1 /\
    forall i, i < 1 ->
      nth_error x i
        = Some (lookForX_coordinate (declared_bound problem_mixed 0 i)).
Proof.
  split; [reflexivity |]. split; [simpl; lia |].
  apply (@lookForX_constraint_reads_constraint_bounds problem_mixed 1 0);
    [reflexivity | simpl; lia].
Defined.

(* ------------------------------------------------------------------ *)
(** ** Reaching the external solver                                    *)
(* ------------------------------------------------------------------ *)

Lemma fill_xlow_xupp_closed (pb : problem_t) (n : nat) (xlow xupp : vector_t) :
  length (argumentBounds pb) = n ->
  fill_xlow_xupp pb n xlow xupp =
    Ok (map fst (argumentBounds pb), map snd (argumentBounds pb)).
Proof.
  intros Hn. unfold fill_xlow_xupp. rewrite Hn, Nat.eqb_refl.
  cbn [assert bind]. subst n.
  apply (@xlow_xupp_loop (argumentBounds pb) (argumentBounds pb) [] [] []);
    try reflexivity; apply resize_eigen_length.
Qed.

Lemma resize_std_length {A : Type} (d : A) (n : nat) (l : list A) :
  length (resize_std d n l) = n.
Proof.
  unfold resize_std. rewrite length_app, length_firstn, repeat_length. lia.
Qed.

(** The sizes of what [fill_iafun_javar_lena_nea] returns. *)
Lemma fill_iafun_sizes (pb : problem_t) :
  let '(iafun, javar, a, lena, nea) := fill_iafun_javar_lena_nea pb in
  length iafun = lena /\ length javar = lena /\ length a = lena /\ 1 <= lena.
Proof.
  unfold fill_iafun_javar_lena_nea.
  match goal with
  | |- context [fold_left ?step (constraints pb) (?o, ([], [], []))] =>
      destruct (linear_entries_loop (constraints pb) o [] [] [])
        as (offset' & iafun' & Heq & Hlen)
  end.
  cbn zeta in Heq, Hlen. cbn [app length] in Heq, Hlen.
  unfold vector_t in *. rewrite Heq.
  destruct (Nat.eqb_spec (length iafun') 0) as [Hzero | Hpos].
  - rewrite !resize_std_length. repeat split; lia.
  - simpl in Hlen. rewrite !length_map. repeat split; lia.
Qed.

(** The sizes of what [fill_igfun_jgvar_leng_neg] returns. *)
Lemma fill_igfun_sizes (pb : problem_t) (n : nat)
  (igfun jgvar : list nat) (leng neg : nat) :
  fill_igfun_jgvar_leng_neg pb n = Ok (igfun, jgvar, leng, neg) ->
  length igfun = leng /\ length jgvar = leng /\ 1 <= leng /\ neg <= leng.
Proof.
  unfold fill_igfun_jgvar_leng_neg.
  destruct (f_jacobian (function pb)) as [jacobian |]; [| discriminate].
  intros H. inv_bind H.
  rewrite push_pattern_entries_block in Ha. cbn [app] in Ha.
  apply nonlinear_entries_loop in Ha. cbn zeta in Ha.
  destruct Ha as (offset' & igfun' & -> & Hlen).
  rewrite length_map in Hlen. unfold nonZeros in H.
  destruct (Nat.eqb_spec (length igfun') 0) as [Hzero | Hpos];
    injection H as <- <- <- <-.
  - rewrite !resize_std_length. repeat split; lia.
  - rewrite length_app, !length_map. repeat split; lia.
Qed.

(** [fill_igfun_jgvar_leng_neg] returns as soon as the objective is
    differentiable and the points of evaluation are defined. *)
Lemma fill_igfun_total (pb : problem_t) (n : nat)
  (jacobian : vector_t -> matrix_t) :
  f_jacobian (function pb) = Some jacobian ->
  pattern_points_defined pb n ->
  exists pat, fill_igfun_jgvar_leng_neg pb n = Ok pat.
Proof.
  intros Hj Hpts. unfold fill_igfun_jgvar_leng_neg. rewrite Hj. cbn zeta.
  match goal with
  | |- context [for_each _ _ ?st0] =>
      destruct (@for_each_progress _ pattern_state (fun _ => True)
                  (pattern_nonlinear pb n) (enumerate (constraints pb)))
        with (s := st0) as (st' & Hrun & _)
  end.
  - intros [id c] [[offset neg] vecs] Hin _.
    destruct c as [nm A b | nm m value jac]; cbn [pattern_nonlinear].
    + eexists. split; [reflexivity | exact I].
    + assert (Hx : exists x, lookForX_constraint pb n id = Ok x).
      { unfold pattern_points_defined in Hpts.
        destruct (startingPoint pb) as [sp |] eqn:Hsp.
        - exists sp. unfold lookForX_constraint. now rewrite Hsp.
        - rewrite Forall_forall in Hpts.
          eexists. apply lookForX_constraint_closed; [exact Hsp |].
          apply (Hpts _ Hin). reflexivity. }
      destruct Hx as [x ->]. cbn [bind].
      eexists. split; [reflexivity | exact I].
  - exact I.
  - rewrite Hrun. cbn [bind].
    destruct st' as [[offset neg] [igfun jgvar]].
    destruct (length igfun =? 0); eexists; reflexivity.
Qed.

(** The block of assertions passes on arguments of the right sizes. *)
Lemma check_sizes_Ok (a : nag_in) :
  0 < i_nf a -> 0 < i_n a ->
  i_nxname a = 1 \/ i_nxname a = i_n a ->
  i_nfname a = 1 \/ i_nfname a = i_nf a ->
  i_objadd a = 0%float -> i_objrow a = 1 ->
  length (i_iafun a) = i_lena a -> length (i_javar a) = i_lena a ->
  length (i_a a) = i_lena a -> 1 <= i_lena a ->
  length (i_igfun a) = i_leng a -> length (i_jgvar a) = i_leng a ->
  1 <= i_leng a -> i_neg a <= i_leng a ->
  length (i_xlow a) = i_n a -> length (i_xupp a) = i_n a ->
  length (i_flow a) = i_nf a -> length (i_fupp a) = i_nf a ->
  length (i_x a) = i_n a -> length (i_xstate a) = i_n a ->
  length (i_xmul a) = i_n a ->
  length (i_f a) = i_nf a -> length (i_fstate a) = i_nf a ->
  length (i_fmul a) = i_nf a ->
  check_sizes a = Ok tt.
Proof.
  intros Hnf Hn Hxn Hfn Hadd Hrow Hia Hja Ha Hlena Hig Hjg Hleng Hneg
    Hxl Hxu Hfl Hfu Hx Hxs Hxm Hf Hfs Hfm.
  unfold check_sizes. rewrite Hadd.
  replace (0 =? 0)%float with true by reflexivity.
  repeat match goal with
         | |- context [assert ?b _] =>
             lazymatch b with
             | true => fail
             | _ =>
                 replace b with true
                   by (symmetry;
                       rewrite ?orb_true_iff, ?andb_true_iff,
                         ?Nat.eqb_eq, ?Nat.ltb_lt, ?Nat.leb_le; lia)
             end
         end.
  reflexivity.
Qed.

Lemma assert_seq_Ok (b : bool) (what : string) (k : outcome unit) :
  (assert b what ;;; k) = Ok tt -> b = true /\ k = Ok tt.
Proof. destruct b; simpl; [now split | discriminate]. Qed.

(** Two of the assertions of the block, read back. *)
Lemma check_sizes_inv (a : nag_in) :
  check_sizes a = Ok tt -> 0 < i_n a /\ length (i_x a) = i_n a.
Proof.
  unfold check_sizes. intros H.
  repeat (apply assert_seq_Ok in H; destruct H as [? H]).
  split; [apply Nat.ltb_lt | apply Nat.eqb_eq]; assumption.
Qed.

(** When [solve] has reached the call of the solver, the block of
    assertions has passed, on the starting point when there is one. *)
Lemma prepare_checked (s : solver_t) (a : nag_in) :
  prepare s = Ok a ->
  check_sizes a = Ok tt /\
  i_x a = match startingPoint (problem s) with
          | Some sp => sp
          | None => zeros (length (resize_eigen (n_ s) (x_ s)))
          end.
Proof.
  unfold prepare. intros H.
  destruct ((compute_nf (problem s) =? 1) || (n_ s =? 1));
    destruct (fill_iafun_javar_lena_nea (problem s))
      as [[[[iafun javar] av] lena] nea];
    inv_bind H; destruct a0 as [[[igfun jgvar] leng] neg];
    inv_bind H; inv_bind H; inv_bind H; inv_bind H; injection H as <-;
    match goal with
    | Hc : check_sizes _ = Ok ?u |- _ =>
        destruct u; split; [exact Hc | reflexivity]
    end.
Qed.

(** X13. [solve] reaches the call of the external solver only if: the
    objective has one output and is differentiable, the problem has at
    least one variable and one argument bound pair per variable, the
    starting point, when there is one, has one component per variable,
    and the name array of the adapter was empty; and then, on a problem
    whose bounds are declared, every row is [lower <= upper] once
    snapped. *)
Theorem solver_reached_only_if (s : solver_t) (a : nag_in) :
  prepare s = Ok a ->
  outputSize (function (problem s)) = 1 /\
  f_jacobian (function (problem s)) <> None /\
  0 < n_ s /\
  length (argumentBounds (problem s)) = n_ s /\
  match startingPoint (problem s) with
  | Some sp => length sp = n_ s
  | None => True
  end /\
  fnames_ s = [] /\
  (well_formed (problem s) ->
   forallb consistent
     (map snap_pair (map (row_bound (problem s)) (row_layout (problem s))))
   = true).
Proof.
  intros Hprep.
  destruct (prepare_Ok _ Hprep) as (_ & _ & Hobj).
  destruct (prepare_steps _ Hprep)
    as (_ & Hn & [pat Hpat] & Hbounds & [fb Hfb] & Hnames).
  destruct (prepare_checked _ Hprep) as [Hcheck Hx].
  apply check_sizes_inv in Hcheck. destruct Hcheck as [Hpos Hlen].
  rewrite Hn in Hpos, Hlen.
  split; [exact Hobj |].
  split.
  { unfold fill_igfun_jgvar_leng_neg in Hpat.
    destruct (f_jacobian (function (problem s))); discriminate. }
  split; [exact Hpos |]. split; [exact Hbounds |].
  split.
  { rewrite Hx in Hlen. destruct (startingPoint (problem s)); [exact Hlen | exact I]. }
  split.
  { rewrite fill_fnames_layout in Hnames. inv_bind Hnames.
    apply assert_Ok in Ha. apply Nat.eqb_eq in Ha.
    rewrite length_app, length_map, row_layout_length, compute_nf_sum, Hobj
      in Ha.
    apply length_zero_iff_nil. lia. }
  intros Hwf. rewrite (fill_flow_fupp_closed Hwf Hobj) in Hfb. cbn zeta in Hfb.
  destruct (forallb consistent _); [reflexivity | discriminate].
Qed.

Lemma solver_reached_only_if_witness :
  exists a,
    prepare (NagSolverNlpSparse problem_mixed) = Ok a /\
    outputSize (function problem_mixed) = 1 /\
    f_jacobian (function problem_mixed) <> None /\
    0 < 1 /\
    length (argumentBounds problem_mixed) = 1 /\
    True /\
    @nil string = [] /\
    (well_formed problem_mixed ->
     forallb consistent
       (map snap_pair (map (row_bound problem_mixed) (row_layout problem_mixed)))
     = true).
Proof.
  assert (H : exists a, prepare (NagSolverNlpSparse problem_mixed) = Ok a)
    by (vm_compute; eexists; reflexivity).
  destruct H as [a H]. exists a. split; [exact H |].
  exact (@solver_reached_only_if (NagSolverNlpSparse problem_mixed) a H).
Defined.

(** X14. On an adapter whose name array is empty, for a problem with at
    least one variable, one argument bound pair per variable, a
    differentiable objective of one output, declared bounds, defined
    points of evaluation, a starting point (when there is one) of one
    component per variable, and rows that are [lower <= upper] once
    snapped, [solve] reaches the external solver: no assertion fails and
    nothing is thrown before.  The solver receives [n_] and the number of
    rows, the argument bounds, the snapped row bounds and the row names
    in layout order, and as initial point the starting point, or zeros
    when there is none; what [solve] does next is what the solver
    returns, decoded. *)
Theorem solve_reaches_solver (s : solver_t)
  (jacobian : vector_t -> matrix_t) :
  fnames_ s = [] ->
  0 < n_ s ->
  length (argumentBounds (problem s)) = n_ s ->
  outputSize (function (problem s)) = 1 ->
  f_jacobian (function (problem s)) = Some jacobian ->
  well_formed (problem s) ->
  pattern_points_defined (problem s) (n_ s) ->
  match startingPoint (problem s) with
  | Some sp => length sp = n_ s
  | None => True
  end ->
  forallb consistent
    (map snap_pair (map (row_bound (problem s)) (row_layout (problem s))))
  = true ->
  exists a,
    prepare s = Ok a /\
    i_n a = n_ s /\
    i_nf a = 1 + list_sum (map c_outputSize (constraints (problem s))) /\
    i_xlow a = map fst (argumentBounds (problem s)) /\
    i_xupp a = map snd (argumentBounds (problem s)) /\
    i_flow a = map fst (map snap_pair (map (row_bound (problem s))
                                           (row_layout (problem s)))) /\
    i_fupp a = map snd (map snap_pair (map (row_bound (problem s))
                                           (row_layout (problem s)))) /\
    i_fnames a = map (row_name (problem s)) (row_layout (problem s)) /\
    i_x a = lookForX (problem s) (n_ s) /\
    forall nag,
      solve nag s =
        (r <- nag a (usrfun (problem s) (callback_ s)) (solverState_ s) ;;
         finish s a (fst r) (snd r)).
Proof.
  intros Hfresh Hpos Hbounds Hobj Hj Hwf Hpts Hsp Hcons.
  assert (Hnf : compute_nf (problem s)
                = 1 + list_sum (map c_outputSize (constraints (problem s))))
    by (rewrite compute_nf_sum, Hobj; reflexivity).
  assert (Hprep : exists a,
    prepare s = Ok a /\
    i_n a = n_ s /\
    i_nf a = 1 + list_sum (map c_outputSize (constraints (problem s))) /\
    i_xlow a = map fst (argumentBounds (problem s)) /\
    i_xupp a = map snd (argumentBounds (problem s)) /\
    i_flow a = map fst (map snap_pair (map (row_bound (problem s))
                                           (row_layout (problem s)))) /\
    i_fupp a = map snd (map snap_pair (map (row_bound (problem s))
                                           (row_layout (problem s)))) /\
    i_fnames a = map (row_name (problem s)) (row_layout (problem s)) /\
    i_x a = lookForX (problem s) (n_ s)).
  { unfold prepare.
    pose proof (fill_iafun_sizes (problem s)) as Hia.
    destruct (fill_iafun_javar_lena_nea (problem s))
      as [[[[iafun javar] av] lena] nea].
    destruct Hia as (Hia & Hja & Hav & Hlena).
    destruct (@fill_igfun_total _ (n_ s) _ Hj Hpts) as [pat Hpat].
    destruct pat as [[[igfun jgvar] leng] neg].
    pose proof (@fill_igfun_sizes _ _ _ _ _ _ Hpat) as (Hig & Hjg & Hleng & Hneg).
    rewrite Hpat.
    rewrite (@fill_xlow_xupp_closed _ _ (xlow_ s) (xupp_ s) Hbounds).
    rewrite (fill_flow_fupp_closed Hwf Hobj). cbn zeta. rewrite Hcons.
    rewrite Hfresh, fill_fnames_layout. cbn [app].
    rewrite length_map, row_layout_length, <- Hnf, Nat.eqb_refl.
    assert (Hx : match startingPoint (problem s) with
                 | Some sp => sp
                 | None => zeros (length (resize_eigen (n_ s) (x_ s)))
                 end = lookForX (problem s) (n_ s)).
    { unfold lookForX. destruct (startingPoint (problem s)); [reflexivity |].
      now rewrite resize_eigen_length. }
    assert (Hxlen : length (lookForX (problem s) (n_ s)) = n_ s).
    { unfold lookForX. destruct (startingPoint (problem s));
        [exact Hsp | apply repeat_length]. }
    destruct ((compute_nf (problem s) =? 1) || (n_ s =? 1));
      cbn [bind assert fst snd]; rewrite Hx;
      (eexists; split;
       [ rewrite check_sizes_Ok; [reflexivity | ..];
         cbn [i_nf i_n i_nxname i_nfname i_objadd i_objrow i_iafun i_javar
              i_a i_lena i_nea i_igfun i_jgvar i_leng i_neg i_xlow i_xupp
              i_xnames i_flow i_fupp i_fnames i_x i_xstate i_xmul i_f
              i_fstate i_fmul];
         rewrite ?length_map, ?resize_eigen_length, ?resize_std_length,
           ?row_layout_length;
         try reflexivity; try assumption; try lia; auto
       | cbn [i_nf i_n i_xlow i_xupp i_flow i_fupp i_fnames i_x];
         repeat split; try reflexivity; exact Hnf ]). }
  destruct Hprep as (a & Hprep & H1 & H2 & H3 & H4 & H5 & H6 & H7 & H8).
  exists a. repeat (split; [assumption |]).
  intros nag. unfold solve. rewrite Hprep. reflexivity.
Qed.

Lemma solve_reaches_solver_witness :
  fnames_ (NagSolverNlpSparse problem_mixed) = [] /\
  0 < 1 /\
  length (argumentBounds problem_mixed) = 1 /\
  outputSize (function problem_mixed) = 1 /\
  well_formed problem_mixed /\
  pattern_points_defined problem_mixed 1 /\
  forallb consistent
    (map snap_pair (map (row_bound problem_mixed) (row_layout problem_mixed)))
  = true /\
  exists a,
    prepare (NagSolverNlpSparse problem_mixed) = Ok a /\
    i_n a = 1 /\
    i_nf a = 1 + list_sum (map c_outputSize (constraints problem_mixed)) /\
    i_xlow a = map fst (argumentBounds problem_mixed) /\
    i_xupp a = map snd (argumentBounds problem_mixed) /\
    i_flow a = map fst (map snap_pair (map (row_bound problem_mixed)
                                           (row_layout problem_mixed))) /\
    i_fupp a = map snd (map snap_pair (map (row_bound problem_mixed)
                                           (row_layout problem_mixed))) /\
    i_fnames a = map (row_name problem_mixed) (row_layout problem_mixed) /\
    i_x a = lookForX problem_mixed 1 /\
    forall nag,
      solve nag (NagSolverNlpSparse problem_mixed) =
        (r <- nag a (usrfun problem_mixed None)
                {| ss_x := zeros 1 |} ;;
         finish (NagSolverNlpSparse problem_mixed) a (fst r) (snd r)).
Proof.
  assert (Hpts : pattern_points_defined problem_mixed 1).
  { unfold pattern_points_defined. cbn [startingPoint problem_mixed].
    repeat constructor. }
  assert (Hcons : forallb consistent
                    (map snap_pair (map (row_bound problem_mixed)
                                        (row_layout problem_mixed)))
                  = true) by (vm_compute; reflexivity).
  split; [reflexivity |]. split; [lia |]. split; [reflexivity |].
  split; [reflexivity |]. split; [exact problem_mixed_well_formed |].
  split; [exact Hpts |]. split; [exact Hcons |].
  exact (@solve_reaches_solver (NagSolverNlpSparse problem_mixed) _
           eq_refl (Nat.lt_0_succ 0) eq_refl eq_refl eq_refl
           problem_mixed_well_formed Hpts I Hcons).
Defined.
